(** * Artifact extraction and preview assembly

    A shallow embedding of [parseGeneratedContent] and [cleanResponseText]
    (utils/parser) and of [transpileCppToJs], [simulateNativeLanguage] and
    [assemblePreview] (utils/compiler.ts), and with them of the history
    and the handlers of the component [App] (App.tsx), of what the service
    computes around its requests (services/geminiService) and of the view
    that the viewer opens new files on (components/FileViewer.tsx).

    JavaScript strings are modelled as lists of code units ([list ascii]);
    a code unit is read as a Latin-1 character, so [\s], [.], [\b],
    [toLowerCase] and the case-insensitive flag are exact for texts whose
    code units are below 256.  Regular expressions are written as syntax
    trees that mirror the source patterns and are run by a backtracking
    matcher that follows the ECMAScript matcher semantics (continuation
    passing, greedy and lazy quantifiers, captures, back-references). *)

From Stdlib Require Import Ascii String DecimalString Sorted.
From stdpp Require Import base list option gmap.

Local Open Scope list_scope.
Local Open Scope nat_scope.

(** ** Strings *)

Abbreviation str := (list ascii).

Notation "# s" := (list_ascii_of_string s%string)
  (at level 1, s at level 0, format "# s").

(** The line feed, [\n] in the source. *)
Definition nl : str := ["010"%char].

Module Str.

Definition code (a : ascii) : nat := nat_of_ascii a.

Definition ceqb (a b : ascii) : bool := Ascii.eqb a b.

Definition in_range (lo hi : nat) (a : ascii) : bool :=
  (lo <=? code a) && (code a <=? hi).

(** WhiteSpace and LineTerminator code units below 256:
    TAB, LF, VT, FF, CR, SPACE and NBSP. *)
Definition is_space (a : ascii) : bool :=
  in_range 9 13 a || (code a =? 32) || (code a =? 160).

(** LineTerminator code units below 256: LF and CR. *)
Definition is_line_terminator (a : ascii) : bool :=
  (code a =? 10) || (code a =? 13).

Definition is_digit (a : ascii) : bool := in_range 48 57 a.

(** The characters of [\w]: letters, digits and underscore. *)
Definition is_word (a : ascii) : bool :=
  in_range 97 122 a || in_range 65 90 a || in_range 48 57 a || (code a =? 95).

(** [toLowerCase] and [toUpperCase] of one Latin-1 code unit. *)
Definition lower (a : ascii) : ascii :=
  if in_range 65 90 a
     || (in_range 192 222 a && negb (code a =? 215))
  then ascii_of_nat (code a + 32) else a.

Definition upper (a : ascii) : ascii :=
  if in_range 97 122 a
     || (in_range 224 254 a && negb (code a =? 247))
  then ascii_of_nat (code a - 32) else a.

Definition toLowerCase (s : str) : str := map lower s.
Definition toUpperCase (s : str) : str := map upper s.

Fixpoint eqb (s t : str) : bool :=
  match s, t with
  | [], [] => true
  | a :: s', b :: t' => ceqb a b && eqb s' t'
  | _, _ => false
  end.

(** [s.startsWith(p)] *)
Fixpoint startsWith (p s : str) : bool :=
  match p, s with
  | [], _ => true
  | a :: p', b :: s' => ceqb a b && startsWith p' s'
  | _ :: _, [] => false
  end.

(** [s.endsWith(p)] *)
Definition endsWith (p s : str) : bool :=
  (length p <=? length s) && eqb (drop (length s - length p) s) p.

(** [s.indexOf(p)], [None] standing for -1. *)
Fixpoint indexOf (p s : str) : option nat :=
  if startsWith p s then Some 0
  else match s with
       | [] => None
       | _ :: s' => S <$> indexOf p s'
       end.

(** [s.includes(p)] *)
Definition includes (p s : str) : bool :=
  match indexOf p s with Some _ => true | None => false end.

(** [s.trimStart()], [s.trimEnd()] and [s.trim()] *)
Fixpoint trimStart (s : str) : str :=
  match s with
  | a :: s' => if is_space a then trimStart s' else s
  | [] => []
  end.

Definition trimEnd (s : str) : str := reverse (trimStart (reverse s)).

Definition trim (s : str) : str := trimEnd (trimStart s).

(** [l.join(sep)] *)
Fixpoint join (sep : str) (l : list str) : str :=
  match l with
  | [] => []
  | [x] => x
  | x :: l' => x ++ sep ++ join sep l'
  end.

(** [s.split(sep)] for a non-empty separator: [cur] holds, reversed, the
    characters of the piece being read and [skip] counts the characters of
    a separator still to be passed over. *)
Fixpoint split_go (sep : str) (skip : nat) (cur : str) (s : str) : list str :=
  match s with
  | [] => [reverse cur]
  | a :: s' =>
      match skip with
      | S k => split_go sep k cur s'
      | 0 =>
          if startsWith sep s
          then reverse cur :: split_go sep (length sep - 1) [] s'
          else split_go sep 0 (a :: cur) s'
      end
  end.

Definition split (sep : str) (s : str) : list str := split_go sep 0 [] s.

(** [s.substring(0, n)] *)
Definition substring0 (n : nat) (s : str) : str := take n s.

End Str.

(** ** Regular expressions *)

Module Regex.

(** Members of a character class. *)
Inductive citem :=
  | CChar (c : ascii)            (* a single character *)
  | CRange (lo hi : ascii)       (* lo-hi *)
  | CSpace                       (* \s *)
  | CNotSpace                    (* \S *)
  | CWord                        (* \w *)
  | CDigit.                      (* \d *)

(** Patterns.  Capture groups are numbered from 0 in the syntax tree:
    group [n] here is [$(n+1)] and [\(n+1)] in the source. *)
Inductive regex :=
  | REmpty
  | RLit (s : str)                       (* a run of pattern characters *)
  | RDot                                 (* . *)
  | RSet (neg : bool) (items : list citem)   (* [...] and [^...] *)
  | RSeq (r1 r2 : regex)
  | RAlt (r1 r2 : regex)                 (* r1|r2 *)
  | RGroup (n : nat) (r : regex)         (* ( r ) *)
  | RQuant (r : regex) (min : nat) (max : option nat) (greedy : bool)
  | RBackref (n : nat)                   (* \n *)
  | RBol                                 (* ^ *)
  | REol                                 (* $ *)
  | RWordB.                              (* \b *)

(** A sequence of patterns and an alternation of at least one pattern. *)
Definition rseq (l : list regex) : regex := foldr RSeq REmpty l.

Fixpoint ralt (r : regex) (l : list regex) : regex :=
  match l with
  | [] => r
  | r' :: l' => RAlt r (ralt r' l')
  end.

Definition RStar (r : regex) := RQuant r 0 None true.        (* r*  *)
Definition RStarLazy (r : regex) := RQuant r 0 None false.   (* r*? *)
Definition RPlus (r : regex) := RQuant r 1 None true.        (* r+  *)
Definition ROpt (r : regex) := RQuant r 0 (Some 1) true.     (* r?  *)
Definition RAny := RSet false [CSpace; CNotSpace].           (* [\s\S] *)
Definition RSpace := RSet false [CSpace].                    (* \s *)

(** A position in the subject: the character before it, if any, and the
    characters from it on. *)
Record pos := Pos { prev : option ascii; rest : str }.

Definition start_pos (s : str) : pos := Pos None s.

Definition advance (a : ascii) (t : str) : pos := Pos (Some a) t.

(** Captures: for each group the text it matched last, if any. *)
Abbreviation caps := (list (option str)).

Definition result := (pos * caps)%type.
Definition cont := pos -> caps -> option result.
Definition matcher := pos -> caps -> cont -> option result.

Definition item_mem (i : citem) (a : ascii) : bool :=
  match i with
  | CChar c => Str.ceqb c a
  | CRange lo hi => Str.in_range (Str.code lo) (Str.code hi) a
  | CSpace => Str.is_space a
  | CNotSpace => negb (Str.is_space a)
  | CWord => Str.is_word a
  | CDigit => Str.is_digit a
  end.

Definition class_mem (items : list citem) (a : ascii) : bool :=
  existsb (fun i => item_mem i a) items.

(** Canonicalize of the case-insensitive flag is [toUpperCase]; the
    characters with the canonical form of [a] are [a], its lower-case and
    its upper-case form. *)
Definition set_mem (ic : bool) (neg : bool) (items : list citem) (a : ascii) : bool :=
  xorb neg
    (class_mem items a
     || (ic && (class_mem items (Str.lower a) || class_mem items (Str.upper a)))).

Definition char_eq (ic : bool) (c a : ascii) : bool :=
  if ic then Str.ceqb (Str.upper c) (Str.upper a) else Str.ceqb c a.

(** [lit_match ic p s]: the rest of [s] after the literal [p], together
    with the last character passed. *)
Fixpoint lit_match (ic : bool) (p : str) (x : pos) : option pos :=
  match p with
  | [] => Some x
  | c :: p' =>
      match rest x with
      | a :: t => if char_eq ic c a then lit_match ic p' (advance a t) else None
      | [] => None
      end
  end.

(** The text between two positions of one subject. *)
Definition between (x y : pos) : str :=
  take (length (rest x) - length (rest y)) (rest x).

Definition is_word_opt (o : option ascii) : bool :=
  match o with Some a => Str.is_word a | None => false end.

Fixpoint groups (r : regex) : list nat :=
  match r with
  | RSeq r1 r2 | RAlt r1 r2 => groups r1 ++ groups r2
  | RGroup n r' => n :: groups r'
  | RQuant r' _ _ _ => groups r'
  | _ => []
  end.

Definition clear (gs : list nat) (cs : caps) : caps :=
  foldr (fun n acc => <[n := None]> acc) cs gs.

(** RepeatMatcher: [fuel] bounds the number of iterations; an iteration
    that is not required must consume input, so [min + length + 1]
    iterations are never exceeded (see [repeat_fuel]). *)
Fixpoint repeat (fuel : nat) (m : matcher) (gs : list nat)
    (min : nat) (max : option nat) (greedy : bool)
    (x : pos) (cs : caps) (k : cont) : option result :=
  match fuel with
  | 0 => None
  | S fuel' =>
      match max with
      | Some 0 => k x cs
      | _ =>
          let d : cont := fun y cs' =>
            if (min =? 0) && (length (rest x) <=? length (rest y)) then None
            else repeat fuel' m gs (pred min) (pred <$> max) greedy y cs' k in
          let xr := clear gs cs in
          if negb (min =? 0) then m x xr d
          else if greedy then
            match m x xr d with
            | Some z => Some z
            | None => k x cs
            end
          else
            match k x cs with
            | Some z => Some z
            | None => m x xr d
            end
      end
  end.

Definition repeat_fuel (min : nat) (x : pos) : nat := S (min + length (rest x)).

(** The matcher of a pattern; [ic] is the [i] flag. *)
Fixpoint rmatch (ic : bool) (r : regex) : matcher :=
  fun x cs k =>
  match r with
  | REmpty => k x cs
  | RLit p =>
      match lit_match ic p x with
      | Some y => k y cs
      | None => None
      end
  | RDot =>
      match rest x with
      | a :: t => if Str.is_line_terminator a then None else k (advance a t) cs
      | [] => None
      end
  | RSet neg items =>
      match rest x with
      | a :: t => if set_mem ic neg items a then k (advance a t) cs else None
      | [] => None
      end
  | RSeq r1 r2 => rmatch ic r1 x cs (fun y cs' => rmatch ic r2 y cs' k)
  | RAlt r1 r2 =>
      match rmatch ic r1 x cs k with
      | Some z => Some z
      | None => rmatch ic r2 x cs k
      end
  | RGroup n r' =>
      rmatch ic r' x cs (fun y cs' => k y (<[n := Some (between x y)]> cs'))
  | RQuant r' min max greedy =>
      repeat (repeat_fuel min x) (rmatch ic r') (groups r') min max greedy x cs k
  | RBackref n =>
      match cs !! n with
      | Some (Some v) =>
          match lit_match ic v x with
          | Some y => k y cs
          | None => None
          end
      | _ => k x cs
      end
  | RBol => match prev x with None => k x cs | Some _ => None end
  | REol => match rest x with [] => k x cs | _ :: _ => None end
  | RWordB =>
      let a := is_word_opt (prev x) in
      let b := is_word_opt (head (rest x)) in
      if xorb a b then k x cs else None
  end.

(** The final continuation: the match is complete. *)
Definition K0 : cont := fun y cs => Some (y, cs).

(** A matcher consumes at least [n] characters when it hands its
    continuation a position at least [n] characters further on. *)
Definition consumes (n : nat) (m : matcher) : Prop :=
  forall x cs k z, m x cs k = Some z ->
    exists y cs', k y cs' = Some z /\ n + length (rest y) <= length (rest x).

(** The number of iterations that a quantifier requires. *)
Definition qbound (min : nat) (max : option nat) : nat :=
  match max with Some j => min `min` j | None => min end.

(** A lower bound on the length of what a pattern matches. *)
Fixpoint minlen (r : regex) : nat :=
  match r with
  | RLit p => length p
  | RDot | RSet _ _ => 1
  | RSeq r1 r2 => minlen r1 + minlen r2
  | RAlt r1 r2 => minlen r1 `min` minlen r2
  | RGroup _ r' => minlen r'
  | RQuant r' min max _ => qbound min max * minlen r'
  | _ => 0
  end.

(** A matcher is local when its result depends on its continuation only
    at positions that are not before its own. *)
Definition local (m : matcher) : Prop :=
  forall x cs k k',
    (forall y cs', length (rest y) <= length (rest x) -> k y cs' = k' y cs') ->
    m x cs k = m x cs k'.

(** A compiled pattern: the syntax tree, the number of capture groups and
    the [i] flag. *)
Record pattern := Pattern { re : regex; ngroups : nat; ignoreCase : bool }.

(** A successful match: where it starts, the matched text, the captures
    and the position after it. *)
Record mtch := Mtch { index : nat; matched : str; captures : caps; after : pos }.

Definition match_at (p : pattern) (x : pos) : option result :=
  rmatch (ignoreCase p) (re p) x (replicate (ngroups p) None) K0.

(** The search of RegExpBuiltinExec: the first position from [Pos pv s] on
    at which the pattern matches; [i] is the index of that position. *)
Fixpoint search (p : pattern) (i : nat) (pv : option ascii) (s : str) : option mtch :=
  match match_at p (Pos pv s) with
  | Some (y, cs) => Some (Mtch i (between (Pos pv s) y) cs y)
  | None =>
      match s with
      | [] => None
      | a :: t => search p (S i) (Some a) t
      end
  end.

(** [s.match(re)] and [re.exec(s)] without the [g] flag. *)
Definition exec (p : pattern) (s : str) : option mtch := search p 0 None s.

(** [re.test(s)] *)
Definition test (p : pattern) (s : str) : bool :=
  match exec p s with Some _ => true | None => false end.

(** Capture [n] of a match, [undefined] being [None]. *)
Definition group (m : mtch) (n : nat) : option str :=
  match captures m !! n with Some o => o | None => None end.

(** Capture [n] as the source uses it after a successful match of a group
    that always takes part. *)
Definition group_str (m : mtch) (n : nat) : str := default [] (group m n).

(** *** Reference recursions

    Plain recursions over the subject that the quantified one-character
    patterns are shown to compute (see the facts about the matcher). *)

(** The character before the position reached after reading [u]. *)
Fixpoint lastp (pv : option ascii) (u : str) : option ascii :=
  match u with
  | [] => pv
  | a :: u' => lastp (Some a) u'
  end.

(** The matcher of one character that satisfies [P]. *)
Definition charm (P : ascii -> bool) : matcher := fun x cs k =>
  match rest x with
  | a :: t => if P a then k (advance a t) cs else None
  | [] => None
  end.

Fixpoint lazy_star (P : ascii -> bool) (pv : option ascii) (s : str)
    (cs : caps) (k : cont) : option result :=
  match k (Pos pv s) cs with
  | Some z => Some z
  | None =>
      match s with
      | a :: t => if P a then lazy_star P (Some a) t cs k else None
      | [] => None
      end
  end.

Fixpoint greedy_star (P : ascii -> bool) (pv : option ascii) (s : str)
    (cs : caps) (k : cont) : option result :=
  match s with
  | a :: t =>
      if P a then
        match greedy_star P (Some a) t cs k with
        | Some z => Some z
        | None => k (Pos pv s) cs
        end
      else k (Pos pv s) cs
  | [] => k (Pos pv s) cs
  end.

(** The loop [while ((m = re.exec(text)) !== null)] of a pattern with the
    [g] flag: each search resumes at [lastIndex], the end of the previous
    match.  After an empty match the source loop would not advance; the
    patterns it is used with all begin with literal characters. *)
Fixpoint exec_loop (fuel : nat) (p : pattern) (i : nat) (pv : option ascii) (s : str)
    : list mtch :=
  match fuel with
  | 0 => []
  | S fuel' =>
      match search p i pv s with
      | None => []
      | Some m =>
          m :: match matched m with
               | [] => []
               | _ :: _ =>
                   exec_loop fuel' p (index m + length (matched m))
                     (prev (after m)) (rest (after m))
               end
      end
  end.

Definition exec_all (p : pattern) (s : str) : list mtch :=
  exec_loop (S (length s)) p 0 None s.

(** [s.replace(re, f)] for a pattern with the [g] flag and a replacer
    function [f], which may update a state of the enclosing scope (here
    [st]); after an empty match the search advances by one character. *)
Fixpoint replace_loop {St : Type} (fuel : nat) (p : pattern)
    (f : St -> mtch -> St * str) (st : St) (pv : option ascii) (s : str) : St * str :=
  match fuel with
  | 0 => (st, s)
  | S fuel' =>
      match search p 0 pv s with
      | None => (st, s)
      | Some m =>
          let '(st1, r) := f st m in
          let '(st2, tl) :=
            match matched m with
            | [] =>
                match rest (after m) with
                | [] => (st1, [])
                | a :: t =>
                    let '(st2, tl) := replace_loop fuel' p f st1 (Some a) t in
                    (st2, a :: tl)
                end
            | _ :: _ => replace_loop fuel' p f st1 (prev (after m)) (rest (after m))
            end in
          (st2, take (index m) s ++ r ++ tl)
      end
  end.

Definition replace_all_fold {St : Type} (p : pattern)
    (f : St -> mtch -> St * str) (st : St) (s : str) : St * str :=
  replace_loop (S (length s)) p f st None s.

Definition replace_all_with (p : pattern) (f : mtch -> str) (s : str) : str :=
  snd (replace_all_fold p (fun (_ : unit) m => (tt, f m)) tt s).

(** [s.replace(re, f)] for a pattern without the [g] flag. *)
Definition replace_first_with (p : pattern) (f : mtch -> str) (s : str) : str :=
  match exec p s with
  | None => s
  | Some m => take (index m) s ++ f m ++ rest (after m)
  end.

(** GetSubstitution: the expansion of a replacement string.  [$$], [$&],
    [$`], [$'] and [$n]/[$nn] are special; a reference to a group that
    does not exist stays as it is written. *)
Definition digit_val (a : ascii) : nat := Str.code a - 48.

Definition capture_ref (cs : caps) (n : nat) : option str :=
  match n with
  | 0 => None
  | S n' => match cs !! n' with Some o => Some (default [] o) | None => None end
  end.

Fixpoint substitute (tpl : str) (matched before after : str) (cs : caps) : str :=
  match tpl with
  | [] => []
  | a :: t =>
      if negb (Str.ceqb a "$") then a :: substitute t matched before after cs
      else
        match t with
        | [] => [a]
        | b :: t' =>
            if Str.ceqb b "$" then b :: substitute t' matched before after cs
            else if Str.ceqb b "&" then matched ++ substitute t' matched before after cs
            else if Str.ceqb b "`" then before ++ substitute t' matched before after cs
            else if Str.ceqb b "'" then after ++ substitute t' matched before after cs
            else if Str.is_digit b then
              match t' with
              | c :: t'' =>
                  if Str.is_digit c then
                    match capture_ref cs (10 * digit_val b + digit_val c) with
                    | Some v => v ++ substitute t'' matched before after cs
                    | None =>
                        match capture_ref cs (digit_val b) with
                        | Some v => v ++ substitute t' matched before after cs
                        | None => a :: b :: substitute t' matched before after cs
                        end
                    end
                  else
                    match capture_ref cs (digit_val b) with
                    | Some v => v ++ substitute t' matched before after cs
                    | None => a :: b :: substitute t' matched before after cs
                    end
              | [] =>
                  match capture_ref cs (digit_val b) with
                  | Some v => v
                  | None => [a; b]
                  end
              end
            else a :: substitute t matched before after cs
        end
  end.

(** [s.replace(re, tpl)] for a replacement string: only the group
    references of [tpl] are used with patterns in this program. *)
Definition replace_all (p : pattern) (tpl : str) (s : str) : str :=
  replace_all_with p (fun m => substitute tpl (matched m) [] [] (captures m)) s.

Definition replace_first (p : pattern) (tpl : str) (s : str) : str :=
  replace_first_with p (fun m => substitute tpl (matched m) [] [] (captures m)) s.

End Regex.

(** [s.replace(pat, tpl)] for a string pattern: the first occurrence of
    [pat] is replaced by the expansion of [tpl]. *)
Definition replaceStr (pat tpl : str) (s : str) : str :=
  match Str.indexOf pat s with
  | None => s
  | Some i =>
      let before := take i s in
      let after := drop (i + length pat) s in
      before ++ Regex.substitute tpl pat before after [] ++ after
  end.

(** ** Data model (types.ts) *)

Record GeneratedFile := mkFile { name : str; language : str; content : str }.

(** ** utils/parser: [parseGeneratedContent] and [cleanResponseText] *)

Module Parser.
Import Regex.

(** The marker texts of the delimited-file format. *)
Definition FILE_START : str := #"***FILE_START:".
Definition FILE_END : str := #"***FILE_END***".
Definition STARS : str := #"***".

(** [/\*\*\*FILE_START:\s*(.*?)\s*\*\*\*([\s\S]*?)\*\*\*FILE_END\*\*\*/g] *)
Definition delimiterRegex : pattern :=
  Pattern
    (rseq [RLit FILE_START; RStar RSpace; RGroup 0 (RStarLazy RDot);
           RStar RSpace; RLit STARS; RGroup 1 (RStarLazy RAny);
           RLit FILE_END])
    2 false.

(** The pattern from each of its parts on. *)
Definition R_end : regex := RSeq (RLit FILE_END) REmpty.
Definition R_body : regex := RSeq (RGroup 1 (RStarLazy RAny)) R_end.
Definition R_close : regex := RSeq (RLit STARS) R_body.
Definition R_ws2 : regex := RSeq (RStar RSpace) R_close.
Definition R_name : regex := RSeq (RGroup 0 (RStarLazy RDot)) R_ws2.
Definition R_ws1 : regex := RSeq (RStar RSpace) R_name.

(** [/^```[a-z]*\n/i] *)
Definition openFenceRegex : pattern :=
  Pattern
    (rseq [RBol; RLit #"```"; RStar (RSet false [CRange "a" "z"]); RLit nl])
    0 true.

(** [/\n```$/] *)
Definition closeFenceRegex : pattern :=
  Pattern (rseq [RLit nl; RLit #"```"; REol]) 0 false.

(** [[a-zA-Z0-9_-]] *)
Definition tagClass : regex :=
  RSet false [CRange "a" "z"; CRange "A" "Z"; CRange "0" "9"; CChar "_"; CChar "-"].

(** [codeBlockRegex], with the [g] flag: group 1 is [`{3,}], group 2 is
    [[a-zA-Z0-9_-]*], then [\n], the lazy group 3 [[\s\S]*?] and the
    back-reference [\1]. *)
Definition codeBlockRegex : pattern :=
  Pattern
    (rseq [RGroup 0 (RQuant (RLit #"`") 3 None true); RGroup 1 (RStar tagClass);
           RLit nl; RGroup 2 (RStarLazy RAny); RBackref 0])
    3 false.

(** The backtick, a fence of three, and the pattern from each of its
    parts on. *)
Definition bq : ascii := "`"%char.
Definition FENCE : str := [bq; bq; bq].
Definition fenceRun : regex := RQuant (RLit [bq]) 3 None true.
Definition R_close_fence : regex := RSeq (RBackref 0) REmpty.
Definition R_cbody : regex := RSeq (RGroup 2 (RStarLazy RAny)) R_close_fence.
Definition R_nl : regex := RSeq (RLit nl) R_cbody.
Definition R_tag : regex := RSeq (RGroup 1 (RStar tagClass)) R_nl.

(** [[a-zA-Z0-9_./-]] *)
Definition pathClass : regex :=
  RSet false [CRange "a" "z"; CRange "A" "Z"; CRange "0" "9";
              CChar "_"; CChar "."; CChar "/"; CChar "-"].

(** [/(?:file|filename):\s*([a-zA-Z0-9_./-]+)/i] *)
Definition fileLabelRegex : pattern :=
  Pattern
    (rseq [RAlt (RLit #"file") (RLit #"filename"); RLit #":"; RStar RSpace;
           RGroup 0 (RPlus pathClass)])
    1 true.

(** [/^([a-zA-Z0-9_./-]+):$/] *)
Definition bareNameRegex : pattern :=
  Pattern (rseq [RBol; RGroup 0 (RPlus pathClass); RLit #":"; REol]) 1 false.

(** The opening token of [cleanResponseText]: the marker without its
    colon. *)
Definition FILE_START_TOKEN : str := #"***FILE_START".

(** [/\*\*\*FILE_START[\s\S]*?\*\*\*FILE_END\*\*\*/g] *)
Definition fileBlockRegex : pattern :=
  Pattern (rseq [RLit FILE_START_TOKEN; RStarLazy RAny; RLit FILE_END]) 0 false.

(** [filename.split('.').pop()?.toLowerCase() || 'text'] *)
Definition extension (filename : str) : str :=
  match Str.toLowerCase (default [] (last (Str.split #"." filename))) with
  | [] => #"text"
  | e => e
  end.

(** [content.replace(/^```[a-z]*\n/i, '').replace(/\n```$/, '')] *)
Definition stripFences (content : str) : str :=
  replace_first closeFenceRegex [] (replace_first openFenceRegex [] content).

(** The body of the first loop: one artifact per primary match. *)
Definition primaryFile (m : mtch) : GeneratedFile :=
  let filename := Str.trim (group_str m 0) in
  let content := Str.trim (group_str m 1) in
  let ext := extension filename in
  let content := stripFences content in
  mkFile filename ext content.

(** Decimal digits of the running counter in [`file_${fileCounter}...`]. *)
Definition decimal (n : nat) : str :=
  list_ascii_of_string (NilEmpty.string_of_uint (Nat.to_uint n)).

(** The body of the fallback loop. *)
Definition fallbackFile (text : str) (fileCounter : nat) (cbMatch : mtch) : GeneratedFile :=
  let lang := match group_str cbMatch 1 with [] => #"text" | l => l end in
  let content := Str.trim (group_str cbMatch 2) in
  let precedingText := Str.split nl (Str.trim (Str.substring0 (index cbMatch) text)) in
  let lastLine := last precedingText in
  let filename :=
    #"file_" ++ decimal fileCounter ++ #"." ++
    (if Str.eqb lang #"typescript" || Str.eqb lang #"ts" then #"ts"
     else if Str.eqb lang #"javascript" || Str.eqb lang #"js" then #"js"
     else #"txt") in
  let nameMatch :=
    match lastLine with
    | None => None
    | Some l =>
        match exec fileLabelRegex l with
        | Some m => Some m
        | None => exec bareNameRegex l
        end
    end in
  let filename :=
    match nameMatch with
    | Some m => group_str m 0
    | None => filename
    end in
  mkFile filename lang content.

Fixpoint fallbackFiles (text : str) (fileCounter : nat) (ms : list mtch) : list GeneratedFile :=
  match ms with
  | [] => []
  | m :: ms' => fallbackFile text fileCounter m :: fallbackFiles text (S fileCounter) ms'
  end.

Definition parseGeneratedContent (text : str) : list GeneratedFile :=
  let files := map primaryFile (exec_all delimiterRegex text) in
  match files with
  | [] => fallbackFiles text 1 (exec_all codeBlockRegex text)
  | _ :: _ => files
  end.

Definition cleanResponseText (text : str) : str :=
  Str.trim (replace_all fileBlockRegex [] text).

End Parser.

(** ** The delimited-file format

    Texts built from prose and delimited blocks, and the conditions under
    which the blocks are the ones the extractor finds. *)

Module Format.
Import Parser.

(** All characters of [w] are white space. *)
Definition spaces (w : str) : Prop := Forall (fun a => Str.is_space a = true) w.

(** No occurrence of [tok] begins inside [s] when [tok] follows it. *)
Definition firstAt (tok s : str) : Prop :=
  Str.indexOf tok (s ++ tok) = Some (length s).

(** One block of the primary format, [***FILE_START:] [leading] [filename]
    [trailing] [***] [body] [***FILE_END***], and the prose after it. *)
Record block := Block {
  leading : str;
  filename : str;
  trailing : str;
  body : str;
  prose : str
}.

Definition renderBlock (b : block) : str :=
  FILE_START ++ leading b ++ filename b ++ trailing b ++ STARS ++
  body b ++ FILE_END ++ prose b.

Definition render (intro : str) (bs : list block) : str :=
  intro ++ concat (map renderBlock bs).

(** A file name as the opening marker can carry it: no [*], no line
    terminator, no white space at either end. *)
Definition wfName (n : str) : Prop :=
  Forall (fun a => a <> "*"%char /\ Str.is_line_terminator a = false) n
  /\ (forall a, head n = Some a -> Str.is_space a = false)
  /\ (forall a, last n = Some a -> Str.is_space a = false).

Record wfBlock (b : block) : Prop := WfBlock {
  wf_leading : spaces (leading b);
  wf_trailing : spaces (trailing b);
  wf_filename : wfName (filename b);
  wf_body : firstAt FILE_END (body b);
  wf_prose : firstAt FILE_START (prose b)
}.

(** The artifact of a block. *)
Definition artifactOf (b : block) : GeneratedFile :=
  mkFile (filename b) (extension (filename b)) (stripFences (Str.trim (body b))).

(** One region as [cleanResponseText] removes it, [***FILE_START] [inner]
    [***FILE_END***], and the prose after it. *)
Record region := Region { inner : str; rprose : str }.

Definition renderRegion (r : region) : str :=
  FILE_START_TOKEN ++ inner r ++ FILE_END ++ rprose r.

Definition renderRegions (intro : str) (rs : list region) : str :=
  intro ++ concat (map renderRegion rs).

Record wfRegion (r : region) : Prop := WfRegion {
  wf_inner : firstAt FILE_END (inner r);
  wf_rprose : firstAt FILE_START_TOKEN (rprose r)
}.

(** The line that names the file of a fenced block. *)
Definition LABEL : str := #"filename: app.js".

(** The prose of a text: what is outside its regions. *)
Definition proseOf (intro : str) (rs : list region) : str :=
  intro ++ concat (map rprose rs).

End Format.

(** ** utils/compiler.ts *)

Module Compiler.
Import Regex.

(** The text of a source literal that contains double quotes is written
    with [~] in their place: [q] puts the quotes back.  No literal of
    compiler.ts contains [~]. *)
Definition dq : ascii := "034"%char.
Definition bs : ascii := "092"%char.

Definition q (s : string) : str :=
  map (fun c => if Str.ceqb c "~" then dq else c) (list_ascii_of_string s).

(** *** transpileCppToJs *)

(** [/#include\s+<.*?>/g] *)
Definition includeRegex : pattern :=
  Pattern (rseq [RLit #"#include"; RPlus RSpace; RLit #"<"; RStarLazy RDot; RLit #">"]) 0 false.

(** [/using\s+namespace\s+std;/g] *)
Definition usingRegex : pattern :=
  Pattern (rseq [RLit #"using"; RPlus RSpace; RLit #"namespace"; RPlus RSpace; RLit #"std;"]) 0 false.

(** [/return\s+0;/g] *)
Definition returnRegex : pattern :=
  Pattern (rseq [RLit #"return"; RPlus RSpace; RLit #"0;"]) 0 false.

(** [mainRegex]: [int\s+main\s*\(\)\s*\{], the greedy group [[\s\S]*]
    and [\}]. *)
Definition mainRegex : pattern :=
  Pattern
    (rseq [RLit #"int"; RPlus RSpace; RLit #"main"; RStar RSpace; RLit #"()";
           RStar RSpace; RLit #"{"; RGroup 0 (RStar RAny); RLit #"}"])
    1 false.

(** [/\blong\s+long\b/g] *)
Definition longLongRegex : pattern :=
  Pattern (rseq [RWordB; RLit #"long"; RPlus RSpace; RLit #"long"; RWordB]) 0 false.

(** [/\b(int|long|float|double|char|string|bool|auto|const)\b/g] *)
Definition typeRegex : pattern :=
  Pattern
    (rseq [RWordB;
           RGroup 0 (ralt (RLit #"int")
                       [RLit #"long"; RLit #"float"; RLit #"double"; RLit #"char";
                        RLit #"string"; RLit #"bool"; RLit #"auto"; RLit #"const"]);
           RWordB])
    1 false.

(** [/std::/g] *)
Definition stdRegex : pattern := Pattern (rseq [RLit #"std::"]) 0 false.

(** [[a-zA-Z0-9_]] *)
Definition identClass : regex :=
  RSet false [CRange "a" "z"; CRange "A" "Z"; CRange "0" "9"; CChar "_"].

(** [/cin\s*>>\s*([a-zA-Z0-9_]+)\s*;/g] *)
Definition cinRegex : pattern :=
  Pattern
    (rseq [RLit #"cin"; RStar RSpace; RLit #">>"; RStar RSpace;
           RGroup 0 (RPlus identClass); RStar RSpace; RLit #";"])
    1 false.

(** [/^cout\s*<<\s*/] *)
Definition coutRegex : pattern :=
  Pattern (rseq [RBol; RLit #"cout"; RStar RSpace; RLit #"<<"; RStar RSpace]) 0 false.

(** [/;$/] *)
Definition semicolonRegex : pattern := Pattern (rseq [RLit #";"; REol]) 0 false.

(** The replacer of step 5. *)
Definition cinPrompt (varName : str) : str :=
  varName ++ q" = prompt(~Interactive Input required for '" ++ varName ++ q"':~);" ++ nl ++
  #"if(" ++ varName ++ #" !== null && !isNaN(Number(" ++ varName ++ #")) && " ++ varName ++
  #".trim() !== '') " ++ varName ++ #" = Number(" ++ varName ++ #");" ++ nl ++
  q"console.log(~[Input] " ++ varName ++ q" =~, " ++ varName ++ #");".

(** The callback of [lines.map] in step 6. *)
Definition processLine (line : str) : str :=
  if Str.startsWith #"cout" (Str.trim line) then
    let content := Str.trim line in
    let content := replace_first coutRegex [] content in
    let content := replace_first semicolonRegex [] content in
    let parts := map Str.trim (Str.split #"<<" content) in
    let jsParts := map (fun p => if Str.eqb p #"endl" then [dq; bs; "n"%char; dq] else p) parts in
    #"console.log(" ++ Str.join #", " jsParts ++ #");"
  else line.

(** Steps 1 to 5: the text handed to the line-by-line rewriting. *)
Definition transpilePrefix (code : str) : str :=
  let js := code in
  let js := replace_all includeRegex [] js in
  let js := replace_all usingRegex [] js in
  let js := replace_all returnRegex [] js in
  let js := match exec mainRegex js with
            | Some mainMatch => group_str mainMatch 0
            | None => js
            end in
  let js := replace_all longLongRegex #"let" js in
  let js := replace_all typeRegex #"let" js in
  let js := replace_all stdRegex [] js in
  replace_all_with cinRegex (fun m => cinPrompt (group_str m 0)) js.

(** The text of the returned script before and after the rewritten body.
    The banner holds U+26A1, a code unit above 255; it is kept as the
    bytes of its UTF-8 form, and nothing reads it back. *)
Definition scriptHeader : str :=
  q"
    console.log(~⚡ C++ Interactive Simulation Started~);
    console.log(~-------------------------------------~);
    try {
      (async function() {
        ".

Definition scriptFooter : str :=
  q"
      })();
      console.log(~-------------------------------------~);
      console.log(~Process finished with exit code 0~);
    } catch (e) {
      console.error(~Runtime Error:~, e.message);
    }
  ".

Definition transpileCppToJs (code : str) : str :=
  let js := transpilePrefix code in
  let lines := Str.split nl js in
  let processedLines := map processLine lines in
  let js := Str.join nl processedLines in
  scriptHeader ++ js ++ scriptFooter.

(** *** simulateNativeLanguage *)

(** [/\.(cpp|c|h|hpp)$/i] *)
Definition cppExtRegex : pattern :=
  Pattern
    (rseq [RLit #"."; RGroup 0 (ralt (RLit #"cpp") [RLit #"c"; RLit #"h"; RLit #"hpp"]); REol])
    1 true.

(** [printRegex]: [print\s*\(\s*], group 1 a single or double quote,
    the lazy group 2 [.*?], the back-reference [\1] and [\s*\)]; [g] flag. *)
Definition printRegex : pattern :=
  Pattern
    (rseq [RLit #"print"; RStar RSpace; RLit #"("; RStar RSpace;
           RGroup 0 (RSet false [CChar "'"; CChar dq]); RGroup 1 (RStarLazy RDot);
           RBackref 0; RStar RSpace; RLit #")"])
    2 false.

(** [javaPrintRegex]: [System\.out\.print(?:ln)?\s*\(\s*], a double
    quote, the captured run of characters other than a double quote, a
    double quote and [\s*\)]; [g] flag. *)
Definition javaPrintRegex : pattern :=
  Pattern
    (rseq [RLit #"System.out.print"; ROpt (RLit #"ln"); RStar RSpace; RLit #"(";
           RStar RSpace; RLit [dq]; RGroup 0 (RStar (RSet true [CChar dq])); RLit [dq];
           RStar RSpace; RLit #")"])
    1 false.

(** [goPrintRegex]: [fmt\.P(?:rint|rintln|rintf)\s*\(\s*], a double
    quote, the captured run of characters other than a double quote and a
    double quote; [g] flag. *)
Definition goPrintRegex : pattern :=
  Pattern
    (rseq [RLit #"fmt.P"; ralt (RLit #"rint") [RLit #"rintln"; RLit #"rintf"];
           RStar RSpace; RLit #"("; RStar RSpace; RLit [dq];
           RGroup 0 (RStar (RSet true [CChar dq])); RLit [dq]])
    1 false.

(** The pattern of one double quote, with the [g] flag. *)
Definition quoteRegex : pattern := Pattern (rseq [RLit [dq]]) 0 false.

Definition addLog (msg : str) : str :=
  q"console.log(~" ++ replace_all quoteRegex [bs; dq] msg ++ q"~);".

Definition simulateNativeLanguage (file : GeneratedFile) : str :=
  if test cppExtRegex (name file) then transpileCppToJs (content file)
  else
    let content := content file in
    let logs :=
      if Str.endsWith #".py" (name file) then
        map (fun m => addLog (group_str m 1)) (exec_all printRegex content)
      else if Str.endsWith #".java" (name file) then
        map (fun m => addLog (group_str m 0)) (exec_all javaPrintRegex content)
      else if Str.endsWith #".go" (name file) then
        map (fun m => addLog (group_str m 0)) (exec_all goPrintRegex content)
      else [addLog (#"[System] Compiled " ++ name file ++ #" successfully.")] in
    Str.join nl logs.

(** *** assemblePreview: file selection *)

(** [/\.(js|jsx|ts|tsx)$/] *)
Definition jsExtRegex : pattern :=
  Pattern
    (rseq [RLit #"."; RGroup 0 (ralt (RLit #"js") [RLit #"jsx"; RLit #"ts"; RLit #"tsx"]); REol])
    1 false.

(** [/\.(cpp|c|py|java|rs|go|php)$/i] *)
Definition nativeExtRegex : pattern :=
  Pattern
    (rseq [RLit #".";
           RGroup 0 (ralt (RLit #"cpp")
                       [RLit #"c"; RLit #"py"; RLit #"java"; RLit #"rs"; RLit #"go"; RLit #"php"]);
           REol])
    1 true.

Definition isPreviewHtml (f : GeneratedFile) : bool :=
  Str.eqb (Str.toLowerCase (name f)) #"preview.html".

Definition isHtml (f : GeneratedFile) : bool :=
  Str.endsWith #".html" (name f) && negb (Str.eqb (name f) #"preview.html").

Definition isCss (f : GeneratedFile) : bool := Str.endsWith #".css" (name f).

Definition isJs (f : GeneratedFile) : bool := test jsExtRegex (name f).

Definition isNativeFile (f : GeneratedFile) : bool := test nativeExtRegex (name f).

Definition isLiquid (f : GeneratedFile) : bool := Str.endsWith #".liquid" (name f).

(** The callback of [jsFiles.some] that sets [isReact]. *)
Definition hasReactSignature (f : GeneratedFile) : bool :=
  Str.includes #"import React" (content f)
  || Str.includes #"react-dom" (content f)
  || Str.includes (q"from ~react~") (content f)
  || Str.includes #"from 'react'" (content f).

Definition consoleHook : str :=
  q"
<script>
  (function() {
    function send(type, args) {
      try {
        const message = args.map(arg => {
          if (arg === null) return 'null';
          if (arg === undefined) return 'undefined';
          if (typeof arg === 'object') {
            try { return JSON.stringify(arg, null, 2); } catch(e) { return arg.toString(); }
          }
          return String(arg);
        }).join(' ');
        window.parent.postMessage({ source: 'PREVIEW_CONSOLE', type, message }, '*');
      } catch (e) {
        console.error('Failed to send console log', e);
      }
    }

    const originalLog = console.log;
    const originalError = console.error;
    const originalWarn = console.warn;
    const originalInfo = console.info;

    console.log = function(...args) { originalLog.apply(console, args); send('log', args); };
    console.error = function(...args) { originalError.apply(console, args); send('error', args); };
    console.warn = function(...args) { originalWarn.apply(console, args); send('warn', args); };
    console.info = function(...args) { originalInfo.apply(console, args); send('info', args); };
    
    // Global Error Handler for Preview
    window.onerror = function(message, source, lineno, colno, error) {
       send('error', [message]);
       
       // Display error on screen if root is empty (likely a crash before render)
       const root = document.getElementById('root');
       if (root && root.innerHTML.trim() === '') {
         root.innerHTML = '<div style=~color: #f87171; background: #450a0a; padding: 20px; font-family: system-ui, sans-serif; border-radius: 8px; margin: 20px; border: 1px solid #7f1d1d;~>' +
           '<h3 style=~margin-top:0~>Preview Error</h3>' +
           '<pre style=~white-space: pre-wrap;~>' + message + '</pre>' +
           '<p style=~opacity: 0.8; font-size: 0.9em; margin-top: 10px;~>Check console for details.</p>' +
         '</div>';
       }
       return false;
    };

    // Unhandled Rejection Handler
    window.addEventListener('unhandledrejection', function(event) {
       send('error', ['Unhandled Promise Rejection: ' + event.reason]);
    });
  })();
</script>".

(** The document returned under [isNative && nativeFile]. *)
Definition nativeDocument (nativeFile : GeneratedFile) : str :=
  let simulationScript := simulateNativeLanguage nativeFile in
  q"
<!DOCTYPE html>
<html>
<head>
  <meta charset=~utf-8~>
  " ++
  consoleHook ++
  #"
  <style>body { background-color: #0f172a; color: #f8fafc; font-family: monospace; padding: 20px; }</style>
</head>
<body>
  <script>
    setTimeout(() => {
      " ++
  simulationScript ++
  #"
    }, 500);
  </script>
</body>
</html>".

(** *** assemblePreview: Liquid fallback *)

(** [/{% schema %}[\s\S]*?{% endschema %}/g] *)
Definition schemaRegex : pattern :=
  Pattern (rseq [RLit #"{% schema %}"; RStarLazy RAny; RLit #"{% endschema %}"]) 0 false.

(** [/{% stylesheet %}([\s\S]*?){% endstylesheet %}/] *)
Definition stylesheetRegex : pattern :=
  Pattern
    (rseq [RLit #"{% stylesheet %}"; RGroup 0 (RStarLazy RAny); RLit #"{% endstylesheet %}"])
    1 false.

(** [/{% stylesheet %}[\s\S]*?{% endstylesheet %}/g] *)
Definition stylesheetBlockRegex : pattern :=
  Pattern (rseq [RLit #"{% stylesheet %}"; RStarLazy RAny; RLit #"{% endstylesheet %}"]) 0 false.

(** [/{% javascript %}([\s\S]*?){% endjavascript %}/] *)
Definition javascriptRegex : pattern :=
  Pattern
    (rseq [RLit #"{% javascript %}"; RGroup 0 (RStarLazy RAny); RLit #"{% endjavascript %}"])
    1 false.

(** [/{% javascript %}[\s\S]*?{% endjavascript %}/g] *)
Definition javascriptBlockRegex : pattern :=
  Pattern (rseq [RLit #"{% javascript %}"; RStarLazy RAny; RLit #"{% endjavascript %}"]) 0 false.

(** [[^}]] *)
Definition notBrace : regex := RSet true [CChar "}"].

(** [/\{\{\s*section\.settings\.[^}]*img_url[^}]*\}\}/g] *)
Definition sectionImageRegex : pattern :=
  Pattern
    (rseq [RLit #"{{"; RStar RSpace; RLit #"section.settings."; RStar notBrace;
           RLit #"img_url"; RStar notBrace; RLit #"}}"])
    0 false.

(** [/\{\{\s*[^}]*\|\s*img_url[^}]*\}\}/g] *)
Definition imageFilterRegex : pattern :=
  Pattern
    (rseq [RLit #"{{"; RStar RSpace; RStar notBrace; RLit #"|"; RStar RSpace;
           RLit #"img_url"; RStar notBrace; RLit #"}}"])
    0 false.

(** [/\{\{\s*section\.settings\.([^}]+)\s*\}\}/g] *)
Definition settingRegex : pattern :=
  Pattern
    (rseq [RLit #"{{"; RStar RSpace; RLit #"section.settings."; RGroup 0 (RPlus notBrace);
           RStar RSpace; RLit #"}}"])
    1 false.

(** [/\{\{\s*([^}]+)\s*\}\}/g] *)
Definition expressionRegex : pattern :=
  Pattern
    (rseq [RLit #"{{"; RStar RSpace; RGroup 0 (RPlus notBrace); RStar RSpace; RLit #"}}"])
    1 false.

(** [/{%[^%]*%}/g] *)
Definition logicTagRegex : pattern :=
  Pattern (rseq [RLit #"{%"; RStar (RSet true [CChar "%"]); RLit #"%}"]) 0 false.

(** The [liquidFile && !isReact] branch: the document and the style
    sheet text it appends to [css]. *)
Definition liquidDocument (liquidFile : GeneratedFile) (css : str) : str * str :=
  let liquidContent := content liquidFile in
  let liquidContent := replace_all schemaRegex [] liquidContent in
  let styleMatch := exec stylesheetRegex liquidContent in
  let css :=
    match styleMatch with
    | Some m => css ++ nl ++ #"/* Liquid Stylesheet */" ++ nl ++ group_str m 0
    | None => css
    end in
  let liquidContent :=
    match styleMatch with
    | Some _ => replace_all stylesheetBlockRegex [] liquidContent
    | None => liquidContent
    end in
  let jsMatch := exec javascriptRegex liquidContent in
  let liquidJs := match jsMatch with Some m => group_str m 0 | None => [] end in
  let liquidContent :=
    match jsMatch with
    | Some _ => replace_all javascriptBlockRegex [] liquidContent
    | None => liquidContent
    end in
  let liquidContent :=
    replace_all sectionImageRegex #"https://placehold.co/600x400?text=Section+Image" liquidContent in
  let liquidContent :=
    replace_all imageFilterRegex #"https://placehold.co/600x400?text=Image" liquidContent in
  let liquidContent :=
    replace_all settingRegex (q"<span data-liquid=~$1~>[Setting: $1]</span>") liquidContent in
  let liquidContent := replace_all expressionRegex #"<!-- $1 -->" liquidContent in
  let liquidContent := replace_all logicTagRegex [] liquidContent in
  (q"
<!DOCTYPE html>
<html lang=~en~>
<head>
  <meta charset=~UTF-8~>
  <meta name=~viewport~ content=~width=device-width, initial-scale=1.0~>
  <title>Liquid Preview</title>
  <style>
    body, html { 
      background-color: #ffffff; 
      color: #1e293b; 
      margin: 0; 
      padding: 0;
      height: 100%;
      width: 100%;
      font-family: system-ui, -apple-system, sans-serif; 
    }
  </style>
</head>
<body>
  " ++
  liquidContent ++
  #"
  <script>" ++
  liquidJs ++
  #"</script>
</body>
</html>",
   css).

(** The synthesized document with an empty root element. *)
Definition emptyDocument : str :=
  q"
<!DOCTYPE html>
<html lang=~en~>
<head>
  <meta charset=~UTF-8~>
  <meta name=~viewport~ content=~width=device-width, initial-scale=1.0~>
  <title>Preview</title>
  <style>
    body, html { 
      background-color: #ffffff; 
      color: #1e293b; 
      margin: 0; 
      padding: 0;
      height: 100%;
      width: 100%;
      font-family: system-ui, -apple-system, sans-serif; 
    }
    #root { 
      min-height: 100%; 
      display: flex;
      flex-direction: column;
    }
  </style>
</head>
<body>
  <div id=~root~></div>
</body>
</html>".

(** *** assemblePreview: React assembly *)

Definition importMap : list (str * str) :=
  [(#"react", #"https://esm.sh/react@18.2.0");
   (#"react-dom", #"https://esm.sh/react-dom@18.2.0");
   (#"react-dom/client", #"https://esm.sh/react-dom@18.2.0/client");
   (#"clsx", #"https://esm.sh/clsx");
   (#"tailwind-merge", #"https://esm.sh/tailwind-merge");
   (#"date-fns", #"https://esm.sh/date-fns");
   (#"lodash", #"https://esm.sh/lodash");
   (#"axios", #"https://esm.sh/axios");
   (#"uuid", #"https://esm.sh/uuid");
   (#"framer-motion", #"https://esm.sh/framer-motion@10.16.4");
   (#"lucide-react", #"https://esm.sh/lucide-react@0.263.1");
   (#"recharts", #"https://esm.sh/recharts@2.10.3");
   (#"react-icons", #"https://esm.sh/react-icons@4.10.1");
   (#"react-icons/fa", #"https://esm.sh/react-icons@4.10.1/fa");
   (#"react-icons/md", #"https://esm.sh/react-icons@4.10.1/md");
   (#"react-icons/fi", #"https://esm.sh/react-icons@4.10.1/fi");
   (#"react-icons/bi", #"https://esm.sh/react-icons@4.10.1/bi");
   (#"react-icons/ai", #"https://esm.sh/react-icons@4.10.1/ai");
   (#"react-icons/bs", #"https://esm.sh/react-icons@4.10.1/bs");
   (#"react-slick", #"https://esm.sh/react-slick@0.29.0");
   (#"slick-carousel", #"https://esm.sh/slick-carousel@1.8.1");
   (#"swiper", #"https://esm.sh/swiper@10.0.0");
   (#"swiper/react", #"https://esm.sh/swiper@10.0.0/react");
   (#"swiper/css", #"https://esm.sh/swiper@10.0.0/css");
   (#"react-markdown", #"https://esm.sh/react-markdown@9.0.0");
   (#"three", #"https://esm.sh/three@0.154.0");
   (#"@react-three/fiber", #"https://esm.sh/@react-three/fiber@8.13.0");
   (#"@react-three/drei", #"https://esm.sh/@react-three/drei@9.77.0")].

(** [JSON.stringify(importMap)]: no key or value needs an escape. *)
Definition importMapJson : str :=
  q"{~imports~:{" ++
  Str.join #"," (map (fun kv => [dq] ++ fst kv ++ [dq] ++ #":" ++ [dq] ++ snd kv ++ [dq]) importMap) ++
  #"}}".

Definition babelScript : str :=
  q"<script src=~https://unpkg.com/@babel/standalone/babel.min.js~></script>".

Definition importMapScript : str :=
  q"<script type=~importmap~>" ++ importMapJson ++ #"</script>".

Definition tailwindScript (html : str) : str :=
  if negb (Str.includes #"cdn.tailwindcss.com" html)
  then q"<script src=~https://cdn.tailwindcss.com~></script>" else [].

Definition hasSlick (f : GeneratedFile) : bool := Str.includes #"slick" (content f).

Definition externalCss (slick : bool) : str :=
  if slick then
    q"<link rel=~stylesheet~ type=~text/css~ charset=~UTF-8~ href=~https://cdnjs.cloudflare.com/ajax/libs/slick-carousel/1.6.0/slick.min.css~ /> " ++ nl ++
    q"<link rel=~stylesheet~ type=~text/css~ href=~https://cdnjs.cloudflare.com/ajax/libs/slick-carousel/1.6.0/slick-theme.min.css~ /> " ++ nl
  else [].

(** [/index\.(js|jsx|ts|tsx)$/i], [/main\.(js|jsx|ts|tsx)$/i],
    [/App\.(js|jsx|ts|tsx)$/i] and [/components?\//i] *)
Definition scriptNamed (base : str) : pattern :=
  Pattern
    (rseq [RLit base; RLit #".";
           RGroup 0 (ralt (RLit #"js") [RLit #"jsx"; RLit #"ts"; RLit #"tsx"]); REol])
    1 true.

Definition componentsRegex : pattern :=
  Pattern (rseq [RLit #"component"; ROpt (RLit #"s"); RLit #"/"]) 0 true.

Definition getScore (name : str) : nat :=
  if test (scriptNamed #"index") name then 100
  else if test (scriptNamed #"main") name then 100
  else if test (scriptNamed #"App") name then 50
  else if test componentsRegex name then 10
  else 0.

(** [Array.prototype.sort] with the comparator
    [getScore(a.name) - getScore(b.name)]: a stable sort by ascending
    score. *)
Fixpoint insertByScore (f : GeneratedFile) (l : list GeneratedFile) : list GeneratedFile :=
  match l with
  | [] => [f]
  | g :: l' =>
      if getScore (name f) <=? getScore (name g) then f :: l
      else g :: insertByScore f l'
  end.

Definition sortByScore (l : list GeneratedFile) : list GeneratedFile :=
  foldr insertByScore [] l.

(** [importRegex]: [import\s+(?:[\s\S]*?)\s+from\s+], a single or double
    quote, the lazily captured path [.*?], a single or double quote and an
    optional semicolon; [g] flag. *)
Definition quoteClass : regex := RSet false [CChar "'"; CChar dq].

Definition importRegex : pattern :=
  Pattern
    (rseq [RLit #"import"; RPlus RSpace; RStarLazy RAny; RPlus RSpace; RLit #"from";
           RPlus RSpace; quoteClass; RGroup 0 (RStarLazy RDot); quoteClass; ROpt (RLit #";")])
    1 false.

(** [sideEffectImportRegex]: [import\s+], a quote, the captured path, a
    quote and an optional semicolon; [g] flag. *)
Definition sideEffectImportRegex : pattern :=
  Pattern
    (rseq [RLit #"import"; RPlus RSpace; quoteClass; RGroup 0 (RStarLazy RDot); quoteClass;
           ROpt (RLit #";")])
    1 false.

(** [/export\s+default\s+/g] and [/export\s+/g] *)
Definition exportDefaultRegex : pattern :=
  Pattern (rseq [RLit #"export"; RPlus RSpace; RLit #"default"; RPlus RSpace]) 0 false.

Definition exportRegex : pattern :=
  Pattern (rseq [RLit #"export"; RPlus RSpace]) 0 false.

(** [externalImports.add(match)]: a [Set] keeps insertion order and
    ignores a value it already holds. *)
Definition setAdd (x : str) (set : list str) : list str :=
  if existsb (Str.eqb x) set then set else set ++ [x].

(** The replacer of both import patterns. *)
Definition importReplacer (externalImports : list str) (m : mtch) : list str * str :=
  let path := group_str m 0 in
  if Str.startsWith #"." path || Str.startsWith #"/" path
  then (externalImports, [])
  else (setAdd (matched m) externalImports, []).

(** The variables of the enclosing scope that the callback of
    [sortedJs.map] updates. *)
Record linkState := LinkState { externalImports : list str; entryPointExists : bool }.

(** The text of a script after import and export stripping, with the
    imports it adds to [externalImports]. *)
Definition stripModuleSyntax (externalImports : list str) (content : str) : list str * str :=
  let '(externalImports, content) :=
    replace_all_fold importRegex importReplacer externalImports content in
  let '(externalImports, content) :=
    replace_all_fold sideEffectImportRegex importReplacer externalImports content in
  let content := replace_all exportDefaultRegex [] content in
  let content := replace_all exportRegex [] content in
  (externalImports, content).

(** The callback of [sortedJs.map]. *)
Definition processJs (st : linkState) (f : GeneratedFile) : linkState * str :=
  let content := content f in
  let entry :=
    if Str.includes #"createRoot" content || Str.includes #"ReactDOM.render" content
    then true else entryPointExists st in
  let '(imports, content) := stripModuleSyntax (externalImports st) content in
  (LinkState imports entry, #"// --- " ++ name f ++ #" ---" ++ nl ++ content).

Fixpoint processAll (st : linkState) (l : list GeneratedFile) : linkState * list str :=
  match l with
  | [] => (st, [])
  | f :: l' =>
      let '(st1, part) := processJs st f in
      let '(st2, parts) := processAll st1 l' in
      (st2, part :: parts)
  end.

Definition processShim : str :=
  #"
      window.process = { 
        env: { NODE_ENV: 'development' } 
      };
    ".

Definition mountCall : str :=
  #"
         if (typeof App !== 'undefined') {
           const root = ReactDOM.createRoot(document.getElementById('root'));
           root.render(React.createElement(App));
         }
       ".

Definition declaresApp (p : str) : bool :=
  Str.includes #"function App" p || Str.includes #"class App" p || Str.includes #"const App" p.

Definition mountScript (st : linkState) (processedJsParts : list str) : str :=
  if negb (entryPointExists st) && existsb declaresApp processedJsParts
  then mountCall else [].

Definition appScript (combinedImports : str) (processedJsParts : list str) (mountScript : str) : str :=
  q"<script type=~text/babel~ data-type=~module~>
      " ++
  combinedImports ++
  #"
      " ++
  processShim ++
  #"
      
      // Error boundary wrapper for safety
      try {
        " ++
  Str.join (nl ++ nl) processedJsParts ++
  #"
        " ++
  mountScript ++
  q"
      } catch (err) {
        console.error(~Runtime Script Error:~, err);
        const root = document.getElementById('root');
        if (root) {
          root.innerHTML = '<div style=~color:red; padding:20px;~><h3>Script Error</h3><pre>' + err.message + '</pre></div>';
        }
      }
    </script>".

(** The result of linking the sorted scripts: [appScript]. *)
Definition linkScripts (sortedJs : list GeneratedFile) : str :=
  let '(st, processedJsParts) := processAll (LinkState [] false) sortedJs in
  let combinedImports := Str.join nl (externalImports st) in
  appScript combinedImports processedJsParts (mountScript st processedJsParts).

(** *** assemblePreview *)

(** The [isReact] branch of step 4, from the linked [appScript] on. *)
Definition reactDocument (html : str) (slick : bool) (appScript : str) : str :=
  let tailwindScript := tailwindScript html in
  let externalCss := externalCss slick in
  let headScripts :=
    consoleHook ++ nl ++ tailwindScript ++ nl ++ importMapScript ++ nl ++ externalCss in
  let html :=
    if Str.includes #"</head>" html
    then replaceStr #"</head>" (headScripts ++ nl ++ #"</head>") html
    else #"<head>" ++ headScripts ++ #"</head>" ++ html in
  let bodyScripts := babelScript ++ nl ++ appScript in
  if Str.includes #"</body>" html
  then replaceStr #"</body>" (bodyScripts ++ nl ++ #"</body>") html
  else html ++ bodyScripts.

(** The [isReact] branch of step 4. *)
Definition reactAssembly (html : str) (jsFiles : list GeneratedFile) : str :=
  let slick := existsb hasSlick jsFiles in
  let sortedJs := sortByScore jsFiles in
  reactDocument html slick (linkScripts sortedJs).

(** The vanilla branch of step 4: the console hook, then the scripts. *)
Definition injectHook (html : str) : str :=
  if Str.includes #"<head>" html
  then replaceStr #"<head>" (#"<head>" ++ consoleHook) html
  else consoleHook ++ html.

Definition injectScripts (html : str) (scripts : list str) : str :=
  let scriptContent := Str.join nl scripts in
  if Str.includes #"</body>" html
  then replaceStr #"</body>" (#"<script>" ++ scriptContent ++ #"</script></body>") html
  else html ++ #"<script>" ++ scriptContent ++ #"</script>".

Definition vanillaAssembly (html : str) (jsFiles : list GeneratedFile) : str :=
  let html := injectHook html in
  match jsFiles with
  | [] => html
  | _ :: _ => injectScripts html (map content jsFiles)
  end.

(** The text of one style sheet in [css]. *)
Definition cssPart (f : GeneratedFile) : str :=
  #"/* " ++ name f ++ #" */" ++ nl ++ content f.

(** Step 3 and the CSS injection: the base document. *)
Definition baseDocument (previewHtmlFile htmlFile liquidFile : option GeneratedFile)
    (isReact : bool) (cssParts : list str) : str :=
  let css := Str.join nl cssParts in
  let '(html, css) :=
    match previewHtmlFile, htmlFile, liquidFile with
    | Some f, _, _ => (content f, css)
    | None, Some f, _ => (content f, css)
    | None, None, Some f => if isReact then (emptyDocument, css) else liquidDocument f css
    | None, None, None => (emptyDocument, css)
    end in
  match css with
  | [] => html
  | _ :: _ =>
      if Str.includes #"</head>" html
      then replaceStr #"</head>" (#"<style>" ++ css ++ #"</style></head>") html
      else replaceStr #"<body>" (#"<head><style>" ++ css ++ #"</style></head><body>") html
  end.

(** The probes of the selection step. *)
Definition isNative (files : list GeneratedFile) : bool :=
  match List.find isPreviewHtml files, List.find isHtml files,
        List.filter isJs files, List.find isNativeFile files with
  | None, None, [], Some _ => true
  | _, _, _, _ => false
  end.

Definition isReact (files : list GeneratedFile) : bool :=
  existsb hasReactSignature (List.filter isJs files).

Definition assemblePreview (files : list GeneratedFile) : str :=
  let previewHtmlFile := List.find isPreviewHtml files in
  let htmlFile := List.find isHtml files in
  let cssFiles := List.filter isCss files in
  let jsFiles := List.filter isJs files in
  let nativeFile := List.find isNativeFile files in
  let liquidFile := List.find isLiquid files in
  match isNative files, nativeFile with
  | true, Some nativeFile => nativeDocument nativeFile
  | _, _ =>
      let html :=
        baseDocument previewHtmlFile htmlFile liquidFile (isReact files) (map cssPart cssFiles) in
      if isReact files then reactAssembly html jsFiles else vanillaAssembly html jsFiles
  end.

(** *** Classification

    The source has no function that returns a project kind: the kind is
    the assembly strategy that [assemblePreview] takes. *)
Inductive ProjectKind := native | templating | framework | plain.

Definition classify (files : list GeneratedFile) : ProjectKind :=
  if isNative files then native
  else if isReact files then framework
  else
    match List.find isPreviewHtml files, List.find isHtml files, List.find isLiquid files with
    | None, None, Some _ => templating
    | _, _, _ => plain
    end.

(** The precedence as the specification words it: a style sheet counts
    among the files that rule out [native], and a templating artifact
    alone decides [templating]. *)
Definition classify_spec (files : list GeneratedFile) : ProjectKind :=
  let markup := existsb (fun f => Str.endsWith #".html" (name f)) files in
  let family := existsb (fun f => isJs f || isCss f || Str.endsWith #".html" (name f)) files in
  let preview := existsb isPreviewHtml files in
  let nonBrowser := existsb isNativeFile files in
  if negb markup && negb family && negb preview && nonBrowser then native
  else if existsb hasReactSignature (List.filter isJs files) then framework
  else if existsb isLiquid files then templating
  else plain.

(** *** Mount synthesis *)

(** An explicit root-mount call, as [processJs] looks for it. *)
Definition hasMountCall (f : GeneratedFile) : bool :=
  Str.includes #"createRoot" (content f) || Str.includes #"ReactDOM.render" (content f).

(** The statement that [assemblePreview] synthesizes for [files]. *)
Definition synthesizedMount (files : list GeneratedFile) : str :=
  let '(st, processedJsParts) :=
    processAll (LinkState [] false) (sortByScore (List.filter isJs files)) in
  mountScript st processedJsParts.

(** The claim on mount synthesis as the specification states it, over
    every artifact of the set. *)
Definition mountClaim (files : list GeneratedFile) : Prop :=
  isReact files = true ->
  ((forall f, f ∈ files -> hasMountCall f = false) ->
   (exists f, f ∈ files /\ declaresApp (content f) = true) ->
   synthesizedMount files = mountCall)
  /\ ((exists f, f ∈ files /\ hasMountCall f = true) -> synthesizedMount files = []).

(** *** Sample artifacts *)

(** The output statement of the simulation example and the console write
    it becomes. *)
Definition coutHi : str := q"cout << ~Hi~ << endl;".
Definition logHi : str := q"console.log(~Hi~, ~\n~);".

Definition helloCpp : GeneratedFile :=
  mkFile #"main.cpp" #"cpp"
    (#"#include <iostream>" ++ nl ++ #"using namespace std;" ++ nl ++ nl ++
     #"int main() {" ++ nl ++ #"    " ++ coutHi ++ nl ++ #"    return 0;" ++ nl ++
     #"}" ++ nl).

(** A component whose style sheet import comes first. *)
Definition appWithStyles : GeneratedFile :=
  mkFile #"App.jsx" #"jsx"
    (#"import './styles.css';" ++ nl ++ #"import React from 'react';" ++ nl ++
     #"function App() { return null; }" ++ nl ++ #"export default App;").

(** A page that mounts the application itself, and the component. *)
Definition mountingPage : GeneratedFile :=
  mkFile #"index.html" #"html"
    (q"<div id=~root~></div><script type=~module~>" ++
     #"ReactDOM.createRoot(document.getElementById('root'));</script>").

Definition appComponent : GeneratedFile :=
  mkFile #"App.jsx" #"jsx"
    (#"import React from 'react';" ++ nl ++ #"function App() { return null; }").

(** A component without module syntax, and an entry script. *)
Definition plainApp : GeneratedFile :=
  mkFile #"App.js" #"js" #"function App() { return null; }".

Definition reactEntry : GeneratedFile :=
  mkFile #"index.js" #"js" #"import React from 'react';".

End Compiler.

(** ** Arrays in a store

    [assemblePreview] once more, with the arrays it handles kept in a
    store: [files.filter] allocates a new array and [jsFiles.sort] writes
    the array it is called on.  An artifact is never assigned to, so the
    elements of an array are kept as values. *)

Module Heap.
Import Compiler.

Abbreviation loc := nat.

Definition M (A : Type) : Type := gmap nat (list GeneratedFile) -> A * gmap nat (list GeneratedFile).

#[export] Instance M_ret : MRet M := fun A a σ => (a, σ).
#[export] Instance M_bind : MBind M := fun A B f m σ => let '(a, σ1) := m σ in f a σ1.

Definition read (l : loc) : M (list GeneratedFile) := fun σ => (default [] (σ !! l), σ).

Definition alloc (v : list GeneratedFile) : M loc :=
  fun σ => let l := fresh (dom σ) in (l, <[l := v]> σ).

Definition write (l : loc) (v : list GeneratedFile) : M unit := fun σ => (tt, <[l := v]> σ).

(** [a.find(p)], [a.filter(p)], [a.some(p)], [a.length], [a.map(f)] and
    [a.sort(cmp)] with the comparator of [assemblePreview]. *)
Definition arr_find (p : GeneratedFile -> bool) (a : loc) : M (option GeneratedFile) :=
  v ← read a; mret (List.find p v).

Definition arr_filter (p : GeneratedFile -> bool) (a : loc) : M loc :=
  v ← read a; alloc (List.filter p v).

Definition arr_some (p : GeneratedFile -> bool) (a : loc) : M bool :=
  v ← read a; mret (existsb p v).

Definition arr_length (a : loc) : M nat :=
  v ← read a; mret (length v).

Definition arr_map {B : Type} (f : GeneratedFile -> B) (a : loc) : M (list B) :=
  v ← read a; mret (map f v).

Definition arr_sort (a : loc) : M loc :=
  v ← read a; write a (sortByScore v);; mret a.

(** [sortedJs.map] with the callback that updates [externalImports] and
    [entryPointExists]. *)
Definition arr_process (a : loc) : M (linkState * list str) :=
  v ← read a; mret (processAll (LinkState [] false) v).

Definition assemblePreviewM (files : loc) : M str :=
  previewHtmlFile ← arr_find isPreviewHtml files;
  htmlFile ← arr_find isHtml files;
  cssFiles ← arr_filter isCss files;
  jsFiles ← arr_filter isJs files;
  nativeFile ← arr_find isNativeFile files;
  liquidFile ← arr_find isLiquid files;
  jsLength ← arr_length jsFiles;
  let isNative :=
    match previewHtmlFile, htmlFile, jsLength, nativeFile with
    | None, None, 0, Some _ => true
    | _, _, _, _ => false
    end in
  isReact ← arr_some hasReactSignature jsFiles;
  match isNative, nativeFile with
  | true, Some nativeFile => mret (nativeDocument nativeFile)
  | _, _ =>
      cssParts ← arr_map cssPart cssFiles;
      let html := baseDocument previewHtmlFile htmlFile liquidFile isReact cssParts in
      if isReact then
        slick ← arr_some hasSlick jsFiles;
        sortedJs ← arr_sort jsFiles;
        linked ← arr_process sortedJs;
        let '(st, processedJsParts) := linked in
        let combinedImports := Str.join nl (externalImports st) in
        mret (reactDocument html slick
                (appScript combinedImports processedJsParts (mountScript st processedJsParts)))
      else
        let html := injectHook html in
        match jsLength with
        | 0 => mret html
        | S _ =>
            scripts ← arr_map content jsFiles;
            mret (injectScripts html scripts)
        end
  end.

(** Every array of [σ] is in [σ1] as it was. *)
Definition preserves (σ σ1 : gmap nat (list GeneratedFile)) : Prop :=
  forall l v, σ !! l = Some v -> σ1 !! l = Some v.

End Heap.

(** ** services/geminiService: what is computed around the requests

    The requests themselves are not modelled: a function of the service
    is given the text of a response, which may be [undefined] ([None]). *)

Module Service.
Import Parser Format.

(** [base64String.split(',')[1]] in [fileToGenerativePart] *)
Definition base64Data (base64String : str) : option str :=
  Str.split #"," base64String !! 1.

(** The text that [editCode] and [fixCode] add to [fileContext] for one
    file, and [fileContext] after the loop over [originalFiles]. *)
Definition fileEntry (file : GeneratedFile) : str :=
  nl ++ #"***FILE_START: " ++ name file ++ #"***" ++ nl ++ content file ++ nl ++
  #"***FILE_END***" ++ nl.

Definition fileContext (originalFiles : list GeneratedFile) : str :=
  foldl (fun fileContext file => fileContext ++ fileEntry file) [] originalFiles.

(** [text || dflt] for a text that may be [undefined] *)
Definition textOr (text : option str) (dflt : str) : str :=
  match text with
  | None | Some [] => dflt
  | Some t => t
  end.

(** What [generateCode], [editCode] and [fixCode] return for the text of
    a response; [dflt] is the text that stands for an empty response. *)
Definition parsedResponse (dflt : str) (text : option str) : str * list GeneratedFile :=
  let fullText := textOr text dflt in
  (fullText, parseGeneratedContent fullText).

(** [response.text?.trim() || selectedText] in [editPartialCode] *)
Definition editPartialCode (text : option str) (selectedText : str) : str :=
  textOr (Str.trim <$> text) selectedText.

(** The blocks of [fileContext] in the terms of the delimited-file
    format: a space before the name, the content between two line feeds,
    and the line feeds between two blocks. *)
Fixpoint contextBlocks (files : list GeneratedFile) : list block :=
  match files with
  | [] => []
  | [f] => [Block #" " (name f) [] (nl ++ content f ++ nl) nl]
  | f :: fs => Block #" " (name f) [] (nl ++ content f ++ nl) (nl ++ nl) :: contextBlocks fs
  end.

End Service.

(** ** App.tsx: the state of the application and its handlers

    The state variables of the component [App] are the fields of a record.
    A handler is a function of two states: [r], the state of the render
    whose closure the handler is, and [s], the state that its updates are
    applied to; the updates that a handler queues before it returns or
    awaits are applied together.  For a handler that runs on a user event
    [r] and [s] are the same state; the part of an asynchronous handler
    that runs after its [await] still reads [r].  A variable that holds
    [undefined] is [None]. *)

Module App.
Import Parser.

Inductive AppMode := FAST | THINKING | RESEARCH | VISION | COMPILER.

Record GenerationState := GenState {
  isGenerating : bool;
  statusMessage : str;
  error : option str
}.

Record state := State {
  mode : AppMode;
  generatedFiles : option (list GeneratedFile);
  explanation : str;
  groundingUrls : list str;
  history : list (list GeneratedFile);
  historyIndex : Z;
  genState : GenerationState
}.

Definition initial : state :=
  State FAST (Some []) [] [] [] (-1) (GenState false [] None).

Definition setMode (v : AppMode) (s : state) : state :=
  State v (generatedFiles s) (explanation s) (groundingUrls s) (history s) (historyIndex s)
    (genState s).

Definition setGeneratedFiles (v : option (list GeneratedFile)) (s : state) : state :=
  State (mode s) v (explanation s) (groundingUrls s) (history s) (historyIndex s) (genState s).

Definition setExplanation (v : str) (s : state) : state :=
  State (mode s) (generatedFiles s) v (groundingUrls s) (history s) (historyIndex s) (genState s).

Definition setGroundingUrls (v : list str) (s : state) : state :=
  State (mode s) (generatedFiles s) (explanation s) v (history s) (historyIndex s) (genState s).

Definition setHistory (v : list (list GeneratedFile)) (s : state) : state :=
  State (mode s) (generatedFiles s) (explanation s) (groundingUrls s) v (historyIndex s)
    (genState s).

Definition setHistoryIndex (v : Z) (s : state) : state :=
  State (mode s) (generatedFiles s) (explanation s) (groundingUrls s) (history s) v (genState s).

Definition setGenState (v : GenerationState) (s : state) : state :=
  State (mode s) (generatedFiles s) (explanation s) (groundingUrls s) (history s)
    (historyIndex s) v.

(** [a.slice(0, e)]: a negative [e] counts from the end. *)
Definition slice0 {A} (e : Z) (a : list A) : list A :=
  let len := Z.of_nat (length a) in
  let k := if (e <? 0)%Z then Z.max (len + e) 0 else Z.min e len in
  take (Z.to_nat k) a.

(** [a[i]] *)
Definition entry {A} (a : list A) (i : Z) : option A :=
  if (i <? 0)%Z then None else a !! Z.to_nat i.

Definition pushToHistory (r : state) (newFiles : list GeneratedFile) (s : state) : state :=
  let newHistory := slice0 (historyIndex r + 1) (history r) ++ [newFiles] in
  setGeneratedFiles (Some newFiles)
    (setHistoryIndex (Z.of_nat (length newHistory) - 1) (setHistory newHistory s)).

Definition handleUndo (r s : state) : state :=
  if (0 <? historyIndex r)%Z then
    let newIndex := (historyIndex r - 1)%Z in
    setGeneratedFiles (entry (history r) newIndex) (setHistoryIndex newIndex s)
  else s.

Definition handleRedo (r s : state) : state :=
  if (historyIndex r <? Z.of_nat (length (history r)) - 1)%Z then
    let newIndex := (historyIndex r + 1)%Z in
    setGeneratedFiles (entry (history r) newIndex) (setHistoryIndex newIndex s)
  else s.

Definition handleUpdateFiles (r : state) (newFiles : list GeneratedFile) (s : state) : state :=
  pushToHistory r newFiles s.

Definition handleModeChange (newMode : AppMode) (s : state) : state := setMode newMode s.

Definition handleImageChange (hasImage : bool) (s : state) : state :=
  if hasImage then setMode VISION s else setMode FAST s.

(** [canUndo] and [canRedo], the properties handed to the viewer. *)
Definition canUndo (s : state) : bool := (0 <? historyIndex s)%Z.

Definition canRedo (s : state) : bool :=
  (historyIndex s <? Z.of_nat (length (history s)) - 1)%Z.

Definition idle : GenerationState := GenState false [] None.

(** What a request to the model comes back with: the rejection of the
    promise, with the message of the error if it has one, or the result
    of the service. *)
Inductive outcome (A : Type) :=
  | Rejected (message : option str)
  | Resolved (result : A).
Arguments Rejected {A} message.
Arguments Resolved {A} result.

(** [err.message || dflt] *)
Definition messageOr (message : option str) (dflt : str) : str :=
  match message with
  | None | Some [] => dflt
  | Some m => m
  end.

(** The [catch] clause of a handler. *)
Definition requestFailed (dflt : str) (message : option str) (s : state) : state :=
  setGenState (GenState false [] (Some (messageOr message dflt))) s.

(** [handleGenerate] up to its [await]. *)
Definition generateBegin (apiKey : str) (image : bool) (r s : state) : state :=
  match apiKey with
  | [] => setGenState (GenState false [] (Some #"API Key not found in environment.")) s
  | _ :: _ =>
      let s := setGenState (GenState true #"Initializing AI..." None) s in
      let s := setGeneratedFiles (Some []) s in
      let s := setExplanation [] s in
      let s := setGroundingUrls [] s in
      let status :=
        match mode r, image with
        | THINKING, false => #"Thinking deeply about architecture..."
        | RESEARCH, false => #"Searching documentation..."
        | _, true => #"Analyzing visual input..."
        | _, false => #"Generating code..."
        end in
      setGenState (GenState true status None) s
  end.

(** [handleGenerate] after its [await]. *)
Definition generateEnd (o : outcome (str * list GeneratedFile * list str)) (s : state) : state :=
  match o with
  | Resolved (text, files, urls) =>
      let s := setGeneratedFiles (Some files) s in
      let s := setExplanation (cleanResponseText text) s in
      let s := setGroundingUrls urls s in
      let s := setHistory [files] s in
      let s := setHistoryIndex 0 s in
      setGenState idle s
  | Rejected message => requestFailed #"An unexpected error occurred." message s
  end.

(** [handleAiEdit], [handleAiFix] and [handleAiPartialEdit] up to their
    [await]; [status] is the message shown meanwhile. *)
Definition requestBegin (status : str) (apiKey : str) (s : state) : state :=
  match apiKey with
  | [] => setGenState (GenState false [] (Some #"API Key not found.")) s
  | _ :: _ => setGenState (GenState true status None) s
  end.

Definition aiEditBegin := requestBegin #"Refactoring code...".
Definition aiFixBegin := requestBegin #"Debugging & Fixing...".
Definition partialEditBegin := requestBegin #"Editing selection...".

(** [handleAiEdit] and [handleAiFix] after their [await]; [label] is the
    heading put before the summary and [dflt] the message of a failure
    without one. *)
Definition revisionEnd (label dflt : str) (r : state) (o : outcome (str * list GeneratedFile))
    (s : state) : state :=
  match o with
  | Resolved (text, files) =>
      let s := pushToHistory r files s in
      let summary := cleanResponseText text in
      let s :=
        match summary with
        | [] => s
        | _ :: _ =>
            setExplanation (label ++ #" " ++ summary ++ nl ++ nl ++ #"---" ++ nl ++ nl ++
                            explanation s) s
        end in
      setGenState idle s
  | Rejected message => requestFailed dflt message s
  end.

Definition aiEditEnd := revisionEnd #"**Update:**" #"Failed to edit code.".
Definition aiFixEnd := revisionEnd #"**Auto-Fix Report:**" #"Failed to fix code.".

(** [content.substring(0, startIndex) + replacementCode +
    content.substring(endIndex)] *)
Definition splice (content replacementCode : str) (startIndex endIndex : nat) : str :=
  take startIndex content ++ replacementCode ++ drop endIndex content.

(** [handleAiPartialEdit] after its [await], for the file [activeFile]
    that it has read at [fileIndex] before the request; reading the
    content of a file that does not exist throws before the request, which
    leads to [partialEditFailed] as a rejected request does. *)
Definition partialEditEnd (r : state) (fileIndex : nat) (activeFile : GeneratedFile)
    (startIndex endIndex : nat) (replacementCode : str) (s : state) : state :=
  let newContent := splice (content activeFile) replacementCode startIndex endIndex in
  let newFiles :=
    <[fileIndex := mkFile (name activeFile) (language activeFile) newContent]>
      (default [] (generatedFiles r)) in
  setGenState idle (pushToHistory r newFiles s).

Definition partialEditFailed := requestFailed #"Failed to edit selection.".

(** The states that the handlers lead to from the first render. *)
Inductive reachable : state -> Prop :=
  | reach_initial : reachable initial
  | reach_undo s : reachable s -> reachable (handleUndo s s)
  | reach_redo s : reachable s -> reachable (handleRedo s s)
  | reach_update s newFiles : reachable s -> reachable (handleUpdateFiles s newFiles s)
  | reach_mode s newMode : reachable s -> reachable (handleModeChange newMode s)
  | reach_image s hasImage : reachable s -> reachable (handleImageChange hasImage s)
  | reach_generate s apiKey image : reachable s -> reachable (generateBegin apiKey image s s)
  | reach_generated s o : reachable s -> reachable (generateEnd o s)
  | reach_edit s apiKey : reachable s -> reachable (aiEditBegin apiKey s)
  | reach_edited r s o : reachable r -> reachable s -> reachable (aiEditEnd r o s)
  | reach_fix s apiKey : reachable s -> reachable (aiFixBegin apiKey s)
  | reach_fixed r s o : reachable r -> reachable s -> reachable (aiFixEnd r o s)
  | reach_partial s apiKey : reachable s -> reachable (partialEditBegin apiKey s)
  | reach_partial_edited r s fileIndex activeFile startIndex endIndex replacementCode :
      reachable r -> reachable s ->
      default [] (generatedFiles r) !! fileIndex = Some activeFile ->
      reachable (partialEditEnd r fileIndex activeFile startIndex endIndex replacementCode s)
  | reach_partial_failed s message : reachable s -> reachable (partialEditFailed message s).

(** The files shown are the entry of the history at the current index. *)
Definition synced (s : state) : Prop :=
  exists files,
    generatedFiles s = Some files /\ entry (history s) (historyIndex s) = Some files.

(** The invariant of the history: the index is -1 or the index of an
    entry, and the files shown are defined; they are the entry at the
    index unless they are empty. *)
Definition shown (s : state) : Prop :=
  (-1 <= historyIndex s < Z.of_nat (length (history s)))%Z
  /\ exists files,
       generatedFiles s = Some files
       /\ (files = [] \/ entry (history s) (historyIndex s) = Some files).

End App.

(** ** components/FileViewer.tsx: the view that new files open on *)

Module Viewer.
Import Regex Compiler.

Inductive MainViewMode := ViewCode | ViewPreview.

(** [/\.(js|jsx|ts|tsx|css|liquid)$/] *)
Definition webExtRegex : pattern :=
  Pattern
    (rseq [RLit #".";
           RGroup 0 (ralt (RLit #"js")
                       [RLit #"jsx"; RLit #"ts"; RLit #"tsx"; RLit #"css"; RLit #"liquid"]);
           REol])
    1 false.

Definition isWebProject (files : list GeneratedFile) : bool :=
  existsb (fun f => Str.endsWith #".html" (name f) || test webExtRegex (name f)) files.

Definition isNativeProject (files : list GeneratedFile) : bool :=
  existsb (fun f => test nativeExtRegex (name f)) files.

(** The effect that runs when [files] changes, on the two pieces of state
    that it computes from them: the preview document and the main view.
    For an empty list both are left as they are. *)
Definition onFiles (files : list GeneratedFile) (previewHtml : str) (mainView : MainViewMode)
    : str * MainViewMode :=
  match files with
  | [] => (previewHtml, mainView)
  | _ :: _ =>
      let html := assemblePreview files in
      (html, if isWebProject files || isNativeProject files then ViewPreview else ViewCode)
  end.

End Viewer.

(** ** Texts and conditions that the facts are stated with *)

Module Shapes.
Import Regex Parser Compiler.

(** *** Replacement patterns *)

(** The characters that make a replacement pattern after a dollar sign
    when the pattern replaced is a string: [$$], [$&], [$`] and [$']. *)
Definition special (b : ascii) : bool :=
  Str.ceqb b "$" || Str.ceqb b "&" || Str.ceqb b "`" || Str.ceqb b "'".

(** A text that holds no replacement pattern: no dollar sign of it is
    followed by a special character. *)
Fixpoint inert (s : str) : bool :=
  match s with
  | [] => true
  | a :: t =>
      (negb (Str.ceqb a "$")
       || match t with b :: _ => negb (special b) | [] => true end)
      && inert t
  end.

(** The page that [baseDocument] starts from when one is given. *)
Definition page (previewHtmlFile htmlFile : option GeneratedFile) : option GeneratedFile :=
  match previewHtmlFile with Some f => Some f | None => htmlFile end.

(** *** Fences and their tags *)

Definition is_letter (a : ascii) : bool := Str.in_range 97 122 a || Str.in_range 65 90 a.

(** A character of a fence tag, [[a-zA-Z0-9_-]]. *)
Definition tagChar (a : ascii) : bool :=
  Str.in_range 97 122 a || Str.in_range 65 90 a || Str.is_digit a
  || Str.ceqb a "_" || Str.ceqb a "-".

(** The language and the default file name of the fallback strategy for
    the block number [n] with the tag [tag]. *)
Definition tagLanguage (tag : str) : str :=
  match tag with [] => #"text" | _ :: _ => tag end.

Definition defaultName (n : nat) (lang : str) : str :=
  #"file_" ++ decimal n ++ #"." ++
  (if Str.eqb lang #"typescript" || Str.eqb lang #"ts" then #"ts"
   else if Str.eqb lang #"javascript" || Str.eqb lang #"js" then #"js"
   else #"txt").

(** *** Patterns of file extensions *)

(** The alternation of the literals [e :: es], and the pattern of a dot,
    one of these literals and the end of the subject. *)
Definition lits (e : str) (es : list str) : regex := ralt (RLit e) (map RLit es).

Definition extPattern (e : str) (es : list str) : pattern :=
  Pattern (rseq [RLit #"."; RGroup 0 (lits e es); REol]) 1 false.

(** *** Output statements and messages *)

(** A message with a backslash put before each double quote. *)
Definition escapeQuotes (msg : str) : str :=
  flat_map (fun a => if Str.ceqb a dq then [bs; dq] else [a]) msg.

(** The operator of an output statement. *)
Definition SHL : str := #"<<".

(** An operand of an output statement as it is written between two [<<]:
    without white space at either end and without [<]. *)
Definition operand (p : str) : Prop :=
  Str.trim p = p /\ Forall (fun a => a <> "<"%char) p.

(** The argument that the rewriting of an output statement gives for an
    operand: the line-end sentinel becomes a newline string. *)
Definition jsPart (p : str) : str :=
  if Str.eqb p #"endl" then [dq; bs; "n"%char; dq] else p.

(** One output statement of a Python script, [print(], a quote, the
    message, the same quote and [)], and the text after it. *)
Record pyPrint := PyPrint { quote : ascii; message : str; rest_of : str }.

Definition renderPrint (st : pyPrint) : str :=
  #"print(" ++ [quote st] ++ message st ++ [quote st] ++ #")" ++ rest_of st.

Definition renderScript (intro : str) (sts : list pyPrint) : str :=
  intro ++ concat (map renderPrint sts).

(** The quote is one of the two quotes, the message holds neither the
    quote nor a line terminator, and the word print does not begin in the
    text after the statement. *)
Record wfPrint (st : pyPrint) : Prop := WfPrint {
  wf_quote : quote st = "'"%char \/ quote st = dq;
  wf_message :
    Forall (fun a => a <> quote st /\ Str.is_line_terminator a = false) (message st);
  wf_rest : Format.firstAt #"print" (rest_of st)
}.

(** *** Import statements *)

(** One import statement, [import], what is imported, [from], the path
    between two quotes and a semicolon, and the text after it. *)
Record importStmt := ImportStmt {
  imported : str;
  opening : ascii;
  path : str;
  closing : ascii;
  following : str
}.

Definition statement (st : importStmt) : str :=
  #"import " ++ imported st ++ #" from " ++ [opening st] ++ path st ++ [closing st] ++ #";".

Definition renderModule (intro : str) (sts : list importStmt) : str :=
  intro ++ concat (map (fun st => statement st ++ following st) sts).

(** What is left of a module without its import statements. *)
Definition remainder (intro : str) (sts : list importStmt) : str :=
  intro ++ concat (map following sts).

Definition isQuote (a : ascii) : bool := Str.ceqb a "'" || Str.ceqb a dq.

(** What is imported is written without white space, the quotes are
    quotes, and the path holds neither a quote nor a line terminator. *)
Record wfImport (st : importStmt) : Prop := WfImport {
  wf_imported : imported st <> [] /\ Forall (fun a => Str.is_space a = false) (imported st);
  wf_opening : isQuote (opening st) = true;
  wf_closing : isQuote (closing st) = true;
  wf_path :
    Forall (fun a => isQuote a = false /\ Str.is_line_terminator a = false) (path st)
}.

(** The collected imports after one more statement. *)
Definition collect (set : list str) (st : importStmt) : list str :=
  if Str.startsWith #"." (path st) || Str.startsWith #"/" (path st)
  then set else setAdd (statement st) set.

(** The collected imports are pairwise different and each begins with
    the word import. *)
Definition importSet (set : list str) : Prop :=
  NoDup set /\ Forall (fun i => Str.startsWith #"import" i = true) set.

(** *** Artifacts and scaffolds *)

(** The score that the scripts are sorted by. *)
Definition score (f : GeneratedFile) : nat := getScore (name f).

(** An artifact without its language. *)
Definition unlabelled (f : GeneratedFile) : GeneratedFile := mkFile (name f) [] (content f).

(** The scaffold of the Liquid fallback before and after the converted
    content, for a file without a javascript block. *)
Definition liquidOpen : str :=
  q"
<!DOCTYPE html>
<html lang=~en~>
<head>
  <meta charset=~UTF-8~>
  <meta name=~viewport~ content=~width=device-width, initial-scale=1.0~>
  <title>Liquid Preview</title>
  <style>
    body, html { 
      background-color: #ffffff; 
      color: #1e293b; 
      margin: 0; 
      padding: 0;
      height: 100%;
      width: 100%;
      font-family: system-ui, -apple-system, sans-serif; 
    }
  </style>
</head>
<body>
  ".

Definition liquidClose : str :=
  nl ++ #"  <script></script>" ++ nl ++ #"</body>" ++ nl ++ #"</html>".

End Shapes.

(** ** Texts with a line of their own

    What the facts about [transpileCppToJs] are stated with: the language
    of a pattern, texts in which a word stands on a line of its own, and
    an over-approximation of where in such a text the end of a match can
    be. *)

Module Lang.
Import Regex.

(** The texts that a pattern can match, whatever stands around them: an
    assertion matches the empty text and a back-reference any text. *)
Fixpoint accepts (ic : bool) (r : regex) (u : str) : Prop :=
  match r with
  | REmpty | RBol | REol | RWordB => u = []
  | RLit p => Forall2 (fun c a => char_eq ic c a = true) p u
  | RDot => exists a, u = [a] /\ Str.is_line_terminator a = false
  | RSet neg items => exists a, u = [a] /\ set_mem ic neg items a = true
  | RSeq r1 r2 => exists u1 u2, u = u1 ++ u2 /\ accepts ic r1 u1 /\ accepts ic r2 u2
  | RAlt r1 r2 => accepts ic r1 u \/ accepts ic r2 u
  | RGroup _ r' => accepts ic r' u
  | RQuant r' _ _ _ => exists us, u = concat us /\ Forall (accepts ic r') us
  | RBackref _ => True
  end.

(** A matcher is sound for a set of texts when it hands its continuation
    a position that it has reached by reading one of them. *)
Definition sound (L : str -> Prop) (m : matcher) : Prop :=
  forall x cs k z, m x cs k = Some z ->
    exists u y cs',
      rest x = u ++ rest y /\ L u /\ length cs' = length cs /\ k y cs' = Some z.

End Lang.

Module Lines.
Import Regex Lang.

(** A white-space character other than the line feed. *)
Definition blank (a : ascii) : bool := Str.is_space a && negb (Str.ceqb a "010").

(** A text in which the line [pad ++ w ++ pad'], the word [w] between
    blanks, stands after the text [U] and a line feed, or at the very
    beginning, and before a line feed and the text [V]. *)
Definition lined (U : str) (lead : bool) (pad w pad' V : str) : str :=
  U ++ (if lead then nl else []) ++ pad ++ w ++ pad' ++ nl ++ V.

(** Where a position of such a text is: not after [U]; among the blanks
    before the word, its first character included; after [k] characters
    of the word; among the blanks after the word, the closing line feed
    included; after the line. *)
Inductive phase := Before | Pad | Word (k : nat) | Tail | After.

#[global] Instance phase_eq_dec : EqDecision phase.
Proof. solve_decision. Defined.

Definition at_phase (nU : nat) (lead : bool) (npad nw npad' : nat) (n : nat) (ph : phase)
    : Prop :=
  let o := nU + (if lead then 1 else 0) in
  match ph with
  | Before => lead = true /\ n <= nU
  | Pad => o <= n <= o + npad
  | Word k => 1 <= k < nw /\ n = o + npad + k
  | Tail => o + npad + nw <= n <= o + npad + nw + npad'
  | After => o + npad + nw + npad' + 1 <= n
  end.

Definition all_ascii : list ascii := map ascii_of_nat (seq 0 256).

Definition some_blank (acc : ascii -> bool) : bool :=
  existsb (fun a => blank a && acc a) all_ascii.

(** The phase after the character [k] of the word. *)
Definition next (w : str) (k : nat) : phase :=
  if S k <? length w then Word (S k) else Tail.

(** The phases that reading one character accepted by [acc] leads to. *)
Definition step1 (w : str) (acc : ascii -> bool) (ph : phase) : list phase :=
  match ph with
  | Before => Before :: (if acc "010"%char then [Pad] else [])
  | Pad =>
      (if some_blank acc then [Pad] else [])
      ++ match w !! 0 with
         | Some c => if acc c then [next w 0] else []
         | None => []
         end
  | Word k =>
      match w !! k with
      | Some c => if acc c then [next w k] else []
      | None => []
      end
  | Tail =>
      (if some_blank acc then [Tail] else []) ++ (if acc "010"%char then [After] else [])
  | After => [After]
  end.

Definition step (w : str) (acc : ascii -> bool) (P : list phase) : list phase :=
  remove_dups (flat_map (step1 w acc) P).

Definition everywhere (w : str) : list phase :=
  [Before; Pad; Tail; After] ++ map Word (seq 1 (length w - 1)).

Definition covers (Q P : list phase) : bool :=
  forallb (fun ph => bool_decide (ph ∈ Q)) P.

(** The phases reached from [P] by any number of rounds of [f]. *)
Definition closure (w : str) (f : list phase -> list phase) (P : list phase) : list phase :=
  let Q := Nat.iter (length w + 5) (fun Q => remove_dups (Q ++ f Q)) P in
  if covers Q P && covers Q (f Q) then Q else everywhere w.

(** The phases that reading a text of the pattern [r] leads to from the
    phases [P]. *)
Fixpoint reach (w : str) (ic : bool) (r : regex) (P : list phase) : list phase :=
  match r with
  | REmpty | RBol | REol | RWordB => P
  | RLit p => foldl (fun Q c => step w (char_eq ic c) Q) P p
  | RDot => step w (fun a => negb (Str.is_line_terminator a)) P
  | RSet neg items => step w (set_mem ic neg items) P
  | RSeq r1 r2 => reach w ic r2 (reach w ic r1 P)
  | RAlt r1 r2 => reach w ic r1 P ++ reach w ic r2 P
  | RGroup _ r' => reach w ic r' P
  | RQuant r' _ _ _ => closure w (reach w ic r') P
  | RBackref _ => everywhere w
  end.

(** The positions of the line: from its first character to its line feed. *)
Definition inside (w : str) : list phase :=
  [Pad; Tail] ++ map Word (seq 1 (length w - 1)).

(** No match of the pattern touches a line of the word [w]: a match that
    begins before the line ends before it, and none begins in the line. *)
Definition untouched (p : pattern) (w : str) : bool :=
  covers [Before] (reach w (ignoreCase p) (re p) [Before])
  && match reach w (ignoreCase p) (re p) (inside w) with [] => true | _ :: _ => false end
  && (0 <? minlen (re p)).

End Lines.

Module Replace.
Import Regex.

(** The [g] loop of [replace_all_with] from a position inside the
    subject, where [pv] is the character before it. *)
Definition replace_from (p : pattern) (g : mtch -> str) (pv : option ascii) (s : str) : str :=
  snd (replace_loop (S (length s)) p (fun (_ : unit) m => (tt, g m)) tt pv s).

(** A replacer that does not look at the index of the match. *)
Definition index_free (g : mtch -> str) : Prop :=
  forall i j md cs af, g (Mtch i md cs af) = g (Mtch j md cs af).

End Replace.

Module Program.
Import Regex Compiler Lines.

Definition blanks (s : str) : Prop := Forall (fun a => blank a = true) s.

(** Where a line stands: after the text [above] and a line feed, or at
    the beginning of the text, and with blanks [indent] before and
    [trail] after its word. *)
Record place := Place { above : option str; indent : str; trail : str }.

Record wfPlace (l : place) : Prop := WfPlace {
  wf_indent : blanks (indent l);
  wf_trail : blanks (trail l)
}.

(** The text with the word [w] on a line of its own at the place [l],
    followed by a line feed and the text [below]. *)
Definition put (l : place) (w : str) (below : str) : str :=
  match above l with
  | Some U => lined U true (indent l) w (trail l) below
  | None => lined [] false (indent l) w (trail l) below
  end.

Definition mainWord : str := #"int main() {".
Definition closeWord : str := #"}".

(** A program with the opening line of [main], the statement [coutHi]
    and a closing brace on lines of their own, in this order. *)
Definition program (lm ls lc : place) (below : str) : str :=
  put lm mainWord (put ls coutHi (put lc closeWord below)).

(** [int\s+main\s*\(\)\s*\{], the part of [mainRegex] before its group. *)
Definition mainHeader : list regex :=
  [RLit #"int"; RPlus RSpace; RLit #"main"; RStar RSpace; RLit #"()"; RStar RSpace; RLit #"{"].

Definition mainBody : list regex := [RGroup 0 (RStar RAny); RLit #"}"].

End Program.

Module MainCases.
Import Regex Compiler Program.

(** A file whose output statement stands in a helper function defined
    before [main]. *)
Definition helperCpp : GeneratedFile :=
  mkFile #"main.cpp" #"cpp"
    (#"#include <iostream>" ++ nl ++ #"using namespace std;" ++ nl ++ nl ++
     #"void hello() {" ++ nl ++ #"    " ++ coutHi ++ nl ++ #"}" ++ nl ++ nl ++
     #"int main() {" ++ nl ++ #"    hello();" ++ nl ++ #"    return 0;" ++ nl ++
     #"}" ++ nl).

End MainCases.

(** ** Artifacts made of replacement patterns *)

Module Growth.
Import Regex Compiler.

(** [k] times the replacement pattern of a dollar sign and a backtick,
    which stands for the text before the match. *)
Definition backticks (k : nat) : str := concat (replicate k #"$`").

(** A style sheet and a script that hold nothing but such patterns. *)
Definition growingFiles (k1 k2 : nat) : list GeneratedFile :=
  [mkFile #"style.css" #"css" (backticks k1); mkFile #"app.js" #"js" (backticks k2)].

End Growth.

(** * Facts *)

(** ** Facts about strings *)

Module StrFacts.
Import Str.

Lemma ceqb_eq a b : ceqb a b = true <-> a = b.
Proof. apply Ascii.eqb_eq. Qed.

Lemma ceqb_refl a : ceqb a a = true.
Proof. apply Ascii.eqb_refl. Qed.

Lemma ceqb_neq a b : ceqb a b = false <-> a <> b.
Proof. apply Ascii.eqb_neq. Qed.

Lemma eqb_eq s t : eqb s t = true <-> s = t.
Proof.
  revert t; induction s as [|a s IH]; intros [|b t]; simpl; try done.
  rewrite andb_true_iff, ceqb_eq, IH. split; [by intros [-> ->]|by intros [= -> ->]].
Qed.

Lemma eqb_refl s : eqb s s = true.
Proof. by apply eqb_eq. Qed.

Lemma startsWith_app p s : startsWith p (p ++ s) = true.
Proof. induction p as [|a p IH]; simpl; [done|]. by rewrite ceqb_refl. Qed.

Lemma startsWith_inv p s : startsWith p s = true -> exists t, s = p ++ t.
Proof.
  revert s; induction p as [|a p IH]; intros s H; simpl in *.
  - by exists s.
  - destruct s as [|b s]; [done|].
    apply andb_true_iff in H as [Hab H]. apply ceqb_eq in Hab as ->.
    destruct (IH _ H) as [t ->]. by exists t.
Qed.

Lemma startsWith_iff p s : startsWith p s = true <-> exists t, s = p ++ t.
Proof.
  split; [apply startsWith_inv|]. intros [t ->]. apply startsWith_app.
Qed.

(** A prefix test only reads as many characters as the prefix has. *)
Lemma startsWith_long p s r :
  length p <= length s -> startsWith p (s ++ r) = startsWith p s.
Proof.
  revert s; induction p as [|a p IH]; intros [|b s] Hl; simpl in *; try done; try lia.
  rewrite IH by lia. done.
Qed.

Lemma indexOf_Some_lt p s i :
  indexOf p s = Some i ->
  startsWith p (drop i s) = true /\
  forall j, j < i -> startsWith p (drop j s) = false.
Proof.
  revert i; induction s as [|a s IH]; intros i; simpl.
  - destruct (startsWith p []) eqn:E; [|done]. intros [= <-]. split; [done|]. lia.
  - destruct (startsWith p (a :: s)) eqn:E.
    + intros [= <-]. split; [done|]. lia.
    + destruct (indexOf p s) as [k|] eqn:Ek; [|done]. simpl. intros [= <-].
      destruct (IH k eq_refl) as [H1 H2]. split; [done|].
      intros [|j] Hj; simpl; [done|]. apply H2. lia.
Qed.

Lemma indexOf_None p s :
  indexOf p s = None -> forall j, startsWith p (drop j s) = false.
Proof.
  induction s as [|a s IH]; simpl.
  - destruct (startsWith p []) eqn:E; [done|]. intros _ j. by rewrite drop_nil.
  - destruct (startsWith p (a :: s)) eqn:E; [done|].
    destruct (indexOf p s) eqn:Ek; [done|]. intros _ [|j]; simpl; [done|]. by apply IH.
Qed.

Lemma includes_false p s :
  includes p s = false -> forall j, startsWith p (drop j s) = false.
Proof.
  unfold includes. destruct (indexOf p s) eqn:E; [done|]. intros _. by apply indexOf_None.
Qed.

Lemma indexOf_intro p s i :
  startsWith p (drop i s) = true ->
  (forall j, j < i -> startsWith p (drop j s) = false) ->
  i <= length s ->
  indexOf p s = Some i.
Proof.
  revert i; induction s as [|a s IH]; intros i H1 H2 Hi; simpl in *.
  - assert (i = 0) as -> by lia. simpl in H1. by rewrite H1.
  - destruct i as [|i].
    + simpl in H1. by rewrite H1.
    + pose proof (H2 0 ltac:(lia)) as H0. simpl in H0. rewrite H0. simpl in H1.
      rewrite (IH i); [done|done| |lia].
      intros j Hj. apply (H2 (S j)). lia.
Qed.

(** *** Splitting at a character *)

Lemma split_go_nonempty c cur s : Str.split_go [c] 0 cur s <> [].
Proof.
  revert cur; induction s as [|a s IH]; intros cur; simpl; [done|].
  destruct (Str.ceqb c a); simpl; [done|apply IH].
Qed.

Lemma last_cons_nonempty {A} (x : A) l : l <> [] -> last (x :: l) = last l.
Proof. by destruct l. Qed.

Lemma split_go_last c cur s l :
  last (Str.split_go [c] 0 cur (s ++ c :: l)) = last (Str.split_go [c] 0 [] l).
Proof.
  revert cur; induction s as [|a s IH]; intros cur.
  - cbn [app Str.split_go Str.startsWith]. rewrite ceqb_refl. cbn [andb length Nat.sub].
    apply last_cons_nonempty, split_go_nonempty.
  - cbn [app Str.split_go Str.startsWith]. rewrite andb_true_r.
    destruct (Str.ceqb c a); cbn [length Nat.sub].
    + rewrite last_cons_nonempty by apply split_go_nonempty. apply IH.
    + apply IH.
Qed.

Lemma split_go_plain c cur l :
  Forall (fun a => a <> c) l -> Str.split_go [c] 0 cur l = [reverse cur ++ l].
Proof.
  revert cur; induction l as [|a l IH]; intros cur Hl.
  - simpl. by rewrite app_nil_r.
  - inversion_clear Hl as [|?? Ha Hl']. cbn [Str.split_go Str.startsWith].
    replace (Str.ceqb c a) with false by (symmetry; apply ceqb_neq; congruence).
    cbn [andb]. rewrite IH by done. by rewrite reverse_cons, <- app_assoc.
Qed.

End StrFacts.

(** ** Facts about the matcher *)

Module RegexFacts.
Import Regex StrFacts.

Lemma lastp_nil pv : lastp pv [] = pv.
Proof. done. Qed.

Lemma lastp_cons pv a u : lastp pv (a :: u) = lastp (Some a) u.
Proof. done. Qed.

Lemma lastp_app pv u v : lastp pv (u ++ v) = lastp (lastp pv u) v.
Proof. revert pv; induction u as [|a u IH]; intros pv; [done|]. simpl. apply IH. Qed.

Lemma lastp_snoc pv u a : lastp pv (u ++ [a]) = Some a.
Proof. by rewrite lastp_app. Qed.

Lemma between_app a b (u v : str) : between (Pos a (u ++ v)) (Pos b v) = u.
Proof.
  unfold between; simpl. rewrite length_app.
  replace (length u + length v - length v) with (length u) by lia.
  by rewrite take_app_length.
Qed.

Lemma between_same a b (v : str) : between (Pos a v) (Pos b v) = [].
Proof. apply (between_app a b [] v). Qed.

(** *** Literals *)

Lemma lit_match_app pv p t :
  lit_match false p (Pos pv (p ++ t)) = Some (Pos (lastp pv p) t).
Proof.
  revert pv; induction p as [|c p IH]; intros pv; [done|].
  simpl. rewrite ceqb_refl. unfold advance. by rewrite IH.
Qed.

Lemma lit_match_fail pv p s :
  Str.startsWith p s = false -> lit_match false p (Pos pv s) = None.
Proof.
  revert pv s; induction p as [|c p IH]; intros pv s; [done|].
  destruct s as [|a s]; simpl; [done|].
  destruct (Str.ceqb c a); simpl; [|done]. apply IH.
Qed.

Lemma lit_match_inv pv p s y :
  lit_match false p (Pos pv s) = Some y ->
  exists t, s = p ++ t /\ y = Pos (lastp pv p) t.
Proof.
  destruct (Str.startsWith p s) eqn:E.
  - apply startsWith_inv in E as [t ->]. rewrite lit_match_app. intros [= <-]. eauto.
  - by rewrite lit_match_fail.
Qed.

Lemma rmatch_lit_app p r pv t cs k :
  rmatch false (RSeq (RLit p) r) (Pos pv (p ++ t)) cs k
  = rmatch false r (Pos (lastp pv p) t) cs k.
Proof. simpl. by rewrite lit_match_app. Qed.

Lemma rmatch_lit_fail p r pv s cs k :
  Str.startsWith p s = false ->
  rmatch false (RSeq (RLit p) r) (Pos pv s) cs k = None.
Proof. intros H. simpl. by rewrite lit_match_fail. Qed.

(** *** Quantified single characters *)

Lemma leb_succ_false n : (S n <=? n) = false.
Proof. apply Nat.leb_gt. lia. Qed.

Lemma repeat_lazy_star (m : matcher) P fuel pv s cs k :
  (forall x cs k, m x cs k = charm P x cs k) ->
  length s < fuel ->
  repeat fuel m [] 0 None false (Pos pv s) cs k = lazy_star P pv s cs k.
Proof.
  intros Hm. revert fuel pv; induction s as [|a t IH]; intros [|fuel] pv Hf;
    cbn -[Nat.leb] in *; try lia.
  - destruct (k (Pos pv []) cs); [done|]. by rewrite Hm.
  - destruct (k (Pos pv (a :: t)) cs); [done|]. rewrite Hm. unfold charm; cbn -[Nat.leb].
    destruct (P a); [|done]. rewrite leb_succ_false. apply IH. lia.
Qed.

Lemma repeat_greedy_star (m : matcher) P fuel pv s cs k :
  (forall x cs k, m x cs k = charm P x cs k) ->
  length s < fuel ->
  repeat fuel m [] 0 None true (Pos pv s) cs k = greedy_star P pv s cs k.
Proof.
  intros Hm. revert fuel pv; induction s as [|a t IH]; intros [|fuel] pv Hf;
    cbn -[Nat.leb] in *; try lia.
  - by rewrite Hm.
  - rewrite Hm. unfold charm; cbn -[Nat.leb].
    destruct (P a); [|done]. rewrite leb_succ_false. cbv iota. unfold advance.
    rewrite IH by lia. done.
Qed.

(** A required iteration. *)
Lemma repeat_required fuel m gs min greedy x cs k :
  repeat (S fuel) m gs (S min) None greedy x cs k
  = m x (clear gs cs) (fun y cs' => repeat fuel m gs min None greedy y cs' k).
Proof. reflexivity. Qed.

Lemma fuel_enough min pv (s : str) : length s < repeat_fuel min (Pos pv s).
Proof. unfold repeat_fuel; simpl; lia. Qed.

(** [[...]*?], [.*?], [[...]*] and [[...]+] as plain recursions over the
    subject. *)
Lemma rmatch_set_lazy ic neg items pv s cs k :
  rmatch ic (RStarLazy (RSet neg items)) (Pos pv s) cs k
  = lazy_star (set_mem ic neg items) pv s cs k.
Proof. apply repeat_lazy_star; [done|apply fuel_enough]. Qed.

Lemma rmatch_dot_lazy ic pv s cs k :
  rmatch ic (RStarLazy RDot) (Pos pv s) cs k
  = lazy_star (fun a => negb (Str.is_line_terminator a)) pv s cs k.
Proof.
  apply repeat_lazy_star; [|apply fuel_enough].
  intros x cs' k'. unfold charm; simpl. destruct (rest x) as [|a t]; [done|].
  by destruct (Str.is_line_terminator a).
Qed.

Lemma rmatch_set_greedy ic neg items pv s cs k :
  rmatch ic (RStar (RSet neg items)) (Pos pv s) cs k
  = greedy_star (set_mem ic neg items) pv s cs k.
Proof. apply repeat_greedy_star; [done|apply fuel_enough]. Qed.

Lemma rmatch_set_plus ic neg items pv s cs k :
  rmatch ic (RPlus (RSet neg items)) (Pos pv s) cs k
  = match s with
    | a :: t =>
        if set_mem ic neg items a
        then greedy_star (set_mem ic neg items) (Some a) t cs k else None
    | [] => None
    end.
Proof.
  unfold RPlus. cbn [rmatch groups]. unfold repeat_fuel. rewrite repeat_required.
  cbn [rest clear foldr]. destruct s as [|a t]; [done|].
  destruct (set_mem ic neg items a); [|done].
  apply repeat_greedy_star; [done|]. simpl. lia.
Qed.

(** A lazy star stops at the first position where the rest of the
    pattern matches. *)
Lemma lazy_star_first P pv u v cs k z :
  Forall (fun a => P a = true) u ->
  (forall i, i < length u -> k (Pos (lastp pv (take i u)) (drop i u ++ v)) cs = None) ->
  k (Pos (lastp pv u) v) cs = Some z ->
  lazy_star P pv (u ++ v) cs k = Some z.
Proof.
  revert pv; induction u as [|a u IH]; intros pv HP Hn Hz.
  - simpl in *. destruct v; simpl; by rewrite Hz.
  - simpl. pose proof (Hn 0 ltac:(simpl; lia)) as H0. simpl in H0. rewrite H0.
    inversion_clear HP as [|?? Ha HP']. rewrite Ha.
    apply IH; [done| |done].
    intros i Hi. specialize (Hn (S i)). simpl in Hn.
    apply Hn. lia.
Qed.

(** A lazy star fails when the rest of the pattern matches nowhere. *)
Lemma lazy_star_none P pv s cs k :
  (forall i, i <= length s -> k (Pos (lastp pv (take i s)) (drop i s)) cs = None) ->
  lazy_star P pv s cs k = None.
Proof.
  revert pv; induction s as [|a s IH]; intros pv Hn; simpl.
  - pose proof (Hn 0 ltac:(simpl; lia)) as H0. simpl in H0. by rewrite H0.
  - pose proof (Hn 0 ltac:(simpl; lia)) as H0. simpl in H0. rewrite H0.
    destruct (P a); [|done]. apply IH.
    intros i Hi. specialize (Hn (S i)). simpl in Hn.
    apply Hn. lia.
Qed.

(** A greedy star over a run [w] of matching characters that ends before
    [s] succeeds as soon as the rest of the pattern matches at [s]. *)
Lemma greedy_star_all P pv w s cs k z :
  Forall (fun a => P a = true) w ->
  match s with a :: _ => P a = false | [] => True end ->
  k (Pos (lastp pv w) s) cs = Some z ->
  greedy_star P pv (w ++ s) cs k = Some z.
Proof.
  revert pv; induction w as [|a w IH]; intros pv HP Hs Hz.
  - simpl in *. destruct s as [|b t]; simpl; [done|]. by rewrite Hs.
  - simpl. inversion_clear HP as [|?? Ha HP']. rewrite Ha.
    by rewrite (IH (Some a)).
Qed.

(** A greedy star fails when the rest of the pattern fails after every
    run of matching characters. *)
Lemma greedy_star_none P pv s cs k :
  (forall j, j <= length s -> Forall (fun a => P a = true) (take j s) ->
             k (Pos (lastp pv (take j s)) (drop j s)) cs = None) ->
  greedy_star P pv s cs k = None.
Proof.
  revert pv; induction s as [|a s IH]; intros pv Hn; simpl.
  - by apply (Hn 0).
  - destruct (P a) eqn:Ha.
    + rewrite IH.
      * apply (Hn 0); [lia|constructor].
      * intros j Hj HP. specialize (Hn (S j)). simpl in Hn.
        apply Hn; [lia|by constructor].
    + apply (Hn 0); [lia|constructor].
Qed.

(** *** Searching *)

Lemma search_hit p i pv s y cs :
  match_at p (Pos pv s) = Some (y, cs) ->
  search p i pv s = Some (Mtch i (between (Pos pv s) y) cs y).
Proof. intros H. destruct s; simpl; by rewrite H. Qed.

Lemma search_skip p i pv u v :
  (forall j, j < length u ->
     match_at p (Pos (lastp pv (take j u)) (drop j u ++ v)) = None) ->
  search p i pv (u ++ v) = search p (i + length u) (lastp pv u) v.
Proof.
  revert i pv; induction u as [|a u IH]; intros i pv Hn.
  - simpl. by rewrite Nat.add_0_r.
  - cbn [app search]. pose proof (Hn 0 ltac:(simpl; lia)) as H0. simpl in H0. rewrite H0.
    rewrite IH.
    + simpl. f_equal. lia.
    + intros j Hj. specialize (Hn (S j)). simpl in Hn.
      apply Hn. lia.
Qed.

Lemma search_none p i pv s :
  (forall j, j <= length s ->
     match_at p (Pos (lastp pv (take j s)) (drop j s)) = None) ->
  search p i pv s = None.
Proof.
  revert i pv; induction s as [|a s IH]; intros i pv Hn.
  - pose proof (Hn 0 ltac:(simpl; lia)) as H0. simpl in H0. simpl. by rewrite H0.
  - cbn [search]. pose proof (Hn 0 ltac:(simpl; lia)) as H0. simpl in H0. rewrite H0.
    apply IH.
    intros j Hj. specialize (Hn (S j)). simpl in Hn.
    apply Hn. lia.
Qed.

(** A pattern that begins with a literal matches only where the literal
    stands. *)
Lemma match_at_lit_fail p lit r pv s :
  re p = RSeq (RLit lit) r -> ignoreCase p = false ->
  Str.startsWith lit s = false ->
  match_at p (Pos pv s) = None.
Proof.
  intros Hre Hic H. unfold match_at. rewrite Hre, Hic. by apply rmatch_lit_fail.
Qed.

End RegexFacts.

(** ** Lengths of matches and adequacy of the fuel *)

Module EngineFacts.
Import Regex StrFacts RegexFacts.

Lemma lit_match_length ic p x y :
  lit_match ic p x = Some y -> length (rest x) = length p + length (rest y).
Proof.
  revert x; induction p as [|c p IH]; intros [pv s]; simpl.
  - by intros [= <-].
  - destruct s as [|a s]; [done|]. destruct (char_eq ic c a); [|done].
    intros H. apply IH in H. simpl in *. lia.
Qed.

Lemma consumes_weaken n n' m : n' <= n -> consumes n m -> consumes n' m.
Proof.
  intros Hn Hm x cs k z H. destruct (Hm x cs k z H) as (y & cs' & Hk & Hl).
  exists y, cs'. split; [done|lia].
Qed.

Lemma repeat_consumes n m :
  consumes n m ->
  forall fuel gs min max greedy,
    consumes (qbound min max * n) (repeat fuel m gs min max greedy).
Proof.
  intros Hm. induction fuel as [|fuel IH]; intros gs min max greedy x cs k z H; [done|].
  cbn [repeat] in H.
  destruct (decide (max = Some 0)) as [->|Hmax].
  { exists x, cs. split; [done|]. unfold qbound. rewrite Nat.min_0_r. simpl. lia. }
  assert (forall cs0 : caps, k x cs0 = Some z -> min = 0 ->
    exists y cs', k y cs' = Some z /\ qbound min max * n + length (rest y) <= length (rest x))
    as Hstop.
  { intros cs0 Hk ->. exists x, cs0. split; [done|].
    unfold qbound. destruct max; simpl; lia. }
  assert (forall cr : caps,
    m x cr (fun y cs' =>
      if (min =? 0) && (length (rest x) <=? length (rest y)) then None
      else repeat fuel m gs (pred min) (pred <$> max) greedy y cs' k) = Some z ->
    exists y cs', k y cs' = Some z /\ qbound min max * n + length (rest y) <= length (rest x))
    as Hiter.
  { intros cr Hd. destruct (Hm _ _ _ _ Hd) as (y1 & cs1 & Hd1 & Hl1).
    destruct ((min =? 0) && (length (rest x) <=? length (rest y1))); [done|].
    destruct (IH _ _ _ _ _ _ _ _ Hd1) as (y2 & cs2 & Hk2 & Hl2).
    exists y2, cs2. split; [done|].
    assert (qbound min max <= S (qbound (pred min) (pred <$> max))) as Hq.
    { unfold qbound. destruct max as [[|j]|], min as [|min']; simpl; lia. }
    nia. }
  assert (match max with Some 0 => False | _ => True end) as Hmax'
    by (by destruct max as [[|?]|]).
  destruct max as [[|max']|]; [done| |].
  - destruct (negb (min =? 0)) eqn:Emin; [by eapply Hiter|].
    apply negb_false_iff, Nat.eqb_eq in Emin.
    destruct greedy.
    + destruct (m x (clear gs cs) _) eqn:Ed.
      * injection H as ->. by eapply Hiter.
      * by eapply Hstop.
    + destruct (k x cs) eqn:Ek.
      * injection H as ->. by eapply Hstop.
      * by eapply Hiter.
  - destruct (negb (min =? 0)) eqn:Emin; [by eapply Hiter|].
    apply negb_false_iff, Nat.eqb_eq in Emin.
    destruct greedy.
    + destruct (m x (clear gs cs) _) eqn:Ed.
      * injection H as ->. by eapply Hiter.
      * by eapply Hstop.
    + destruct (k x cs) eqn:Ek.
      * injection H as ->. by eapply Hstop.
      * by eapply Hiter.
Qed.

(** What a pattern matches is at least [minlen] characters long. *)
Theorem rmatch_consumes ic r : consumes (minlen r) (rmatch ic r).
Proof.
  induction r as [|p| |neg items|r1 IH1 r2 IH2|r1 IH1 r2 IH2|n r IH|r IH min max greedy|n| | |];
    intros x cs k z H; cbn [rmatch minlen] in *.
  - exists x, cs. split; [done|lia].
  - destruct (lit_match ic p x) as [y|] eqn:E; [|done].
    apply lit_match_length in E. exists y, cs. split; [done|lia].
  - destruct x as [pv [|a t]]; simpl in *; [done|].
    destruct (Str.is_line_terminator a); [done|].
    eexists _, _. split; [done|]. simpl. lia.
  - destruct x as [pv [|a t]]; simpl in *; [done|].
    destruct (set_mem ic neg items a); [|done].
    eexists _, _. split; [done|]. simpl. lia.
  - destruct (IH1 _ _ _ _ H) as (y1 & cs1 & H1 & Hl1).
    destruct (IH2 _ _ _ _ H1) as (y2 & cs2 & H2 & Hl2).
    exists y2, cs2. split; [done|lia].
  - pose proof (Nat.le_min_l (minlen r1) (minlen r2)).
    pose proof (Nat.le_min_r (minlen r1) (minlen r2)).
    destruct (rmatch ic r1 x cs k) eqn:E1.
    + injection H as ->. destruct (IH1 _ _ _ _ E1) as (y & cs' & Hk & Hl).
      exists y, cs'. split; [done|lia].
    + destruct (IH2 _ _ _ _ H) as (y & cs' & Hk & Hl).
      exists y, cs'. split; [done|lia].
  - destruct (IH _ _ _ _ H) as (y & cs' & Hk & Hl). eauto.
  - by apply (repeat_consumes _ _ IH) in H.
  - destruct (cs !! n) as [[v|]|] eqn:E; try (exists x, cs; split; [done|lia]).
    destruct (lit_match ic v x) as [y|] eqn:El; [|done].
    apply lit_match_length in El. exists y, cs. split; [done|lia].
  - destruct (prev x); [done|]. exists x, cs. split; [done|lia].
  - exists x, cs. split; [|lia]. by destruct (rest x).
  - destruct (xorb _ _); [|done]. exists x, cs. split; [done|lia].
Qed.

(** *** The fuel of a quantifier is enough *)

Lemma repeat_local m :
  local m -> forall fuel gs min max greedy, local (repeat fuel m gs min max greedy).
Proof.
  intros Hm. induction fuel as [|fuel IH]; intros gs min max greedy x cs k k' Hk; [done|].
  cbn [repeat].
  assert (k x cs = k' x cs) as E0 by (by apply Hk).
  assert (m x (clear gs cs) (fun y cs' =>
            if (min =? 0) && (length (rest x) <=? length (rest y)) then None
            else repeat fuel m gs (pred min) (pred <$> max) greedy y cs' k)
          = m x (clear gs cs) (fun y cs' =>
            if (min =? 0) && (length (rest x) <=? length (rest y)) then None
            else repeat fuel m gs (pred min) (pred <$> max) greedy y cs' k')) as E1.
  { apply Hm. intros y cs' Hy.
    destruct ((min =? 0) && (length (rest x) <=? length (rest y))); [done|].
    apply IH. intros y' cs'' Hy'. apply Hk. lia. }
  rewrite E0, E1. done.
Qed.

Theorem rmatch_local ic r : local (rmatch ic r).
Proof.
  induction r as [|p| |neg items|r1 IH1 r2 IH2|r1 IH1 r2 IH2|n r IH|r IH min max greedy|n| | |];
    intros x cs k k' Hk; cbn [rmatch].
  - by apply Hk.
  - destruct (lit_match ic p x) as [y|] eqn:E; [|done].
    apply lit_match_length in E. apply Hk. lia.
  - destruct x as [pv [|a t]]; simpl in *; [done|].
    destruct (Str.is_line_terminator a); [done|]. apply Hk. simpl. lia.
  - destruct x as [pv [|a t]]; simpl in *; [done|].
    destruct (set_mem ic neg items a); [|done]. apply Hk. simpl. lia.
  - apply IH1. intros y cs' Hy. apply IH2. intros y' cs'' Hy'. apply Hk. lia.
  - by rewrite (IH1 x cs k k' Hk), (IH2 x cs k k' Hk).
  - apply IH. intros y cs' Hy. by apply Hk.
  - by apply (repeat_local _ IH).
  - destruct (cs !! n) as [[v|]|] eqn:E; try (by apply Hk).
    destruct (lit_match ic v x) as [y|] eqn:El; [|done].
    apply lit_match_length in El. apply Hk. lia.
  - destruct (prev x); [done|]. by apply Hk.
  - destruct (rest x) eqn:E; [|done]. apply Hk. by rewrite E.
  - destruct (xorb _ _); [|done]. by apply Hk.
Qed.

Lemma repeat_fuel_irrel m :
  local m ->
  forall fuel fuel' gs min max greedy x cs k,
    min + length (rest x) < fuel -> min + length (rest x) < fuel' ->
    repeat fuel m gs min max greedy x cs k = repeat fuel' m gs min max greedy x cs k.
Proof.
  intros Hm. induction fuel as [|fuel IH]; intros [|fuel'] gs min max greedy x cs k Hf Hf';
    try lia.
  cbn [repeat].
  assert (m x (clear gs cs) (fun y cs' =>
            if (min =? 0) && (length (rest x) <=? length (rest y)) then None
            else repeat fuel m gs (pred min) (pred <$> max) greedy y cs' k)
          = m x (clear gs cs) (fun y cs' =>
            if (min =? 0) && (length (rest x) <=? length (rest y)) then None
            else repeat fuel' m gs (pred min) (pred <$> max) greedy y cs' k)) as E1.
  { apply Hm. intros y cs' Hy.
    destruct (min =? 0) eqn:Emin; cbn [andb].
    - apply Nat.eqb_eq in Emin as ->.
      destruct (length (rest x) <=? length (rest y)) eqn:El; [done|].
      apply Nat.leb_gt in El. apply IH; simpl; lia.
    - apply Nat.eqb_neq in Emin. apply IH; lia. }
  by rewrite E1.
Qed.

(** More fuel than [repeat_fuel] gives does not change what a quantified
    pattern matches. *)
Theorem quantifier_fuel ic r min max greedy extra x cs k :
  repeat (repeat_fuel min x + extra) (rmatch ic r) (groups r) min max greedy x cs k
  = rmatch ic (RQuant r min max greedy) x cs k.
Proof.
  cbn [rmatch]. apply repeat_fuel_irrel; [apply rmatch_local| |]; unfold repeat_fuel; lia.
Qed.

(** *** The loops over the matches of a pattern *)

Lemma match_at_length p x y cs :
  match_at p x = Some (y, cs) -> minlen (re p) + length (rest y) <= length (rest x).
Proof.
  intros H. apply rmatch_consumes in H as (y' & cs' & [= -> ->] & Hl). done.
Qed.

Lemma search_length p : forall s i pv m,
  search p i pv s = Some m ->
  length (matched m) + length (rest (after m)) <= length s
  /\ minlen (re p) <= length (matched m).
Proof.
  induction s as [|a s IH]; intros i pv m; cbn [search].
  - destruct (match_at p (Pos pv [])) as [[y cs]|] eqn:E; [|done].
    intros [= <-]. apply match_at_length in E. cbn [matched after rest] in *.
    unfold between. cbn [rest length] in *. rewrite length_take. cbn [length]. lia.
  - destruct (match_at p (Pos pv (a :: s))) as [[y cs]|] eqn:E.
    + intros [= <-]. apply match_at_length in E. cbn [matched after rest] in *.
      unfold between. cbn [rest] in *. rewrite length_take. lia.
    + intros H. apply IH in H. simpl. lia.
Qed.

(** A pattern that cannot match the empty string makes the loop
    [while ((m = re.exec(text)) !== null)] end: every match it visits is
    non-empty, so [lastIndex] advances. *)
Theorem exec_loop_progress p :
  0 < minlen (re p) ->
  forall fuel i pv s m, m ∈ exec_loop fuel p i pv s -> matched m <> [].
Proof.
  intros Hp. induction fuel as [|fuel IH]; intros i pv s m; cbn [exec_loop].
  - by intros ?%elem_of_nil.
  - destruct (search p i pv s) as [m0|] eqn:E; [|by intros ?%elem_of_nil].
    apply search_length in E as [_ E].
    intros [->|Hm]%elem_of_cons.
    + intros Hn. rewrite Hn in E. simpl in E. lia.
    + destruct (matched m0); [by apply elem_of_nil in Hm|]. by apply IH in Hm.
Qed.

(** The bound [S (length s)] on the number of iterations is never
    reached. *)
Theorem exec_loop_fuel p : forall fuel fuel' i pv s,
  length s < fuel -> length s < fuel' ->
  exec_loop fuel p i pv s = exec_loop fuel' p i pv s.
Proof.
  induction fuel as [|fuel IH]; intros [|fuel'] i pv s Hf Hf'; try lia.
  cbn [exec_loop]. destruct (search p i pv s) as [m|] eqn:E; [|done].
  apply search_length in E as [E _]. f_equal.
  destruct (matched m) as [|c mm]; [done|]. simpl in E. apply IH; lia.
Qed.

Theorem replace_loop_fuel {St} p (f : St -> mtch -> St * str) :
  forall fuel fuel' st pv s,
    length s < fuel -> length s < fuel' ->
    replace_loop fuel p f st pv s = replace_loop fuel' p f st pv s.
Proof.
  induction fuel as [|fuel IH]; intros [|fuel'] st pv s Hf Hf'; try lia.
  cbn [replace_loop]. destruct (search p 0 pv s) as [m|] eqn:E; [|done].
  apply search_length in E as [E _]. destruct (f st m) as [st1 r].
  destruct (matched m) as [|c mm].
  - destruct (rest (after m)) as [|a t]; [done|].
    simpl in E. rewrite (IH fuel'); [done|lia|lia].
  - simpl in E. rewrite (IH fuel'); [done|lia|lia].
Qed.

End EngineFacts.

(** ** The primary strategy on well-formed texts *)

Module FormatFacts.
Import Regex StrFacts RegexFacts Parser Format.

Lemma rmatch_seq ic r1 r2 x cs k :
  rmatch ic (RSeq r1 r2) x cs k = rmatch ic r1 x cs (fun y cs' => rmatch ic r2 y cs' k).
Proof. done. Qed.

Lemma rmatch_group ic n r x cs k :
  rmatch ic (RGroup n r) x cs k
  = rmatch ic r x cs (fun y cs' => k y (<[n := Some (between x y)]> cs')).
Proof. done. Qed.

Lemma rmatch_empty ic x cs k : rmatch ic REmpty x cs k = k x cs.
Proof. done. Qed.

Lemma set_mem_space a : set_mem false false [CSpace] a = Str.is_space a.
Proof. unfold set_mem, class_mem; simpl. by rewrite !orb_false_r. Qed.

Lemma set_mem_any a : set_mem false false [CSpace; CNotSpace] a = true.
Proof. unfold set_mem, class_mem; simpl. by destruct (Str.is_space a). Qed.

Lemma Forall_any (u : str) : Forall (fun a => set_mem false false [CSpace; CNotSpace] a = true) u.
Proof. apply Forall_forall. intros. apply set_mem_any. Qed.

Lemma spaces_set_mem w : spaces w -> Forall (fun a => set_mem false false [CSpace] a = true) w.
Proof. intros H. eapply Forall_impl; [exact H|]. intros a. by rewrite set_mem_space. Qed.

(** *** Occurrences *)

Lemma firstAt_fail tok s X j :
  firstAt tok s -> j < length s ->
  Str.startsWith tok (drop j s ++ tok ++ X) = false.
Proof.
  intros H Hj. apply indexOf_Some_lt in H as [_ H]. specialize (H j Hj).
  rewrite drop_app_le in H by lia.
  rewrite app_assoc, startsWith_long; [done|]. rewrite length_app. lia.
Qed.

Lemma startsWith_extend p s r :
  Str.startsWith p s = true -> Str.startsWith p (s ++ r) = true.
Proof.
  intros [t ->]%startsWith_inv. rewrite <- app_assoc. apply startsWith_app.
Qed.

(** With nothing after it, [s] holds no occurrence of [tok] at all. *)
Lemma firstAt_absent tok s j :
  tok <> [] -> firstAt tok s -> Str.startsWith tok (drop j s) = false.
Proof.
  intros Htok H. destruct (decide (j < length s)) as [Hj|Hj].
  - apply indexOf_Some_lt in H as [_ H]. specialize (H j Hj).
    rewrite drop_app_le in H by lia.
    destruct (Str.startsWith tok (drop j s)) eqn:E; [|done].
    by rewrite (startsWith_extend _ _ tok E) in H.
  - rewrite drop_ge by lia. destruct tok; done.
Qed.

(** *** One block under [delimiterRegex] *)

Lemma delimiter_re : re delimiterRegex = RSeq (RLit FILE_START) R_ws1.
Proof. reflexivity. Qed.

Lemma star_last : forall pv, lastp pv FILE_END = Some "*"%char.
Proof. done. Qed.

Lemma match_body pv bd X cs :
  firstAt FILE_END bd ->
  rmatch false R_body (Pos pv (bd ++ FILE_END ++ X)) cs K0
  = Some (Pos (Some "*"%char) X, <[1 := Some bd]> cs).
Proof.
  intros Hbd. unfold R_body. rewrite rmatch_seq, rmatch_group.
  unfold RAny. rewrite rmatch_set_lazy.
  apply lazy_star_first.
  - apply Forall_any.
  - intros i Hi. unfold R_end. apply rmatch_lit_fail. by apply firstAt_fail.
  - unfold R_end. rewrite rmatch_lit_app, rmatch_empty. unfold K0.
    by rewrite between_app, star_last.
Qed.

Lemma match_close pv bd X cs :
  firstAt FILE_END bd ->
  rmatch false R_close (Pos pv (STARS ++ bd ++ FILE_END ++ X)) cs K0
  = Some (Pos (Some "*"%char) X, <[1 := Some bd]> cs).
Proof. intros Hbd. unfold R_close. rewrite rmatch_lit_app. by apply match_body. Qed.

Lemma match_ws2 pv w bd X cs :
  spaces w -> firstAt FILE_END bd ->
  rmatch false R_ws2 (Pos pv (w ++ STARS ++ bd ++ FILE_END ++ X)) cs K0
  = Some (Pos (Some "*"%char) X, <[1 := Some bd]> cs).
Proof.
  intros Hw Hbd. unfold R_ws2. rewrite rmatch_seq. unfold RSpace.
  rewrite rmatch_set_greedy. apply greedy_star_all.
  - by apply spaces_set_mem.
  - done.
  - by apply match_close.
Qed.

Lemma startsWith_cons_neq c p a s : c <> a -> Str.startsWith (c :: p) (a :: s) = false.
Proof.
  intros H. cbn [Str.startsWith]. apply andb_false_iff; left. by apply ceqb_neq.
Qed.

(** Inside a file name the closing [***] cannot be reached. *)
Lemma match_ws2_fail pv u T cs :
  u <> [] ->
  Forall (fun a => a <> "*"%char /\ Str.is_line_terminator a = false) u ->
  (forall a, last u = Some a -> Str.is_space a = false) ->
  rmatch false R_ws2 (Pos pv (u ++ T)) cs K0 = None.
Proof.
  intros Hne Hu Hlast. unfold R_ws2. rewrite rmatch_seq. unfold RSpace.
  rewrite rmatch_set_greedy. apply greedy_star_none.
  intros j _ Hsp.
  assert (j < length u) as Hj.
  { destruct (decide (j < length u)) as [|Hge]; [done|exfalso].
    destruct (last u) as [c|] eqn:Hc; [|by apply last_None in Hc].
    specialize (Hlast c eq_refl). apply last_Some in Hc as [u' ->].
    rewrite length_app in Hge; simpl in Hge.
    rewrite take_app_ge in Hsp by (rewrite length_app; simpl; lia).
    apply Forall_app in Hsp as [Hsp _]. apply Forall_app in Hsp as [_ Hsp].
    inversion_clear Hsp as [|?? Hc' _]. rewrite set_mem_space in Hc'. congruence. }
  rewrite drop_app_le by lia.
  destruct (drop j u) as [|c v] eqn:Hd.
  { apply (f_equal length) in Hd. rewrite length_drop in Hd. simpl in Hd. lia. }
  assert (c ∈ u) as Hin.
  { apply (list_elem_of_lookup_2 _ j). rewrite <- (Nat.add_0_r j), <- lookup_drop, Hd. done. }
  rewrite Forall_forall in Hu. destruct (Hu c Hin) as [Hstar _].
  unfold R_close. apply rmatch_lit_fail.
  change STARS with ("*"%char :: #"**"). apply startsWith_cons_neq. congruence.
Qed.

Lemma last_drop_lt {A} (l : list A) i : i < length l -> last (drop i l) = last l.
Proof.
  intros Hi. rewrite <- (take_drop i l) at 2. rewrite last_app.
  destruct (last (drop i l)) eqn:E; [done|].
  apply last_None in E. apply (f_equal length) in E. rewrite length_drop in E. simpl in E. lia.
Qed.

Lemma wfName_line n :
  wfName n -> Forall (fun a => negb (Str.is_line_terminator a) = true) n.
Proof.
  intros [H _]. eapply Forall_impl; [exact H|]. intros a [_ ->]. done.
Qed.

Lemma match_name pv n w bd X cs :
  wfName n -> spaces w -> firstAt FILE_END bd ->
  rmatch false R_name (Pos pv (n ++ w ++ STARS ++ bd ++ FILE_END ++ X)) cs K0
  = Some (Pos (Some "*"%char) X, <[1 := Some bd]> (<[0 := Some n]> cs)).
Proof.
  intros Hn Hw Hbd. unfold R_name. rewrite rmatch_seq, rmatch_group, rmatch_dot_lazy.
  apply lazy_star_first.
  - by apply wfName_line.
  - intros i Hi. destruct Hn as (Hall & _ & Hlast).
    apply match_ws2_fail.
    + intros Hd. apply (f_equal length) in Hd. rewrite length_drop in Hd. simpl in Hd. lia.
    + by apply Forall_drop.
    + intros a Ha. apply Hlast. rewrite <- Ha. symmetry. apply last_drop_lt. lia.
  - rewrite between_app. by apply match_ws2.
Qed.

Lemma match_ws1 pv w1 n w2 bd X cs :
  spaces w1 -> wfName n -> spaces w2 -> firstAt FILE_END bd ->
  rmatch false R_ws1 (Pos pv (w1 ++ n ++ w2 ++ STARS ++ bd ++ FILE_END ++ X)) cs K0
  = Some (Pos (Some "*"%char) X, <[1 := Some bd]> (<[0 := Some n]> cs)).
Proof.
  intros Hw1 Hn Hw2 Hbd. unfold R_ws1. rewrite rmatch_seq. unfold RSpace.
  rewrite rmatch_set_greedy. destruct n as [|a n].
  - rewrite app_nil_l, app_assoc. apply greedy_star_all.
    + apply spaces_set_mem. by apply Forall_app.
    + done.
    + cbv beta. apply (match_name _ [] [] bd X cs Hn); [constructor|done].
  - apply greedy_star_all.
    + by apply spaces_set_mem.
    + cbn [app]. rewrite set_mem_space. destruct Hn as (_ & Hh & _). by apply Hh.
    + cbv beta. by apply match_name.
Qed.

(** A well-formed block is matched whole, with its file name and body as
    captures. *)
Lemma match_block pv b X :
  wfBlock b ->
  match_at delimiterRegex
    (Pos pv (FILE_START ++ leading b ++ filename b ++ trailing b ++ STARS ++
             body b ++ FILE_END ++ X))
  = Some (Pos (Some "*"%char) X, [Some (filename b); Some (body b)]).
Proof.
  intros [? ? ? ? ?]. unfold match_at. rewrite delimiter_re.
  change (ignoreCase delimiterRegex) with false.
  rewrite rmatch_lit_app. by rewrite match_ws1.
Qed.

Lemma FILE_START_nonempty : FILE_START <> [].
Proof. done. Qed.

Lemma renderBlock_eq b X :
  renderBlock b ++ X
  = FILE_START ++ leading b ++ filename b ++ trailing b ++ STARS ++
    body b ++ FILE_END ++ (prose b ++ X).
Proof. unfold renderBlock. by rewrite <- !app_assoc. Qed.

Lemma render_cons intro b bs :
  render intro (b :: bs)
  = intro ++ FILE_START ++ leading b ++ filename b ++ trailing b ++ STARS ++
    body b ++ FILE_END ++ render (prose b) bs.
Proof. unfold render. cbn [map concat]. by rewrite renderBlock_eq. Qed.

Lemma render_nil intro : render intro [] = intro.
Proof. unfold render. simpl. by rewrite app_nil_r. Qed.

Lemma length_render intro bs : length bs <= length (render intro bs).
Proof.
  revert intro; induction bs as [|b bs IH]; intros intro; [simpl; lia|].
  rewrite render_cons. specialize (IH (prose b)).
  rewrite !length_app. change (length FILE_START) with 14. simpl. lia.
Qed.

Lemma between_prefix_nonempty pv pv' (u Y X : str) :
  u <> [] -> length X <= length Y -> between (Pos pv (u ++ Y)) (Pos pv' X) <> [].
Proof.
  intros Hu H. unfold between. cbn [rest]. destruct u as [|a u]; [done|].
  cbn [app length]. destruct (S (length (u ++ Y)) - length X) eqn:E; [|done].
  rewrite length_app in E. lia.
Qed.

(** The search passes over prose and stops at the next block. *)
Lemma search_block i pv intro b bs :
  firstAt FILE_START intro -> wfBlock b ->
  exists m,
    search delimiterRegex i pv (render intro (b :: bs)) = Some m
    /\ captures m = [Some (filename b); Some (body b)]
    /\ matched m <> []
    /\ after m = Pos (Some "*"%char) (render (prose b) bs).
Proof.
  intros Hintro Hb. rewrite render_cons, search_skip.
  - eexists. split; [apply search_hit, (match_block _ b); done|].
    cbn [captures matched after]. split; [done|]. split; [|done].
    apply between_prefix_nonempty; [done|]. rewrite !length_app. lia.
  - intros j Hj. eapply match_at_lit_fail; [apply delimiter_re|done|].
    by apply firstAt_fail.
Qed.

Lemma search_prose i pv intro :
  firstAt FILE_START intro -> search delimiterRegex i pv intro = None.
Proof.
  intros H. apply search_none. intros j _.
  eapply match_at_lit_fail; [apply delimiter_re|done|].
  by apply firstAt_absent.
Qed.

Lemma exec_loop_blocks bs : forall fuel i pv intro,
  firstAt FILE_START intro -> Forall wfBlock bs -> length bs < fuel ->
  map captures (exec_loop fuel delimiterRegex i pv (render intro bs))
  = map (fun b => [Some (filename b); Some (body b)]) bs.
Proof.
  induction bs as [|b bs IH]; intros [|fuel] i pv intro Hintro Hbs Hf; simpl in Hf; try lia.
  - rewrite render_nil. cbn [exec_loop]. by rewrite search_prose.
  - inversion_clear Hbs as [|?? Hb Hbs'].
    destruct (search_block i pv intro b bs Hintro Hb) as (m & Hs & Hc & Hm & Ha).
    cbn [exec_loop]. rewrite Hs. cbn [map]. rewrite Hc. f_equal.
    destruct (matched m) as [|c mm]; [done|]. rewrite Ha. cbn [prev rest].
    apply IH; [by destruct Hb|done|lia].
Qed.

(** *** Trimming *)

Lemma trimStart_id s :
  (forall a, head s = Some a -> Str.is_space a = false) -> Str.trimStart s = s.
Proof. destruct s as [|a s]; [done|]. intros H. simpl. by rewrite (H a). Qed.

Lemma trimEnd_id s :
  (forall a, last s = Some a -> Str.is_space a = false) -> Str.trimEnd s = s.
Proof.
  intros H. unfold Str.trimEnd. rewrite trimStart_id, reverse_involutive; [done|].
  intros a. rewrite head_reverse. apply H.
Qed.

Lemma trim_wfName n : wfName n -> Str.trim n = n.
Proof.
  intros (_ & Hh & Hl). unfold Str.trim. rewrite (trimStart_id n Hh). by apply trimEnd_id.
Qed.

Lemma primaryFile_block m b :
  wfBlock b -> captures m = [Some (filename b); Some (body b)] ->
  primaryFile m = artifactOf b.
Proof.
  intros Hb Hc. unfold primaryFile, artifactOf, group_str, group. rewrite Hc.
  cbn [lookup list_lookup default]. rewrite trim_wfName by apply Hb. done.
Qed.

Lemma primaryFiles_blocks ms bs :
  Forall wfBlock bs ->
  map captures ms = map (fun b => [Some (filename b); Some (body b)]) bs ->
  map primaryFile ms = map artifactOf bs.
Proof.
  revert ms; induction bs as [|b bs IH]; intros [|m ms] Hbs H; simpl in *; try done.
  inversion_clear Hbs as [|?? Hb Hbs']. injection H as Hm Hms.
  f_equal; [by apply primaryFile_block|by apply IH].
Qed.

(** The primary strategy on a well-formed text: one artifact per block,
    in source order. *)
Theorem parse_well_formed intro bs :
  firstAt FILE_START intro -> Forall wfBlock bs -> bs <> [] ->
  parseGeneratedContent (render intro bs) = map artifactOf bs.
Proof.
  intros Hintro Hbs Hne. unfold parseGeneratedContent.
  rewrite (primaryFiles_blocks _ bs Hbs).
  - destruct bs; done.
  - apply exec_loop_blocks; [done|done|]. pose proof (length_render intro bs). lia.
Qed.

(** The language of a file name with an extension. *)
Lemma extension_dot base ext :
  ext <> [] -> Forall (fun a => a <> "."%char) ext ->
  extension (base ++ #"." ++ ext) = Str.toLowerCase ext.
Proof.
  intros Hne Hext. unfold extension, Str.split.
  change (base ++ #"." ++ ext) with (base ++ "."%char :: ext).
  change #"." with ["."%char].
  rewrite split_go_last, split_go_plain by done. cbn [last default reverse app].
  destruct ext as [|a ext]; [done|]. done.
Qed.



End FormatFacts.

(** ** [cleanResponseText] *)

Module StripFacts.
Import Regex StrFacts RegexFacts Parser Format FormatFacts.

Lemma fileBlock_re :
  re fileBlockRegex = RSeq (RLit FILE_START_TOKEN) (RSeq (RStarLazy RAny) R_end).
Proof. reflexivity. Qed.

(** A region is matched whole. *)
Lemma match_region pv r X :
  firstAt FILE_END (inner r) ->
  match_at fileBlockRegex (Pos pv (FILE_START_TOKEN ++ inner r ++ FILE_END ++ X))
  = Some (Pos (Some "*"%char) X, []).
Proof.
  intros Hin. unfold match_at. rewrite fileBlock_re.
  change (ignoreCase fileBlockRegex) with false.
  rewrite rmatch_lit_app, rmatch_seq. unfold RAny. rewrite rmatch_set_lazy.
  apply lazy_star_first.
  - apply Forall_any.
  - intros i Hi. unfold R_end. apply rmatch_lit_fail. by apply firstAt_fail.
  - unfold R_end. by rewrite rmatch_lit_app, rmatch_empty.
Qed.

Lemma renderRegions_cons intro r rs :
  renderRegions intro (r :: rs)
  = intro ++ FILE_START_TOKEN ++ inner r ++ FILE_END ++ renderRegions (rprose r) rs.
Proof. unfold renderRegions, renderRegion. cbn [map concat]. by rewrite <- !app_assoc. Qed.

Lemma renderRegions_nil intro : renderRegions intro [] = intro.
Proof. unfold renderRegions. simpl. by rewrite app_nil_r. Qed.

Lemma proseOf_cons intro r rs : proseOf intro (r :: rs) = intro ++ proseOf (rprose r) rs.
Proof. done. Qed.

Lemma proseOf_nil intro : proseOf intro [] = intro.
Proof. unfold proseOf. simpl. by rewrite app_nil_r. Qed.

Lemma length_renderRegions intro rs : length rs <= length (renderRegions intro rs).
Proof.
  revert intro; induction rs as [|r rs IH]; intros intro; [simpl; lia|].
  rewrite renderRegions_cons. specialize (IH (rprose r)).
  rewrite !length_app. change (length FILE_START_TOKEN) with 13. simpl. lia.
Qed.

Lemma search_region pv intro r rs :
  firstAt FILE_START_TOKEN intro -> wfRegion r ->
  exists m,
    search fileBlockRegex 0 pv (renderRegions intro (r :: rs)) = Some m
    /\ index m = length intro
    /\ matched m <> []
    /\ after m = Pos (Some "*"%char) (renderRegions (rprose r) rs).
Proof.
  intros Hintro [Hin Hpr]. rewrite renderRegions_cons, search_skip.
  - eexists. split; [apply search_hit, (match_region _ r); done|].
    cbn [index matched after]. split; [done|]. split; [|done].
    apply between_prefix_nonempty; [done|]. rewrite !length_app. lia.
  - intros j Hj. eapply match_at_lit_fail; [apply fileBlock_re|done|].
    by apply firstAt_fail.
Qed.

Lemma search_no_region pv intro :
  firstAt FILE_START_TOKEN intro -> search fileBlockRegex 0 pv intro = None.
Proof.
  intros H. apply search_none. intros j _.
  eapply match_at_lit_fail; [apply fileBlock_re|done|].
  by apply firstAt_absent.
Qed.

Lemma replace_loop_regions (f : unit -> mtch -> unit * str) rs :
  (forall st m, f st m = (tt, [])) ->
  forall fuel pv intro,
  firstAt FILE_START_TOKEN intro -> Forall wfRegion rs -> length rs < fuel ->
  replace_loop fuel fileBlockRegex f tt pv (renderRegions intro rs)
  = (tt, proseOf intro rs).
Proof.
  intros Hf. induction rs as [|r rs IH]; intros [|fuel] pv intro Hintro Hrs Hfuel;
    simpl in Hfuel; try lia.
  - rewrite renderRegions_nil, proseOf_nil. cbn [replace_loop]. by rewrite search_no_region.
  - inversion_clear Hrs as [|?? Hr Hrs'].
    destruct (search_region pv intro r rs Hintro Hr) as (m & Hs & Hi & Hm & Ha).
    cbn [replace_loop]. rewrite Hs, Hf.
    destruct (matched m) as [|c mm]; [done|]. rewrite Ha. cbn [prev rest].
    rewrite IH; [|by destruct Hr|done|lia].
    rewrite Hi, renderRegions_cons, take_app_length, proseOf_cons. done.
Qed.

(** *** What trimming keeps *)

Lemma trimStart_suffix s : exists w, s = w ++ Str.trimStart s.
Proof.
  induction s as [|a s [w IH]]; [by exists []|]. simpl.
  destruct (Str.is_space a); [|by exists []].
  exists (a :: w). simpl. by f_equal.
Qed.

Lemma trim_infix s : exists w1 w2, s = w1 ++ Str.trim s ++ w2.
Proof.
  destruct (trimStart_suffix s) as [w1 H1].
  destruct (trimStart_suffix (reverse (Str.trimStart s))) as [w2 H2].
  exists w1, (reverse w2). unfold Str.trim, Str.trimEnd.
  rewrite <- reverse_app, <- H2, reverse_involutive. done.
Qed.

Lemma includes_true p s j : Str.startsWith p (drop j s) = true -> Str.includes p s = true.
Proof.
  intros H. unfold Str.includes. destruct (Str.indexOf p s) eqn:E; [done|].
  by rewrite (indexOf_None _ _ E j) in H.
Qed.

Lemma includes_infix p a x b :
  Str.includes p (a ++ x ++ b) = false -> Str.includes p x = false.
Proof.
  intros H. destruct (Str.includes p x) eqn:E; [|done].
  unfold Str.includes in E. destruct (Str.indexOf p x) as [i|] eqn:Ei; [|done].
  apply indexOf_Some_lt in Ei as [Hi _].
  rewrite <- H. symmetry. apply (includes_true _ _ (length a + i)).
  rewrite drop_app_add'; [|done]. destruct (decide (i <= length x)).
  - rewrite drop_app_le by done. by apply startsWith_extend.
  - rewrite drop_ge in Hi by lia. destruct p; [done|]. done.
Qed.

(** C5 (amended).  For every text made of prose and complete regions
    (each from an opening token to the first closing marker after it, no
    opening token beginning inside the prose), [cleanResponseText] returns
    the trimmed concatenation of the prose, and the residual contains no
    token that this concatenation does not contain. *)
Theorem strip_regions intro rs :
  firstAt FILE_START_TOKEN intro -> Forall wfRegion rs ->
  cleanResponseText (renderRegions intro rs) = Str.trim (proseOf intro rs)
  /\ forall tok, Str.includes tok (proseOf intro rs) = false ->
       Str.includes tok (cleanResponseText (renderRegions intro rs)) = false.
Proof.
  intros Hintro Hrs.
  assert (cleanResponseText (renderRegions intro rs) = Str.trim (proseOf intro rs)) as E.
  { unfold cleanResponseText, replace_all, replace_all_with, replace_all_fold.
    rewrite replace_loop_regions; [done|done|done|done|].
    pose proof (length_renderRegions intro rs). lia. }
  split; [done|]. intros tok Htok. rewrite E.
  destruct (trim_infix (proseOf intro rs)) as (w1 & w2 & Hw).
  rewrite Hw in Htok. by apply includes_infix in Htok.
Qed.

End StripFacts.

(** ** The fallback strategy *)

Module FallbackFacts.
Import Regex StrFacts RegexFacts Parser Format FormatFacts StripFacts.

(** The matcher of a one-character literal. *)
Lemma rmatch_lit1 c x cs k :
  rmatch false (RLit [c]) x cs k = charm (Str.ceqb c) x cs k.
Proof.
  unfold charm. simpl. destruct (rest x) as [|a t]; [done|]. by destruct (Str.ceqb c a).
Qed.

Lemma repeat_three (m : matcher) P fuel pv s cs k :
  (forall x cs k, m x cs k = charm P x cs k) ->
  repeat (S (S (S fuel))) m [] 3 None true (Pos pv s) cs k
  = match s with
    | a :: b :: c :: t =>
        if P a && P b && P c
        then repeat fuel m [] 0 None true (Pos (Some c) t) cs k else None
    | _ => None
    end.
Proof.
  intros Hm.
  destruct s as [|a [|b [|c t]]];
    rewrite repeat_required, Hm; unfold charm at 1; cbn [rest clear foldr]; try done;
    destruct (P a); try done; unfold advance;
    rewrite repeat_required, Hm; unfold charm at 1; cbn [rest clear foldr]; try done;
    destruct (P b); try done; unfold advance;
    rewrite repeat_required, Hm; unfold charm at 1; cbn [rest clear foldr]; try done;
    by destruct (P c).
Qed.

Lemma fenceRun_eq pv s cs k :
  rmatch false fenceRun (Pos pv s) cs k
  = match s with
    | a :: b :: c :: t =>
        if Str.ceqb bq a && Str.ceqb bq b && Str.ceqb bq c
        then greedy_star (Str.ceqb bq) (Some c) t cs k else None
    | _ => None
    end.
Proof.
  change (rmatch false fenceRun (Pos pv s) cs k)
    with (repeat (S (S (S (S (length s))))) (rmatch false (RLit [bq])) [] 3 None true
            (Pos pv s) cs k).
  rewrite (repeat_three _ (Str.ceqb bq)) by apply rmatch_lit1.
  destruct s as [|a [|b [|c t]]]; try done.
  destruct (Str.ceqb bq a && Str.ceqb bq b && Str.ceqb bq c); [|done].
  apply repeat_greedy_star; [apply rmatch_lit1|simpl; lia].
Qed.

Lemma fenceRun_fail pv s cs k :
  Str.startsWith FENCE s = false -> rmatch false fenceRun (Pos pv s) cs k = None.
Proof.
  intros H. rewrite fenceRun_eq. destruct s as [|a [|b [|c t]]]; try done.
  cbn [Str.startsWith FENCE] in H. rewrite andb_true_r, andb_assoc in H. by rewrite H.
Qed.

Lemma fenceRun_hit pv a t cs k :
  a <> bq ->
  rmatch false fenceRun (Pos pv (FENCE ++ a :: t)) cs k = k (Pos (Some bq) (a :: t)) cs.
Proof.
  intros Ha. rewrite fenceRun_eq. cbn [FENCE app]. rewrite !ceqb_refl. cbn [andb greedy_star].
  replace (Str.ceqb bq a) with false; [done|]. symmetry. apply ceqb_neq. congruence.
Qed.

Lemma codeBlock_re : re codeBlockRegex = RSeq (RGroup 0 fenceRun) R_tag.
Proof. reflexivity. Qed.

Lemma rmatch_backref n v r pv s (cs : caps) k :
  cs !! n = Some (Some v) ->
  rmatch false (RSeq (RBackref n) r) (Pos pv s) cs k
  = rmatch false (RSeq (RLit v) r) (Pos pv s) cs k.
Proof. intros H. simpl. by rewrite H. Qed.

Lemma match_at_codeBlock_fail pv s :
  Str.startsWith FENCE s = false -> match_at codeBlockRegex (Pos pv s) = None.
Proof.
  intros H. unfold match_at. rewrite codeBlock_re.
  change (ignoreCase codeBlockRegex) with false.
  rewrite rmatch_seq, rmatch_group. by apply fenceRun_fail.
Qed.

Lemma match_cbody pv bd X (cs : caps) :
  cs !! 0 = Some (Some FENCE) -> length cs = 3 -> firstAt FENCE bd ->
  rmatch false R_cbody (Pos pv (bd ++ FENCE ++ X)) cs K0
  = Some (Pos (Some bq) X, <[2 := Some bd]> cs).
Proof.
  intros Hcs Hlen Hbd. unfold R_cbody. rewrite rmatch_seq, rmatch_group.
  unfold RAny. rewrite rmatch_set_lazy.
  assert (forall v, <[2 := v]> cs !! 0 = Some (Some FENCE)) as Hcs'.
  { intros v. by rewrite list_lookup_insert_ne. }
  apply lazy_star_first.
  - apply Forall_any.
  - intros i Hi. unfold R_close_fence. rewrite (rmatch_backref _ FENCE) by apply Hcs'.
    apply rmatch_lit_fail. by apply firstAt_fail.
  - unfold R_close_fence. rewrite (rmatch_backref _ FENCE) by apply Hcs'.
    rewrite rmatch_lit_app, rmatch_empty. unfold K0. by rewrite between_app.
Qed.

Lemma match_codeBlock pv bd X :
  firstAt FENCE bd ->
  match_at codeBlockRegex (Pos pv (FENCE ++ #"js" ++ nl ++ bd ++ FENCE ++ X))
  = Some (Pos (Some bq) X, [Some FENCE; Some #"js"; Some bd]).
Proof.
  intros Hbd. unfold match_at. rewrite codeBlock_re.
  change (ignoreCase codeBlockRegex) with false.
  change (ngroups codeBlockRegex) with 3.
  rewrite rmatch_seq, rmatch_group.
  change (#"js" ++ nl ++ bd ++ FENCE ++ X)
    with ("j"%char :: ("s"%char :: nl ++ bd ++ FENCE ++ X)).
  rewrite fenceRun_hit by done.
  rewrite (between_app _ _ FENCE).
  unfold R_tag. rewrite rmatch_seq, rmatch_group. unfold tagClass.
  rewrite rmatch_set_greedy.
  change ("j"%char :: "s"%char :: nl ++ bd ++ FENCE ++ X)
    with (#"js" ++ nl ++ bd ++ FENCE ++ X).
  apply greedy_star_all.
  - by repeat constructor.
  - done.
  - rewrite (between_app _ _ #"js"). unfold R_nl. rewrite rmatch_lit_app.
    rewrite match_cbody; done.
Qed.

(** *** Occurrences of the fence before the block *)

Lemma no_fence_before pre mid X j :
  Str.includes FENCE pre = false ->
  mid <> [] -> Forall (fun a => a <> bq) mid ->
  j < length (pre ++ mid) ->
  Str.startsWith FENCE (drop j (pre ++ mid) ++ X) = false.
Proof.
  intros Hpre Hne Hmid Hj. rewrite length_app in Hj.
  destruct (decide (length pre <= j)) as [Hge|Hlt].
  - rewrite drop_app_ge by done.
    destruct (drop (j - length pre) mid) as [|c v] eqn:Hd.
    { apply (f_equal length) in Hd. rewrite length_drop in Hd. simpl in Hd. lia. }
    assert (c ∈ mid) as Hin.
    { apply (list_elem_of_lookup_2 _ (j - length pre)).
      rewrite <- (Nat.add_0_r (j - length pre)), <- lookup_drop, Hd. done. }
    rewrite Forall_forall in Hmid. specialize (Hmid c Hin).
    apply startsWith_cons_neq. congruence.
  - rewrite drop_app_le by lia.
    pose proof (includes_false _ _ Hpre j) as Hd.
    destruct mid as [|m0 mid']; [done|]. inversion_clear Hmid as [|?? Hm0 _].
    assert (Str.ceqb bq m0 = false) as Hm by (apply ceqb_neq; congruence).
    destruct (drop j pre) as [|a [|b [|c d]]] eqn:E.
    + apply (f_equal length) in E. rewrite length_drop in E. simpl in E. lia.
    + cbn [app Str.startsWith FENCE]. by rewrite Hm, andb_false_r.
    + cbn [app Str.startsWith FENCE]. by rewrite Hm, !andb_false_r.
    + cbn [app Str.startsWith FENCE] in *. done.
Qed.

(** *** The last line before the block *)

Lemma trimStart_app u v :
  Str.trimStart (u ++ v)
  = match Str.trimStart u with [] => Str.trimStart v | _ :: _ => Str.trimStart u ++ v end.
Proof.
  induction u as [|a u IH]; [done|]. simpl. by destruct (Str.is_space a).
Qed.

Lemma trimEnd_snoc_space s c :
  Str.is_space c = true -> Str.trimEnd (s ++ [c]) = Str.trimEnd s.
Proof. intros H. unfold Str.trimEnd. rewrite reverse_snoc. simpl. by rewrite H. Qed.

Lemma last_line pre :
  pre = [] \/ (exists pre', pre = pre' ++ nl) ->
  last (Str.split nl (Str.trim (pre ++ LABEL ++ nl))) = Some LABEL.
Proof.
  intros Hpre. unfold Str.trim. rewrite trimStart_app.
  assert (Str.trimEnd (LABEL ++ nl) = LABEL) as E1.
  { by vm_compute. }
  assert (Forall (fun a => a <> "010"%char) LABEL) as Hlab by (by repeat constructor).
  destruct (Str.trimStart pre) as [|a p1] eqn:Ep.
  - change (Str.trimStart (LABEL ++ nl)) with (LABEL ++ nl). rewrite E1.
    unfold Str.split, nl. by rewrite split_go_plain.
  - destruct Hpre as [->|[pre' ->]]; [done|].
    destruct (trimStart_suffix (pre' ++ nl)) as [w Hw]. rewrite Ep in Hw.
    assert (exists p1', a :: p1 = p1' ++ nl) as [p1' Hp1].
    { apply last_Some. rewrite <- (last_snoc "010"%char pre').
      fold nl. rewrite Hw, last_app. by destruct (last (a :: p1)) eqn:El;
        [|apply last_None in El]. }
    rewrite Hp1, <- !app_assoc.
    replace (p1' ++ nl ++ LABEL ++ nl) with ((p1' ++ nl ++ LABEL) ++ nl)
      by (by rewrite <- !app_assoc).
    change ((p1' ++ nl ++ LABEL) ++ nl) with ((p1' ++ nl ++ LABEL) ++ ["010"%char]).
    rewrite trimEnd_snoc_space by done.
    rewrite trimEnd_id.
    + unfold Str.split, nl. cbn [app]. rewrite split_go_last. by rewrite split_go_plain.
    + intros c. rewrite !last_app. by intros [= <-].
Qed.

Lemma label_match :
  match exec fileLabelRegex LABEL with
  | Some m => Some m
  | None => exec bareNameRegex LABEL
  end = Some (Mtch 0 LABEL [Some #"app.js"] (Pos (Some "s"%char) [])).
Proof. by vm_compute. Qed.

Lemma fallbackFile_labelled u tail n m bd :
  captures m = [Some FENCE; Some #"js"; Some bd] ->
  index m = length u ->
  last (Str.split nl (Str.trim u)) = Some LABEL ->
  fallbackFile (u ++ tail) n m = mkFile #"app.js" #"js" (Str.trim bd).
Proof.
  intros Hc Hi Hl. unfold fallbackFile, group_str, group, Str.substring0.
  rewrite Hc, Hi, take_app_length. cbn [lookup list_lookup default].
  fold nl. rewrite Hl. fold LABEL. rewrite label_match. done.
Qed.

Lemma exec_loop_none fuel p i pv s :
  0 < fuel -> search p i pv s = None -> exec_loop fuel p i pv s = [].
Proof. intros Hf Hs. destruct fuel; [lia|]. cbn [exec_loop]. by rewrite Hs. Qed.

Lemma exec_codeBlock pre bd post :
  Str.includes FENCE pre = false -> firstAt FENCE bd -> Str.includes FENCE post = false ->
  exists m,
    exec_all codeBlockRegex
      ((pre ++ LABEL ++ nl) ++ FENCE ++ #"js" ++ nl ++ bd ++ FENCE ++ post) = [m]
    /\ captures m = [Some FENCE; Some #"js"; Some bd]
    /\ index m = length (pre ++ LABEL ++ nl).
Proof.
  intros Hpre Hbd Hpost. unfold exec_all. cbn [exec_loop].
  rewrite search_skip.
  - erewrite search_hit by (by apply match_codeBlock).
    match goal with |- exists m, ?x :: ?t = [m] /\ _ => exists x; assert (t = []) as -> end;
      [|done].
    cbn [matched index after prev rest].
    destruct (between _ _) eqn:Eb.
    { exfalso. revert Eb. apply between_prefix_nonempty; [done|].
      rewrite !length_app. lia. }
    apply exec_loop_none.
    + rewrite !length_app. change (length FENCE) with 3. lia.
    + apply search_none. intros j _.
      apply match_at_codeBlock_fail. by apply includes_false.
  - intros j Hj. apply match_at_codeBlock_fail.
    apply (no_fence_before pre (LABEL ++ nl)); [done|done| |done].
    by repeat constructor.
Qed.

(** C9.  For every text in which no primary block is found and in which
    one fenced block tagged [js] appears, closed by the first fence after
    its opening line and immediately preceded by the line
    [filename: app.js], the fallback yields exactly one artifact, of name
    [app.js] and language [js]. *)
Theorem fallback_labelled pre bd post :
  exec_all delimiterRegex
    (pre ++ #"filename: app.js" ++ nl ++ #"```js" ++ nl ++ bd ++ #"```" ++ post) = [] ->
  pre = [] \/ (exists pre', pre = pre' ++ nl) ->
  Str.includes #"```" pre = false ->
  firstAt #"```" bd ->
  Str.includes #"```" post = false ->
  parseGeneratedContent
    (pre ++ #"filename: app.js" ++ nl ++ #"```js" ++ nl ++ bd ++ #"```" ++ post)
  = [mkFile #"app.js" #"js" (Str.trim bd)].
Proof.
  intros Hprim Hline Hpre Hbd Hpost. unfold parseGeneratedContent. rewrite Hprim.
  cbn [map].
  change (pre ++ #"filename: app.js" ++ nl ++ #"```js" ++ nl ++ bd ++ #"```" ++ post)
    with (pre ++ LABEL ++ nl ++ FENCE ++ #"js" ++ nl ++ bd ++ FENCE ++ post).
  replace (pre ++ LABEL ++ nl ++ FENCE ++ #"js" ++ nl ++ bd ++ FENCE ++ post)
    with ((pre ++ LABEL ++ nl) ++ FENCE ++ #"js" ++ nl ++ bd ++ FENCE ++ post)
    by (by rewrite <- !app_assoc).
  destruct (exec_codeBlock pre bd post Hpre Hbd Hpost) as (m & -> & Hc & Hi).
  cbn [fallbackFiles]. f_equal.
  apply fallbackFile_labelled; [done|done|]. by apply last_line.
Qed.

Lemma fallback_labelled_witness :
  parseGeneratedContent
    (#"The script:" ++ nl ++ #"filename: app.js" ++ nl ++ #"```js" ++ nl ++
     (#"let x = 1;" ++ nl) ++ #"```" ++ nl)
  = [mkFile #"app.js" #"js" (Str.trim (#"let x = 1;" ++ nl))].
Proof.
  apply (fallback_labelled (#"The script:" ++ nl) (#"let x = 1;" ++ nl) nl).
  - by vm_compute.
  - right. by exists #"The script:".
  - by vm_compute.
  - by vm_compute.
  - by vm_compute.
Defined.

End FallbackFacts.

(** ** The input array is left as it was *)

Module HeapFacts.
Import Compiler Heap.

Lemma preserves_refl σ : preserves σ σ.
Proof. by intros l v. Qed.

Lemma preserves_trans σ1 σ2 σ3 : preserves σ1 σ2 -> preserves σ2 σ3 -> preserves σ1 σ3.
Proof. intros H1 H2 l v H. by apply H2, H1. Qed.

Lemma read_spec σ a v : σ !! a = Some v -> read a σ = (v, σ).
Proof. intros H. unfold read. by rewrite H. Qed.

Lemma alloc_spec σ v :
  exists l, alloc v σ = (l, <[l := v]> σ) /\ σ !! l = None.
Proof.
  exists (fresh (dom σ)). split; [done|].
  apply not_elem_of_dom, is_fresh.
Qed.

Lemma preserves_insert_fresh σ l v : σ !! l = None -> preserves σ (<[l := v]> σ).
Proof.
  intros Hl l' v' H. rewrite lookup_insert_ne; [done|]. intros ->. congruence.
Qed.

Lemma arr_find_spec p a σ v :
  σ !! a = Some v -> arr_find p a σ = (List.find p v, σ).
Proof. intros H. unfold arr_find, mbind, M_bind. by rewrite (read_spec _ _ v). Qed.

Lemma arr_some_spec p a σ v :
  σ !! a = Some v -> arr_some p a σ = (existsb p v, σ).
Proof. intros H. unfold arr_some, mbind, M_bind. by rewrite (read_spec _ _ v). Qed.

Lemma arr_length_spec a σ v :
  σ !! a = Some v -> arr_length a σ = (length v, σ).
Proof. intros H. unfold arr_length, mbind, M_bind. by rewrite (read_spec _ _ v). Qed.

Lemma arr_map_spec {B} (f : GeneratedFile -> B) a σ v :
  σ !! a = Some v -> arr_map f a σ = (map f v, σ).
Proof. intros H. unfold arr_map, mbind, M_bind. by rewrite (read_spec _ _ v). Qed.

Lemma arr_process_spec a σ v :
  σ !! a = Some v -> arr_process a σ = (processAll (LinkState [] false) v, σ).
Proof. intros H. unfold arr_process, mbind, M_bind. by rewrite (read_spec _ _ v). Qed.

Lemma arr_filter_spec p a σ v :
  σ !! a = Some v ->
  exists l, arr_filter p a σ = (l, <[l := List.filter p v]> σ) /\ σ !! l = None.
Proof.
  intros H. unfold arr_filter, mbind, M_bind. rewrite (read_spec _ _ v) by done.
  apply alloc_spec.
Qed.

Lemma arr_sort_spec a σ v :
  σ !! a = Some v -> arr_sort a σ = (a, <[a := sortByScore v]> σ).
Proof. intros H. unfold arr_sort, mbind, M_bind. by rewrite (read_spec _ _ v). Qed.

Lemma filter_nil_length {A} (p : A -> bool) l :
  match length (List.filter p l) with 0 => List.filter p l = [] | S _ => List.filter p l <> [] end.
Proof. by destruct (List.filter p l). Qed.

(** C10.  Running [assemblePreviewM] on an array that holds [fs] returns
    the document of [assemblePreview fs] and leaves the input array as it
    was, the same artifacts in the same order, like every other array of
    the initial store: the sort writes only the array that
    [files.filter] allocated. *)
Theorem assemblePreviewM_frame σ files fs :
  σ !! files = Some fs ->
  exists σ1,
    assemblePreviewM files σ = (assemblePreview fs, σ1)
    /\ σ1 !! files = Some fs
    /\ preserves σ σ1.
Proof.
  intros Hfs. unfold assemblePreviewM, mbind, M_bind.
  rewrite !(arr_find_spec _ _ _ fs Hfs).
  destruct (arr_filter_spec isCss files σ fs Hfs) as (lc & -> & Hlc).
  assert (<[lc := List.filter isCss fs]> σ !! files = Some fs) as Hfs1.
  { rewrite lookup_insert_ne; [done|]. intros ->. congruence. }
  destruct (arr_filter_spec isJs files _ fs Hfs1) as (lj & -> & Hlj).
  set (σ2 := <[lj := List.filter isJs fs]> (<[lc := List.filter isCss fs]> σ)).
  assert (σ2 !! files = Some fs) as Hfs2.
  { unfold σ2. rewrite lookup_insert_ne; [done|]. intros ->. congruence. }
  assert (σ2 !! lj = Some (List.filter isJs fs)) as Hj2.
  { unfold σ2. by rewrite lookup_insert_eq. }
  assert (σ2 !! lc = Some (List.filter isCss fs)) as Hc2.
  { unfold σ2. rewrite lookup_insert_ne; [by rewrite lookup_insert_eq|].
    intros ->. rewrite lookup_insert_eq in Hlj. done. }
  assert (preserves σ σ2) as Hpres.
  { eapply preserves_trans; [apply (preserves_insert_fresh _ lc); done|].
    by apply preserves_insert_fresh. }
  assert (lj <> files) as Hne by (intros ->; congruence).
  rewrite !(arr_find_spec _ _ _ fs Hfs2).
  rewrite (arr_length_spec _ _ _ Hj2).
  rewrite (arr_some_spec _ _ _ _ Hj2).
  assert (σ !! lj = None) as Hlj0.
  { destruct (decide (lj = lc)) as [->|Hn]; [by rewrite lookup_insert_eq in Hlj|].
    by rewrite lookup_insert_ne in Hlj. }
  unfold assemblePreview, Compiler.isNative, Compiler.isReact.
  set (pf := List.find isPreviewHtml fs). set (hf := List.find isHtml fs).
  set (nf := List.find isNativeFile fs). set (lf := List.find isLiquid fs).
  destruct (List.filter isJs fs) as [|j0 js] eqn:Ejs.
  - (* no script: the native or the vanilla branch *)
    cbn [length existsb].
    destruct pf, hf, nf; cbn iota;
      try (rewrite (arr_map_spec _ _ _ _ Hc2));
      exists σ2; (split; [reflexivity|by split]).
  - cbn [length].
    assert (forall X Y : M str,
      (if match pf with
          | Some _ => fun _ _ : option GeneratedFile => false
          | None => fun htmlFile nativeFile : option GeneratedFile =>
              match htmlFile with
              | Some _ | _ => fun _ : option GeneratedFile => false
              end nativeFile
          end hf nf then X else Y) = Y) as -> by (by destruct pf, hf).
    assert (forall X Y : str,
      (if match pf with
          | Some _ => false
          | None => match hf with Some _ | _ => false end
          end then X else Y) = Y) as -> by (by destruct pf, hf).
    rewrite (arr_map_spec _ _ _ _ Hc2).
    destruct (existsb hasReactSignature (j0 :: js)) eqn:Er.
    + rewrite (arr_some_spec _ _ _ _ Hj2), (arr_sort_spec _ _ _ Hj2).
      rewrite (arr_process_spec _ _ (sortByScore (j0 :: js))) by apply lookup_insert_eq.
      exists (<[lj := sortByScore (j0 :: js)]> σ2). split; [|split].
      * unfold reactAssembly, linkScripts.
        by destruct (processAll _ _) as [st parts].
      * by rewrite lookup_insert_ne.
      * intros l v Hl. rewrite lookup_insert_ne; [by apply Hpres|].
        intros E. rewrite <- E in Hl. congruence.
    + rewrite (arr_map_spec _ _ _ _ Hj2). exists σ2. by split.
Qed.

End HeapFacts.

(** ** Classification *)

Module ClassifyFacts.
Import Regex Compiler.

Lemma find_existsb {A} (p : A -> bool) l :
  existsb p l = match List.find p l with Some _ => true | None => false end.
Proof. induction l as [|a l IH]; simpl; [done|]. by destruct (p a). Qed.

Lemma filter_existsb {A} (p : A -> bool) l :
  existsb p l = match List.filter p l with [] => false | _ :: _ => true end.
Proof. induction l as [|a l IH]; simpl; [done|]. by destruct (p a). Qed.

Lemma existsb_filter {A} (p q : A -> bool) l :
  existsb q (List.filter p l) = existsb (fun x => p x && q x) l.
Proof.
  induction l as [|a l IH]; simpl; [done|].
  destruct (p a); simpl; by rewrite IH.
Qed.

Lemma isNative_eq files :
  isNative files
  = negb (existsb isPreviewHtml files) && negb (existsb isHtml files)
    && negb (existsb isJs files) && existsb isNativeFile files.
Proof.
  unfold isNative. rewrite (filter_existsb isJs), (find_existsb isPreviewHtml),
    (find_existsb isHtml), (find_existsb isNativeFile).
  by destruct (List.find isPreviewHtml files), (List.find isHtml files),
    (List.filter isJs files), (List.find isNativeFile files).
Qed.

Lemma isReact_eq files :
  isReact files = existsb (fun f => isJs f && hasReactSignature f) files.
Proof. apply existsb_filter. Qed.

(** C2 (amended).  For every list of artifacts the kind follows the
    precedence: [native] if there is no [preview.html], no [.html] file
    and no [js/jsx/ts/tsx] file but a file with a native extension (style
    sheets play no part); else [framework] if a script-family artifact
    holds a React import signature; else [templating] if a [.liquid]
    artifact exists and there is neither a [preview.html] nor a [.html]
    artifact; else [plain].  Each kind is the assembly that
    [assemblePreview] performs. *)
Theorem classify_precedence files :
  let noMarkup := negb (existsb isPreviewHtml files) && negb (existsb isHtml files) in
  let css := map cssPart (List.filter isCss files) in
  let js := List.filter isJs files in
  classify files
  = (if noMarkup && negb (existsb isJs files) && existsb isNativeFile files then native
     else if existsb (fun f => isJs f && hasReactSignature f) files then framework
     else if noMarkup && existsb isLiquid files then templating
     else plain)
  /\ match classify files with
     | native =>
         exists f, List.find isNativeFile files = Some f
                   /\ assemblePreview files = nativeDocument f
     | framework =>
         assemblePreview files
         = reactAssembly
             (baseDocument (List.find isPreviewHtml files) (List.find isHtml files)
                (List.find isLiquid files) true css) js
     | templating =>
         exists f, List.find isLiquid files = Some f
                   /\ assemblePreview files
                      = vanillaAssembly (baseDocument None None (Some f) false css) js
     | plain =>
         assemblePreview files
         = vanillaAssembly
             (baseDocument (List.find isPreviewHtml files) (List.find isHtml files)
                None false css) js
     end.
Proof.
  intros noMarkup css js. split.
  - unfold classify. rewrite isNative_eq, isReact_eq. fold noMarkup.
    destruct (noMarkup && negb (existsb isJs files) && existsb isNativeFile files); [done|].
    destruct (existsb (fun f => isJs f && hasReactSignature f) files); [done|].
    unfold noMarkup. rewrite (find_existsb isPreviewHtml), (find_existsb isHtml),
      (find_existsb isLiquid).
    by destruct (List.find isPreviewHtml files), (List.find isHtml files),
      (List.find isLiquid files).
  - unfold classify, assemblePreview. fold css js.
    destruct (isNative files) eqn:En.
    + unfold isNative in En.
      destruct (List.find isPreviewHtml files), (List.find isHtml files),
        (List.filter isJs files), (List.find isNativeFile files) as [f|]; try done.
      by exists f.
    + assert (forall X Y : str,
        match List.find isNativeFile files with Some f => Y | None => Y end = Y) as E
        by (intros; by destruct (List.find isNativeFile files)).
      destruct (isReact files) eqn:Er.
      { by destruct (List.find isNativeFile files). }
      destruct (List.find isPreviewHtml files) as [pf|] eqn:Epf,
        (List.find isHtml files) as [hf|] eqn:Ehf,
        (List.find isLiquid files) as [lf|] eqn:Elf;
        try (by destruct (List.find isNativeFile files)).
      exists lf. split; [done|]. by destruct (List.find isNativeFile files).
Qed.

End ClassifyFacts.

(** ** Linking *)

Module LinkFacts.
Import Regex StrFacts RegexFacts StripFacts Compiler ClassifyFacts.

(** *** Sorting *)

Lemma insertByScore_perm f l : insertByScore f l ≡ₚ f :: l.
Proof.
  induction l as [|g l IH]; simpl; [done|].
  destruct (getScore (name f) <=? getScore (name g)); [done|].
  rewrite IH. apply Permutation_swap.
Qed.

Lemma sortByScore_perm l : sortByScore l ≡ₚ l.
Proof.
  induction l as [|f l IH]; simpl; [done|].
  rewrite insertByScore_perm. by constructor.
Qed.

Lemma existsb_perm {A} (p : A -> bool) l1 l2 : l1 ≡ₚ l2 -> existsb p l1 = existsb p l2.
Proof.
  induction 1 as [|x l1 l2 _ IH|x y l|l1 l2 l3 _ IH1 _ IH2]; simpl.
  - done.
  - by rewrite IH.
  - by destruct (p x), (p y).
  - by rewrite IH1.
Qed.

(** *** The flag [entryPointExists] *)

Lemma processJs_entry st f :
  entryPointExists (fst (processJs st f)) = hasMountCall f || entryPointExists st.
Proof.
  unfold processJs, hasMountCall.
  destruct (stripModuleSyntax _ _) as [imports body]. simpl.
  by destruct (Str.includes _ (content f) || Str.includes _ (content f)).
Qed.

Lemma processAll_entry l : forall st,
  entryPointExists (fst (processAll st l)) = entryPointExists st || existsb hasMountCall l.
Proof.
  induction l as [|f l IH]; intros st; simpl; [by rewrite orb_false_r|].
  pose proof (processJs_entry st f) as Hf.
  destruct (processJs st f) as [st1 part]. specialize (IH st1).
  destruct (processAll st1 l) as [st2 parts]. simpl in *.
  rewrite IH, Hf. by destruct (hasMountCall f), (entryPointExists st).
Qed.

(** *** Scripts without module syntax *)

Lemma search_absent p lit r pv s :
  re p = RSeq (RLit lit) r -> ignoreCase p = false ->
  Str.includes lit s = false -> search p 0 pv s = None.
Proof.
  intros Hre Hic H. apply search_none. intros j _.
  apply (match_at_lit_fail p lit r); [done|done|]. by apply includes_false.
Qed.

Lemma replace_all_fold_absent {St} p lit r (f : St -> mtch -> St * str) st s :
  re p = RSeq (RLit lit) r -> ignoreCase p = false ->
  Str.includes lit s = false -> replace_all_fold p f st s = (st, s).
Proof.
  intros Hre Hic H. unfold replace_all_fold. cbn [replace_loop].
  by rewrite (search_absent p lit r).
Qed.

Lemma replace_all_absent p lit r tpl s :
  re p = RSeq (RLit lit) r -> ignoreCase p = false ->
  Str.includes lit s = false -> replace_all p tpl s = s.
Proof.
  intros Hre Hic H. unfold replace_all, replace_all_with.
  by rewrite (replace_all_fold_absent p lit r).
Qed.

Lemma stripModuleSyntax_plain imports body :
  Str.includes #"import" body = false -> Str.includes #"export" body = false ->
  stripModuleSyntax imports body = (imports, body).
Proof.
  intros Hi He. unfold stripModuleSyntax.
  rewrite (replace_all_fold_absent importRegex #"import" _ _ _ _ eq_refl eq_refl Hi).
  rewrite (replace_all_fold_absent sideEffectImportRegex #"import" _ _ _ _ eq_refl eq_refl Hi).
  rewrite (replace_all_absent exportDefaultRegex #"export" _ _ _ eq_refl eq_refl He).
  rewrite (replace_all_absent exportRegex #"export" _ _ _ eq_refl eq_refl He).
  done.
Qed.

Lemma includes_app_r p a s : Str.includes p s = true -> Str.includes p (a ++ s) = true.
Proof.
  unfold Str.includes at 1. destruct (Str.indexOf p s) as [i|] eqn:E; [|done]. intros _.
  apply indexOf_Some_lt in E as [E _].
  apply (includes_true _ _ (length a + i)). by rewrite drop_app_add'.
Qed.

Lemma declaresApp_app_r a s : declaresApp s = true -> declaresApp (a ++ s) = true.
Proof.
  unfold declaresApp. rewrite !orb_true_iff.
  intros [[H|H]|H]; [left; left|left; right|right]; by apply includes_app_r.
Qed.

Lemma processJs_plain st f :
  Str.includes #"import" (content f) = false ->
  Str.includes #"export" (content f) = false ->
  snd (processJs st f) = #"// --- " ++ name f ++ #" ---" ++ nl ++ content f.
Proof. intros Hi He. unfold processJs. by rewrite stripModuleSyntax_plain. Qed.

Lemma processAll_part l : forall st f,
  f ∈ l -> exists st', snd (processJs st' f) ∈ snd (processAll st l).
Proof.
  induction l as [|g l IH]; intros st f Hf; [by apply elem_of_nil in Hf|].
  simpl. destruct (processJs st g) as [st1 part] eqn:Eg.
  specialize (IH st1). destruct (processAll st1 l) as [st2 parts] eqn:Ea. simpl.
  apply elem_of_cons in Hf as [->|Hf].
  - exists st. rewrite Eg. simpl. by left.
  - destruct (IH f Hf) as [st' H]. exists st'. by right.
Qed.

Lemma existsb_elem {A} (p : A -> bool) l x : x ∈ l -> p x = true -> existsb p l = true.
Proof.
  intros Hx Hp. apply existsb_exists. exists x. split; [|done]. by apply list_elem_of_In.
Qed.

(** *** Mount synthesis *)

(** C4 (amended).  For every list of artifacts, with [js] its
    script-family artifacts: no mount call is synthesized if a
    script-family artifact contains [createRoot] or [ReactDOM.render];
    otherwise exactly one is, [mountCall], as soon as a rewritten part
    contains [function App], [class App] or [const App], which is so in
    particular when a script-family artifact without [import] and
    [export] text contains one of them.  The synthesized text is the last
    argument of [appScript], and it mounts [App] on the element [root]. *)
Theorem mount_synthesis files :
  let js := List.filter isJs files in
  let parts := snd (processAll (LinkState [] false) (sortByScore js)) in
  synthesizedMount files
  = (if existsb hasMountCall js then []
     else if existsb declaresApp parts then mountCall else [])
  /\ (exists imports,
        linkScripts (sortByScore js) = appScript imports parts (synthesizedMount files))
  /\ (forall f,
        f ∈ js -> existsb hasMountCall js = false ->
        Str.includes #"import" (content f) = false ->
        Str.includes #"export" (content f) = false ->
        declaresApp (content f) = true ->
        synthesizedMount files = mountCall)
  /\ Str.includes #"ReactDOM.createRoot(document.getElementById('root'))" mountCall = true
  /\ Str.includes #"root.render(React.createElement(App))" mountCall = true.
Proof.
  intros js parts.
  assert (synthesizedMount files
          = (if existsb hasMountCall js then []
             else if existsb declaresApp parts then mountCall else [])) as E.
  { unfold synthesizedMount, mountScript, parts. fold js.
    pose proof (processAll_entry (sortByScore js) (LinkState [] false)) as He.
    destruct (processAll _ (sortByScore js)) as [st ps]. simpl in *.
    rewrite He, (existsb_perm _ _ _ (sortByScore_perm js)).
    by destruct (existsb hasMountCall js). }
  split; [done|]. split; [|split; [|by vm_compute]].
  - unfold linkScripts, synthesizedMount, parts. fold js.
    destruct (processAll _ (sortByScore js)) as [st ps]. simpl. eauto.
  - intros f Hf Hm Hi He Hd. rewrite E, Hm.
    assert (f ∈ sortByScore js) as Hin by (by rewrite sortByScore_perm).
    destruct (processAll_part _ (LinkState [] false) f Hin) as [st' Hp].
    fold parts in Hp.
    rewrite (existsb_elem _ _ _ Hp); [done|].
    rewrite processJs_plain by done. by do 4 apply declaresApp_app_r.
Qed.

End LinkFacts.

(** ** Native simulation *)

Module SimulateFacts.
Import Regex StrFacts RegexFacts Compiler.

Lemma processLine_coutHi line : Str.trim line = coutHi -> processLine line = logHi.
Proof. intros H. unfold processLine. rewrite H. by vm_compute. Qed.

Lemma join_elem sep (x : str) l :
  x ∈ l -> exists a b, Str.join sep l ++ sep = a ++ x ++ sep ++ b.
Proof.
  induction l as [|y l IH]; intros Hx; [by apply elem_of_nil in Hx|].
  assert (Str.join sep (y :: l) ++ sep
          = y ++ sep ++ match l with [] => [] | _ :: _ => Str.join sep l ++ sep end) as E.
  { destruct l; cbn [Str.join]; [by rewrite app_nil_r|]. by rewrite <- !app_assoc. }
  rewrite E. apply elem_of_cons in Hx as [->|Hx].
  - by exists [], (match l with [] => [] | _ :: _ => Str.join sep l ++ sep end).
  - destruct (IH Hx) as (a & b & Hab). destruct l as [|z l]; [by apply elem_of_nil in Hx|].
    rewrite Hab. exists (y ++ sep ++ a), b. by rewrite <- !app_assoc.
Qed.

(** A line of the text that steps 1 to 5 hand to the line-by-line
    rewriting which is, apart from white space around it, the statement
    [coutHi] becomes the line [logHi] of the transpiled script. *)
Lemma simulate_line file line :
  test cppExtRegex (name file) = true ->
  line ∈ Str.split nl (transpilePrefix (content file)) ->
  Str.trim line = coutHi ->
  exists a b, simulateNativeLanguage file = a ++ logHi ++ nl ++ b.
Proof.
  intros Hext Hline Htrim. unfold simulateNativeLanguage. rewrite Hext.
  unfold transpileCppToJs.
  set (ls := map processLine (Str.split nl (transpilePrefix (content file)))).
  assert (logHi ∈ ls) as Hin.
  { rewrite <- (processLine_coutHi line Htrim). unfold ls.
    by apply (list_elem_of_fmap_2 processLine). }
  destruct (join_elem nl _ _ Hin) as (a & b & Hab).
  exists (scriptHeader ++ a), (b ++ drop 1 scriptFooter).
  change scriptFooter with (nl ++ drop 1 scriptFooter) at 1.
  rewrite (app_assoc (Str.join nl ls)), Hab. by rewrite <- !app_assoc.
Qed.

End SimulateFacts.

(** ** Assembly is total *)

Module AssembleFacts.
Import Regex StrFacts RegexFacts Compiler.

Lemma substitute_cons a t m b af cs :
  Str.ceqb a "$" = false ->
  substitute (a :: t) m b af cs = a :: substitute t m b af cs.
Proof. intros H. cbn [substitute]. by rewrite H. Qed.

Lemma replaceStr_nonempty p a t s :
  Str.ceqb a "$" = false -> Str.includes p s = true -> replaceStr p (a :: t) s <> [].
Proof.
  intros Ha Hs. unfold replaceStr, Str.includes in *.
  destruct (Str.indexOf p s) as [i|]; [|done].
  rewrite substitute_cons by done. by destruct (take i s).
Qed.

Lemma app_nonempty_l {A} (u v : list A) : u <> [] -> u ++ v <> [].
Proof. by destruct u. Qed.

Lemma app_nonempty_r {A} (u v : list A) : v <> [] -> u ++ v <> [].
Proof. destruct u; [done|]. done. Qed.

Lemma consoleHook_head : exists t, consoleHook = "010"%char :: t.
Proof. eexists. by vm_compute. Qed.

Lemma babelScript_head : exists t, babelScript = "<"%char :: t.
Proof. eexists. by vm_compute. Qed.

Lemma nativeDocument_nonempty f : nativeDocument f <> [].
Proof. unfold nativeDocument. by apply app_nonempty_l. Qed.

Lemma reactDocument_nonempty html slick script : reactDocument html slick script <> [].
Proof.
  unfold reactDocument. destruct babelScript_head as [t Ht].
  match goal with |- (if ?c then _ else _) <> [] => destruct c eqn:E end.
  - rewrite Ht. cbn [app]. by apply replaceStr_nonempty.
  - apply app_nonempty_r. rewrite Ht. done.
Qed.

Lemma injectHook_nonempty html : injectHook html <> [].
Proof.
  unfold injectHook. destruct (Str.includes #"<head>" html) eqn:E.
  - change (#"<head>" ++ consoleHook) with ("<"%char :: #"head>" ++ consoleHook).
    by apply replaceStr_nonempty.
  - destruct consoleHook_head as [t ->]. done.
Qed.

Lemma injectScripts_nonempty html scripts : injectScripts html scripts <> [].
Proof.
  unfold injectScripts. destruct (Str.includes #"</body>" html) eqn:E.
  - match goal with |- replaceStr _ (?h ++ ?r) _ <> [] =>
      change (h ++ r) with ("<"%char :: #"script>" ++ r) end.
    by apply replaceStr_nonempty.
  - apply app_nonempty_r. done.
Qed.

Lemma vanillaAssembly_nonempty html js : vanillaAssembly html js <> [].
Proof.
  unfold vanillaAssembly. destruct js; [apply injectHook_nonempty|apply injectScripts_nonempty].
Qed.

(** With strings of any length, as the model has them, [assemblePreview]
    gives a non-empty text for every list of artifacts; for the empty
    list it is the synthesized document with an empty root element, the
    console hook placed after its [<head>]; and the three [while] loops
    of the native simulation end, since no match they visit is empty.
    How long the text can be is the subject of [GrowthFacts]. *)
Lemma assemblePreview_document :
  (forall files, exists doc, assemblePreview files = doc /\ doc <> [])
  /\ (exists a b,
        emptyDocument = a ++ #"<head>" ++ b
        /\ assemblePreview [] = a ++ #"<head>" ++ consoleHook ++ b)
  /\ Forall (fun p => forall content,
               Forall (fun m => matched m <> []) (exec_all p content))
       [printRegex; javaPrintRegex; goPrintRegex].
Proof.
  split; [|split; [|
    repeat constructor; intros content; apply Forall_forall; intros m Hm;
    (eapply EngineFacts.exec_loop_progress; [|exact Hm]); vm_compute; lia]].
  - intros files. eexists. split; [done|]. unfold assemblePreview.
    destruct (isNative files), (List.find isNativeFile files), (isReact files);
      auto using nativeDocument_nonempty, reactDocument_nonempty, vanillaAssembly_nonempty.
    all: unfold reactAssembly; apply reactDocument_nonempty.
  - exists (take 34 emptyDocument), (drop 40 emptyDocument). by vm_compute.
Qed.

End AssembleFacts.

(** ** The program at given inputs *)

Module Cases.
Import Regex Parser Format Compiler.

(** C8.  Extracting the text [***FILE_START: a.txt***\nhello\n***FILE_END***],
    the serialized form of one artifact, yields exactly the list with the
    artifact of name [a.txt], language [txt] and content [hello]. *)
Theorem parse_reserialized :
  parseGeneratedContent
    (#"***FILE_START: a.txt***" ++ nl ++ #"hello" ++ nl ++ #"***FILE_END***")
  = [mkFile #"a.txt" #"txt" #"hello"].
Proof. by vm_compute. Qed.


(** C5, counterexample.  A closing marker without an opening one is not
    a region: [cleanResponseText] returns the text as it is, and the
    residual contains the marker token. *)
Lemma strip_keeps_unpaired_marker :
  cleanResponseText (#"Done. ***FILE_END***") = #"Done. ***FILE_END***"
  /\ Str.includes FILE_END (cleanResponseText (#"Done. ***FILE_END***")) = true.
Proof. by vm_compute. Qed.

(** C2, counterexample.  A style sheet beside a C++ file does not rule
    out [native], and a Liquid file beside an HTML file is not rendered:
    on both sets the precedence as the claim words it ([classify_spec])
    differs from the strategy that [assemblePreview] takes. *)
Lemma classify_spec_differs :
  classify [mkFile #"style.css" #"css" #"body {}"; mkFile #"main.cpp" #"cpp" #"int main() {}"]
    = native
  /\ classify_spec
       [mkFile #"style.css" #"css" #"body {}"; mkFile #"main.cpp" #"cpp" #"int main() {}"]
    = plain
  /\ classify [mkFile #"index.html" #"html" #"<p>hi</p>";
               mkFile #"section.liquid" #"liquid" #"{{ title }}"]
    = plain
  /\ classify_spec [mkFile #"index.html" #"html" #"<p>hi</p>";
                    mkFile #"section.liquid" #"liquid" #"{{ title }}"]
    = templating.
Proof. by vm_compute. Qed.

(** C7, at the failing input.  In a script that begins with
    [import './styles.css';] followed by [import React from 'react';],
    the lazy [importRegex] matches both statements as one import of the
    external path [react]: the relative import is collected with it and
    appears in the linked script and in the assembled document. *)
Theorem local_import_survives :
  Str.includes #"import './styles.css';" (linkScripts (sortByScore [appWithStyles])) = true
  /\ Str.includes #"import './styles.css';" (assemblePreview [appWithStyles]) = true.
Proof. by vm_compute. Qed.

End Cases.

(** ** Further inputs *)

Module Witnesses.
Import Regex Parser Format Compiler Heap.
Import StripFacts LinkFacts HeapFacts EngineFacts.

(** C4, counterexample.  A page that contains [createRoot] is not a
    script-family artifact: beside a component that declares [App] the
    mount call is synthesized all the same, against the claim's
    that any artifact with an explicit mount call prevents it. *)
Lemma mount_claim_fails : ~ mountClaim [mountingPage; appComponent].
Proof.
  intros H. destruct (H eq_refl) as [_ H2].
  assert (synthesizedMount [mountingPage; appComponent] = []) as E.
  { apply H2. exists mountingPage. split; [left|by vm_compute]. }
  by vm_compute in E.
Qed.

Lemma mount_synthesis_witness : synthesizedMount [reactEntry; plainApp] = mountCall.
Proof.
  apply (proj1 (proj2 (proj2 (mount_synthesis [reactEntry; plainApp]))) plainApp).
  - vm_compute. right. left.
  - by vm_compute.
  - by vm_compute.
  - by vm_compute.
  - by vm_compute.
Defined.

Lemma strip_regions_witness :
  cleanResponseText
    (renderRegions #"Here you go. "
       [Region (#": a.txt***" ++ nl ++ #"hello" ++ nl) (#" Enjoy." ++ nl)])
  = #"Here you go.  Enjoy.".
Proof.
  apply (proj1 (strip_regions #"Here you go. "
           [Region (#": a.txt***" ++ nl ++ #"hello" ++ nl) (#" Enjoy." ++ nl)]
           ltac:(by vm_compute)
           ltac:(repeat constructor; by vm_compute))).
Defined.

Lemma frame_witness :
  exists σ1,
    assemblePreviewM 0 {[0 := [reactEntry; plainApp]]}
    = (assemblePreview [reactEntry; plainApp], σ1)
    /\ σ1 !! 0 = Some [reactEntry; plainApp]
    /\ preserves {[0 := [reactEntry; plainApp]]} σ1.
Proof.
  apply (assemblePreviewM_frame {[0 := [reactEntry; plainApp]]} 0 [reactEntry; plainApp]).
  by vm_compute.
Defined.

End Witnesses.

(** Files in the order of their scores *)

Module SortFacts.
Import Compiler Shapes.

Lemma insertByScore_sorted f l :
  StronglySorted (fun a b => score a <= score b) l ->
  StronglySorted (fun a b => score a <= score b) (insertByScore f l).
Proof.
  induction 1 as [|g l Hl IH Hg]; simpl; [by repeat constructor|].
  fold (score f) (score g). destruct (score f <=? score g) eqn:E.
  - apply Nat.leb_le in E. constructor; [by constructor|].
    constructor; [done|]. eapply Forall_impl; [exact Hg|]. simpl. lia.
  - apply Nat.leb_gt in E. constructor; [done|].
    rewrite (LinkFacts.insertByScore_perm f l). constructor; [lia|done].
Qed.

(** X1.  The scripts are linked in the order of their scores, lowest first:
    the sorted list holds the same files, and no file stands before a
    file of a lower score. *)
Theorem sortByScore_sorted l :
  StronglySorted (fun a b => getScore (name a) <= getScore (name b)) (sortByScore l)
  /\ sortByScore l ≡ₚ l.
Proof.
  split; [|apply LinkFacts.sortByScore_perm].
  induction l as [|f l IH]; simpl; [constructor|]. by apply insertByScore_sorted.
Qed.

Lemma insertByScore_filter_eq n f l :
  StronglySorted (fun a b => score a <= score b) l ->
  List.filter (fun g => score g =? n) (insertByScore f l)
  = List.filter (fun g => score g =? n) (f :: l).
Proof.
  induction 1 as [|g l Hl IH Hg]; [done|]. cbn [insertByScore].
  fold (score f) (score g). destruct (score f <=? score g) eqn:E; [done|].
  apply Nat.leb_gt in E. cbn [List.filter] in *. rewrite IH.
  destruct (score f =? n) eqn:Ef, (score g =? n) eqn:Eg; try done.
  apply Nat.eqb_eq in Ef, Eg. lia.
Qed.

(** X2.  The sort is stable: the files of one score stand in the sorted list
    in the order in which they were given. *)
Theorem sortByScore_stable l n :
  List.filter (fun f => getScore (name f) =? n) (sortByScore l)
  = List.filter (fun f => getScore (name f) =? n) l.
Proof.
  induction l as [|f l IH]; [done|]. cbn [sortByScore foldr].
  change (foldr insertByScore [] l) with (sortByScore l).
  pose proof (insertByScore_filter_eq n f (sortByScore l)) as H. unfold score in H.
  rewrite H.
  - cbn [List.filter]. by rewrite IH.
  - clear. induction l as [|g l IH]; simpl; [constructor|]. by apply insertByScore_sorted.
Qed.

End SortFacts.

(** What is put into a page *)

Module InjectFacts.
Import Regex StrFacts RegexFacts Format FormatFacts Compiler Shapes.

Lemma capture_ref_nil n : capture_ref [] n = None.
Proof. by destruct n. Qed.

Lemma substitute_dollar d r m b a :
  special d = false ->
  substitute ("$"%char :: d :: r) m b a [] = "$"%char :: substitute (d :: r) m b a [].
Proof.
  intros H. unfold special in H.
  apply orb_false_iff in H as [H H4]. apply orb_false_iff in H as [H H3].
  apply orb_false_iff in H as [H1 H2].
  cbn [substitute]. change (Str.ceqb "$" "$") with true. cbn [negb].
  rewrite H1, H2, H3, H4. cbn [negb].
  destruct (Str.is_digit d); [|done].
  destruct r as [|e r']; rewrite ?capture_ref_nil; [done|]. by destruct (Str.is_digit e).
Qed.

Lemma substitute_inert_app m b a : forall n u t,
  length u <= n -> inert u = true -> last u <> Some "$"%char \/ t = [] ->
  substitute (u ++ t) m b a [] = u ++ substitute t m b a [].
Proof.
  induction n as [|n IH]; intros [|c u1] t Hl Hu Ht; simpl in Hl; try done; try lia.
  cbn [inert] in Hu. apply andb_true_iff in Hu as [Hc Hu1].
  assert (u1 <> [] -> last u1 <> Some "$"%char \/ t = []) as Ht1.
  { intros Hne. destruct Ht as [Ht|Ht]; [left|by right]. by destruct u1. }
  destruct (Str.ceqb c "$") eqn:Ec.
  - apply ceqb_eq in Ec as ->. destruct u1 as [|d u2].
    { destruct Ht as [Ht| ->]; [done|]. done. }
    cbn [negb orb] in Hc. apply negb_true_iff in Hc.
    cbn [app]. rewrite substitute_dollar by done. f_equal.
    apply (IH (d :: u2) t); [simpl in *; lia|done|by apply Ht1].
  - cbn [app]. rewrite AssembleFacts.substitute_cons by done. f_equal.
    destruct u1 as [|d u2]; [done|]. apply IH; [lia|done|by apply Ht1].
Qed.

(** A text without replacement patterns stands for itself. *)
Lemma substitute_inert tpl m b a : inert tpl = true -> substitute tpl m b a [] = tpl.
Proof.
  intros H. rewrite <- (app_nil_r tpl) at 1.
  rewrite (substitute_inert_app m b a (length tpl)); [by rewrite app_nil_r|done|done|by right].
Qed.

Lemma inert_app u v :
  (forall c, head v = Some c -> special c = false) ->
  inert u = true -> inert v = true -> inert (u ++ v) = true.
Proof.
  intros Hv Hu Hv'. induction u as [|a u IH]; [done|].
  cbn [inert] in Hu. apply andb_true_iff in Hu as [Ha Hu]. cbn [app inert].
  rewrite (IH Hu), andb_true_r. destruct u as [|b u]; [|done].
  cbn [app]. destruct v as [|c v]; [done|]. by rewrite (Hv c eq_refl), orb_true_r.
Qed.

Lemma indexOf_first pat a b :
  firstAt pat a -> Str.indexOf pat (a ++ pat ++ b) = Some (length a).
Proof.
  intros H. apply indexOf_intro.
  - rewrite drop_app_length. apply startsWith_app.
  - intros j Hj. rewrite drop_app_le by lia. by apply firstAt_fail.
  - rewrite length_app. lia.
Qed.

Lemma replaceStr_first pat tpl a b :
  firstAt pat a ->
  replaceStr pat tpl (a ++ pat ++ b) = a ++ substitute tpl pat a b [] ++ b.
Proof.
  intros H. unfold replaceStr. rewrite (indexOf_first _ _ _ H).
  rewrite take_app_length.
  replace (drop (length a + length pat) (a ++ pat ++ b)) with b; [done|].
  rewrite app_assoc, <- length_app. by rewrite drop_app_length.
Qed.

Lemma replaceStr_absent pat tpl s : Str.includes pat s = false -> replaceStr pat tpl s = s.
Proof. unfold replaceStr, Str.includes. by destruct (Str.indexOf pat s). Qed.

Lemma includes_first pat a b : firstAt pat a -> Str.includes pat (a ++ pat ++ b) = true.
Proof. intros H. unfold Str.includes. by rewrite (indexOf_first _ _ _ H). Qed.

(** A text put between a text that does not end with a dollar sign and a
    text that begins with [<] stands for itself if it holds no
    replacement pattern. *)
Lemma substitute_wrapped l s r m b a :
  inert l = true -> last l <> Some "$"%char -> inert s = true -> inert ("<"%char :: r) = true ->
  substitute (l ++ s ++ "<"%char :: r) m b a [] = l ++ s ++ "<"%char :: r.
Proof.
  intros Hl Hl' Hs Hr.
  rewrite (substitute_inert_app m b a (length l)); [|done|done|by left].
  f_equal. apply substitute_inert. apply inert_app; [by intros c [= <-]|done|done].
Qed.

(** X3.  The console hook of a page without framework code is put right after
    the first [<head>], or in front of a page that has none; the page is
    otherwise unchanged. *)
Theorem injectHook_spec :
  (forall a b, firstAt #"<head>" a ->
     injectHook (a ++ #"<head>" ++ b) = a ++ #"<head>" ++ consoleHook ++ b)
  /\ (forall html, Str.includes #"<head>" html = false ->
        injectHook html = consoleHook ++ html).
Proof.
  split.
  - intros a b H. unfold injectHook. rewrite (includes_first _ _ _ H).
    rewrite (replaceStr_first _ _ _ _ H), substitute_inert; [by rewrite <- app_assoc|].
    by vm_compute.
  - intros html H. unfold injectHook. by rewrite H.
Qed.

Lemma injectHook_spec_witness :
  injectHook (#"<html>" ++ #"<head>" ++ #"<title>t</title></head></html>")
  = #"<html>" ++ #"<head>" ++ consoleHook ++ #"<title>t</title></head></html>".
Proof. apply (proj1 injectHook_spec). by vm_compute. Defined.

(** X4.  The scripts of a page without framework code are joined by line feeds
    and put, in one script element, before the first [</body>] when they
    hold no replacement pattern, and at the end of a page without
    [</body>] whatever they hold. *)
Theorem injectScripts_spec scripts :
  (forall a b, firstAt #"</body>" a -> inert (Str.join nl scripts) = true ->
     injectScripts (a ++ #"</body>" ++ b) scripts
     = a ++ #"<script>" ++ Str.join nl scripts ++ #"</script></body>" ++ b)
  /\ (forall html, Str.includes #"</body>" html = false ->
        injectScripts html scripts
        = html ++ #"<script>" ++ Str.join nl scripts ++ #"</script>").
Proof.
  split.
  - intros a b H Hp. unfold injectScripts. rewrite (includes_first _ _ _ H).
    rewrite (replaceStr_first _ _ _ _ H).
    change (#"</script></body>") with ("<"%char :: #"/script></body>").
    rewrite substitute_wrapped; [by rewrite <- !app_assoc|done|done|done|done].
  - intros html H. unfold injectScripts. by rewrite H.
Qed.

Lemma injectScripts_spec_witness :
  injectScripts (#"<body><p>x</p>" ++ #"</body>" ++ #"</html>")
    [ #"let a = `${b}`;"; #"let b = '$1';" ]
  = #"<body><p>x</p>" ++ #"<script>" ++ Str.join nl [ #"let a = `${b}`;"; #"let b = '$1';" ] ++
    #"</script></body>" ++ #"</html>".
Proof.
  apply (proj1 (injectScripts_spec [ #"let a = `${b}`;"; #"let b = '$1';" ])); by vm_compute.
Defined.

(** X5.  In a script that is put before [</body>], a dollar sign followed by
    an ampersand is replaced by the text [</body>]. *)
Theorem injectScripts_dollar_amp a b u v :
  firstAt #"</body>" a ->
  inert u = true -> last u <> Some "$"%char -> inert v = true ->
  injectScripts (a ++ #"</body>" ++ b) [u ++ #"$&" ++ v]
  = a ++ #"<script>" ++ u ++ #"</body>" ++ v ++ #"</script></body>" ++ b.
Proof.
  intros H Hu Hu' Hv. unfold injectScripts. rewrite (includes_first _ _ _ H).
  rewrite (replaceStr_first _ _ _ _ H). cbn [Str.join].
  rewrite (substitute_inert_app _ _ _ (length #"<script>") #"<script>");
    [|done|done|by left].
  rewrite <- (app_assoc u), (substitute_inert_app _ _ _ (length u) u); [|done|done|by left].
  rewrite <- (app_assoc #"$&").
  change (#"$&" ++ v ++ #"</script></body>") with ("$"%char :: "&"%char :: v ++ #"</script></body>").
  cbn [substitute]. change (Str.ceqb "$" "$") with true. cbn [negb].
  change (Str.ceqb "&" "$") with false. change (Str.ceqb "&" "&") with true. cbv iota.
  rewrite substitute_inert; [by rewrite <- !app_assoc|].
  apply inert_app; [by intros c [= <-]|done|done].
Qed.

Lemma injectScripts_dollar_amp_witness :
  injectScripts (#"<body>" ++ #"</body>" ++ [])
    [ #"s.replace(/x/g, '" ++ #"$&" ++ #"');" ]
  = #"<body>" ++ #"<script>" ++ #"s.replace(/x/g, '" ++ #"</body>" ++ #"');" ++
    #"</script></body>" ++ [].
Proof. apply injectScripts_dollar_amp; by vm_compute. Defined.

(** *** Style sheets *)

Lemma baseDocument_page pv h l r parts f :
  page pv h = Some f ->
  baseDocument pv h l r parts
  = match Str.join nl parts with
    | [] => content f
    | _ :: _ =>
        if Str.includes #"</head>" (content f)
        then replaceStr #"</head>" (#"<style>" ++ Str.join nl parts ++ #"</style></head>") (content f)
        else replaceStr #"<body>" (#"<head><style>" ++ Str.join nl parts ++ #"</style></head><body>")
               (content f)
    end.
Proof.
  unfold page, baseDocument. destruct pv as [g|]; [intros [= ->]; done|].
  destruct h as [g|]; [intros [= ->]; done|done].
Qed.

(** X6.  The style sheets of a given page, [preview.html] or else the first
    HTML file, are put in one style element before its first [</head>]
    when their text holds no replacement pattern. *)
Theorem css_injected pv h l r cssFiles f a b :
  page pv h = Some f ->
  content f = a ++ #"</head>" ++ b -> firstAt #"</head>" a ->
  cssFiles <> [] -> inert (Str.join nl (map cssPart cssFiles)) = true ->
  baseDocument pv h l r (map cssPart cssFiles)
  = a ++ #"<style>" ++ Str.join nl (map cssPart cssFiles) ++ #"</style></head>" ++ b.
Proof.
  intros Hp Hc Ha Hne Hpl. rewrite (baseDocument_page _ _ _ _ _ _ Hp), Hc.
  destruct (Str.join nl (map cssPart cssFiles)) eqn:E.
  { destruct cssFiles as [|c [|c' cs]]; done. }
  rewrite <- E in *. rewrite (includes_first _ _ _ Ha), (replaceStr_first _ _ _ _ Ha).
  change (#"</style></head>") with ("<"%char :: #"/style></head>").
  rewrite substitute_wrapped; [by rewrite <- !app_assoc|done|done|done|done].
Qed.

Lemma css_injected_witness :
  baseDocument None (Some (mkFile #"index.html" #"html" (#"<head>" ++ #"</head>" ++ #"<p>x</p>")))
    None false (map cssPart [mkFile #"a.css" #"css" #"p::after { content: '$5'; }"])
  = #"<head>" ++ #"<style>" ++ #"/* a.css */" ++ nl ++ #"p::after { content: '$5'; }" ++
    #"</style></head>" ++ #"<p>x</p>".
Proof.
  apply (css_injected None
           (Some (mkFile #"index.html" #"html" (#"<head>" ++ #"</head>" ++ #"<p>x</p>")))
           None false [mkFile #"a.css" #"css" #"p::after { content: '$5'; }"]
           (mkFile #"index.html" #"html" (#"<head>" ++ #"</head>" ++ #"<p>x</p>"))
           #"<head>" #"<p>x</p>"); by vm_compute.
Defined.

(** X7.  The style sheets are dropped when the given page has neither
    [</head>] nor [<body>]: the base document is the page as it is. *)
Theorem css_dropped pv h l r parts f :
  page pv h = Some f ->
  Str.includes #"</head>" (content f) = false ->
  Str.includes #"<body>" (content f) = false ->
  baseDocument pv h l r parts = content f.
Proof.
  intros Hp H1 H2. rewrite (baseDocument_page _ _ _ _ _ _ Hp), H1.
  destruct (Str.join nl parts); [done|]. by apply replaceStr_absent.
Qed.

Lemma css_dropped_witness :
  baseDocument (Some (mkFile #"preview.html" #"html" #"<p>x</p>")) None None false
    [ #"p { color: red; }" ]
  = #"<p>x</p>".
Proof.
  apply (css_dropped (Some (mkFile #"preview.html" #"html" #"<p>x</p>")) None None false
           [ #"p { color: red; }" ] (mkFile #"preview.html" #"html" #"<p>x</p>")).
  - reflexivity.
  - by vm_compute.
  - by vm_compute.
Defined.

End InjectFacts.

(** The imports collected from the scripts *)

Module ImportFacts.
Import Regex StrFacts RegexFacts EngineFacts Compiler Shapes.

(** What a pattern that begins with a literal matches begins with the
    literal. *)
Lemma search_matched_lit p lit r : 
  re p = RSeq (RLit lit) r -> ignoreCase p = false ->
  forall s i pv m, search p i pv s = Some m -> Str.startsWith lit (matched m) = true.
Proof.
  intros Hre Hic.
  assert (forall pv s y cs, match_at p (Pos pv s) = Some (y, cs) ->
            Str.startsWith lit (between (Pos pv s) y) = true) as Hat.
  { intros pv s y cs H. unfold match_at in H. rewrite Hre, Hic in H. cbn [rmatch] in H.
    destruct (lit_match false lit (Pos pv s)) as [y1|] eqn:El; [|done].
    apply lit_match_inv in El as (t & -> & ->).
    apply rmatch_consumes in H as (y' & cs' & [= -> ->] & Hl). cbn [rest] in Hl.
    unfold between. cbn [rest]. rewrite length_app.
    rewrite take_app_ge by lia. apply startsWith_app. }
  induction s as [|a s IH]; intros i pv m; cbn [search].
  - destruct (match_at p (Pos pv [])) as [[y cs]|] eqn:E; [|done].
    intros [= <-]. cbn [matched]. by eapply Hat.
  - destruct (match_at p (Pos pv (a :: s))) as [[y cs]|] eqn:E.
    + intros [= <-]. cbn [matched]. by eapply Hat.
    + apply IH.
Qed.

(** A property of the state that the replacer keeps at every match of the
    pattern holds after the whole replacement. *)
Lemma replace_loop_inv {St} (P : St -> Prop) p (f : St -> mtch -> St * str) :
  (forall st m i pv s, search p i pv s = Some m -> P st -> P (fst (f st m))) ->
  forall fuel st pv s, P st -> P (fst (replace_loop fuel p f st pv s)).
Proof.
  intros Hf. induction fuel as [|fuel IH]; intros st pv s Hst; [done|].
  cbn [replace_loop]. destruct (search p 0 pv s) as [m|] eqn:Es; [|done].
  specialize (Hf st m _ _ _ Es Hst). destruct (f st m) as [st1 r]. simpl in Hf.
  destruct (matched m).
  - destruct (rest (after m)) as [|a t]; [done|].
    specialize (IH st1 (Some a) t Hf). by destruct (replace_loop fuel p f st1 (Some a) t).
  - specialize (IH st1 (prev (after m)) (rest (after m)) Hf).
    by destruct (replace_loop fuel p f st1 _ _).
Qed.

Lemma setAdd_importSet x set :
  Str.startsWith #"import" x = true -> importSet set -> importSet (setAdd x set).
Proof.
  intros Hx [Hnd Hall]. unfold setAdd. destruct (existsb (Str.eqb x) set) eqn:E; [done|].
  split.
  - apply NoDup_app. split; [done|]. split; [|apply NoDup_singleton].
    intros y Hy ->%list_elem_of_singleton.
    assert (existsb (Str.eqb x) set = true); [|congruence].
    apply existsb_exists. exists x. split; [by apply list_elem_of_In|apply eqb_refl].
  - apply Forall_app. split; [done|by repeat constructor].
Qed.

Lemma importReplacer_importSet set m :
  Str.startsWith #"import" (matched m) = true ->
  importSet set -> importSet (fst (importReplacer set m)).
Proof.
  intros Hm H. unfold importReplacer.
  destruct (Str.startsWith _ _ || Str.startsWith _ _); [done|]. by apply setAdd_importSet.
Qed.

Lemma stripModuleSyntax_importSet set body :
  importSet set -> importSet (fst (stripModuleSyntax set body)).
Proof.
  intros H. unfold stripModuleSyntax, replace_all_fold.
  assert (importSet (fst (replace_loop (S (length body)) importRegex importReplacer set None body)))
    as H1.
  { apply replace_loop_inv; [|done]. intros st m i pv s Hs Hst.
    apply importReplacer_importSet; [|done].
    by apply (search_matched_lit importRegex #"import" _ eq_refl eq_refl _ _ _ _ Hs). }
  destruct (replace_loop _ importRegex _ _ _ _) as [set1 body1]. simpl in H1.
  assert (importSet (fst (replace_loop (S (length body1)) sideEffectImportRegex importReplacer
                            set1 None body1))) as H2.
  { apply replace_loop_inv; [|done]. intros st m i pv s Hs Hst.
    apply importReplacer_importSet; [|done].
    by apply (search_matched_lit sideEffectImportRegex #"import" _ eq_refl eq_refl _ _ _ _ Hs). }
  by destruct (replace_loop _ sideEffectImportRegex _ _ _ _) as [set2 body2].
Qed.

Lemma processAll_importSet l : forall st,
  importSet (externalImports st) -> importSet (externalImports (fst (processAll st l))).
Proof.
  induction l as [|f l IH]; intros st H; [done|]. cbn [processAll].
  destruct (processJs st f) as [st1 part] eqn:E1.
  assert (importSet (externalImports st1)) as H1.
  { unfold processJs in E1.
    pose proof (stripModuleSyntax_importSet (externalImports st) (content f) H) as Hs.
    destruct (stripModuleSyntax _ _) as [imports body]. injection E1 as <- _. done. }
  specialize (IH st1 H1). by destruct (processAll st1 l).
Qed.

(** X8.  Whatever the scripts hold, the import statements that the
    linking collects from them, and that the linked script then lists one
    per line, are pairwise different texts, and each of them begins with
    the word import. *)
Theorem imports_collected_once sortedJs :
  let imports := externalImports (fst (processAll (LinkState [] false) sortedJs)) in
  NoDup imports /\ Forall (fun i => Str.startsWith #"import" i = true) imports.
Proof. apply (processAll_importSet sortedJs (LinkState [] false)). split; constructor. Qed.

End ImportFacts.

(** Import statements taken out of a script *)

Module ModuleFacts.
Import Regex StrFacts RegexFacts EngineFacts Format FormatFacts StripFacts Compiler Shapes.

Lemma importRegex_re :
  re importRegex
  = RSeq (RLit #"import") (RSeq (RPlus RSpace) (RSeq (RStarLazy RAny) (RSeq (RPlus RSpace)
      (RSeq (RLit #"from") (RSeq (RPlus RSpace) (RSeq quoteClass
        (RSeq (RGroup 0 (RStarLazy RDot)) (RSeq quoteClass (RSeq (ROpt (RLit #";")) REmpty))))))))).
Proof. reflexivity. Qed.

Lemma isQuote_class a : set_mem false false [CChar "'"; CChar dq] a = isQuote a.
Proof.
  destruct a as [[] [] [] [] [] [] [] []]; by vm_compute.
Qed.

Lemma repeat_opt_step fuel (m : matcher) x cs k :
  repeat (S (S fuel)) m [] 0 (Some 1) true x cs k
  = match m x cs (fun y cs' =>
            if length (rest x) <=? length (rest y) then None else k y cs') with
    | Some z => Some z
    | None => k x cs
    end.
Proof. reflexivity. Qed.

Lemma opt_semicolon pv X cs :
  rmatch false (RSeq (ROpt (RLit #";")) REmpty) (Pos pv (#";" ++ X)) cs K0
  = Some (Pos (Some ";"%char) X, cs).
Proof.
  rewrite rmatch_seq. unfold ROpt.
  change (rmatch false (RQuant (RLit #";") 0 (Some 1) true) (Pos pv (#";" ++ X)) cs
            (fun y cs' => rmatch false REmpty y cs' K0))
    with (repeat (S (S (length X))) (rmatch false (RLit #";")) [] 0 (Some 1) true
            (Pos pv (#";" ++ X)) cs (fun y cs' => rmatch false REmpty y cs' K0)).
  rewrite repeat_opt_step. cbn [rmatch]. rewrite lit_match_app. cbn [rest app length].
  change (length (#";" ++ X)) with (S (length X)). by rewrite leb_succ_false.
Qed.

Lemma rmatch_space_plus pv X cs k :
  (forall a, head X = Some a -> Str.is_space a = false) ->
  rmatch false (RPlus RSpace) (Pos pv (#" " ++ X)) cs k = k (Pos (Some " "%char) X) cs.
Proof.
  intros HX. unfold RSpace. rewrite rmatch_set_plus. cbn [app list_ascii_of_string].
  change (set_mem false false [CSpace] " ") with true. cbv iota.
  destruct X as [|a X']; [done|]. cbn [greedy_star]. rewrite set_mem_space.
  by rewrite (HX a eq_refl).
Qed.

Lemma rmatch_set_hit ic neg items pv a t cs k :
  set_mem ic neg items a = true ->
  rmatch ic (RSet neg items) (Pos pv (a :: t)) cs k = k (Pos (Some a) t) cs.
Proof. intros H. cbn [rmatch rest]. by rewrite H. Qed.

Lemma rmatch_set_miss ic neg items pv a t cs k :
  set_mem ic neg items a = false ->
  rmatch ic (RSet neg items) (Pos pv (a :: t)) cs k = None.
Proof. intros H. cbn [rmatch rest]. by rewrite H. Qed.

Lemma match_import pv st X :
  wfImport st ->
  match_at importRegex (Pos pv (statement st ++ X))
  = Some (Pos (Some ";"%char) X, [Some (path st)]).
Proof.
  intros [[Hne Himp] Hop Hcl Hpath]. unfold match_at. rewrite importRegex_re.
  change (ignoreCase importRegex) with false. change (ngroups importRegex) with 1.
  unfold statement. set (sp := imported st) in *. set (pa := path st) in *.
  set (o := opening st) in *. set (c := closing st) in *.
  replace ((#"import " ++ sp ++ #" from " ++ [o] ++ pa ++ [c] ++ #";") ++ X)
    with (#"import" ++ #" " ++ sp ++ #" " ++ #"from" ++ #" " ++ [o] ++ pa ++ [c] ++ #";" ++ X)
    by (by rewrite <- !app_assoc).
  rewrite rmatch_lit_app, rmatch_seq, rmatch_space_plus.
  2:{ destruct sp as [|a sp']; [done|]. intros b [= <-]. by inversion_clear Himp. }
  rewrite rmatch_seq. unfold RAny. rewrite rmatch_set_lazy.
  apply lazy_star_first.
  - apply Forall_any.
  - intros i Hi. rewrite rmatch_seq. unfold RSpace. rewrite rmatch_set_plus.
    destruct (drop i sp) as [|a r] eqn:Ed.
    { apply (f_equal length) in Ed. rewrite length_drop in Ed. simpl in Ed. lia. }
    assert (a ∈ sp) as Hin.
    { apply (list_elem_of_lookup_2 _ i). rewrite <- (Nat.add_0_r i), <- lookup_drop, Ed. done. }
    rewrite Forall_forall in Himp. cbn [app]. by rewrite set_mem_space, (Himp a Hin).
  - rewrite rmatch_seq, rmatch_space_plus by (by intros a [= <-]).
    rewrite rmatch_lit_app, rmatch_seq, rmatch_space_plus.
    2:{ intros a [= <-]. unfold isQuote in Hop. 
        destruct (Str.ceqb o "'") eqn:E1; [by apply ceqb_eq in E1 as ->|].
        destruct (Str.ceqb o dq) eqn:E2; [by apply ceqb_eq in E2 as ->|done]. }
    rewrite rmatch_seq. unfold quoteClass at 1. cbn [app].
    rewrite rmatch_set_hit by (by rewrite isQuote_class).
    rewrite rmatch_seq, rmatch_group, rmatch_dot_lazy.
    apply lazy_star_first.
    + eapply Forall_impl; [exact Hpath|]. by intros a [_ ->].
    + intros i Hi. rewrite rmatch_seq. unfold quoteClass.
      destruct (drop i pa) as [|a r] eqn:Ed.
      { apply (f_equal length) in Ed. rewrite length_drop in Ed. simpl in Ed. lia. }
      assert (a ∈ pa) as Hin.
      { apply (list_elem_of_lookup_2 _ i). rewrite <- (Nat.add_0_r i), <- lookup_drop, Ed. done. }
      rewrite Forall_forall in Hpath. destruct (Hpath a Hin) as [Ha _].
      cbn [app]. apply rmatch_set_miss. by rewrite isQuote_class.
    + rewrite rmatch_seq. unfold quoteClass. cbn [app].
      rewrite rmatch_set_hit by (by rewrite isQuote_class).
      rewrite opt_semicolon. by rewrite between_app.
Qed.

(** The word import does not overlap itself: a text that does not
    include it has no occurrence of it that begins inside the text and
    ends in a following occurrence. *)
Lemma firstAt_import sep : Str.includes #"import" sep = false -> firstAt #"import" sep.
Proof.
  intros H. unfold firstAt. apply indexOf_intro.
  - rewrite drop_app_length. done.
  - intros j Hj. rewrite drop_app_le by lia.
    pose proof (includes_false _ _ H j) as Hd.
    destruct (drop j sep) as [|c1 [|c2 [|c3 [|c4 [|c5 [|c6 d]]]]]] eqn:Ed.
    + apply (f_equal length) in Ed. rewrite length_drop in Ed. simpl in Ed. lia.
    + cbn. destruct (Str.ceqb "i" c1); done.
    + cbn. destruct (Str.ceqb "i" c1), (Str.ceqb "m" c2); done.
    + cbn. destruct (Str.ceqb "i" c1), (Str.ceqb "m" c2), (Str.ceqb "p" c3); done.
    + cbn. destruct (Str.ceqb "i" c1), (Str.ceqb "m" c2), (Str.ceqb "p" c3),
        (Str.ceqb "o" c4); done.
    + cbn. destruct (Str.ceqb "i" c1), (Str.ceqb "m" c2), (Str.ceqb "p" c3),
        (Str.ceqb "o" c4), (Str.ceqb "r" c5); done.
    + rewrite startsWith_long; [done|]. simpl. lia.
  - rewrite length_app. lia.
Qed.

Lemma renderModule_cons intro st sts :
  renderModule intro (st :: sts)
  = intro ++ statement st ++ renderModule (following st) sts.
Proof. unfold renderModule. cbn [map concat]. by rewrite <- !app_assoc. Qed.

Lemma renderModule_nil intro : renderModule intro [] = intro.
Proof. unfold renderModule. simpl. by rewrite app_nil_r. Qed.

Lemma remainder_cons intro st sts :
  remainder intro (st :: sts) = intro ++ remainder (following st) sts.
Proof. done. Qed.

Lemma remainder_nil intro : remainder intro [] = intro.
Proof. unfold remainder. simpl. by rewrite app_nil_r. Qed.

Lemma length_renderModule intro sts : length sts <= length (renderModule intro sts).
Proof.
  revert intro; induction sts as [|st sts IH]; intros intro; [simpl; lia|].
  rewrite renderModule_cons. specialize (IH (following st)).
  rewrite !length_app. unfold statement. rewrite !length_app. simpl. lia.
Qed.

Lemma statement_nonempty st : exists a t, statement st = a :: t.
Proof. by eexists _, _. Qed.

Lemma search_import pv intro st sts :
  firstAt #"import" intro -> wfImport st ->
  search importRegex 0 pv (renderModule intro (st :: sts))
  = Some (Mtch (length intro) (statement st) [Some (path st)]
            (Pos (Some ";"%char) (renderModule (following st) sts))).
Proof.
  intros Hintro Hst. rewrite renderModule_cons, search_skip.
  - rewrite (search_hit _ _ _ _ _ _ (match_import _ st _ Hst)). by rewrite between_app.
  - intros j Hj. eapply match_at_lit_fail; [apply importRegex_re|done|].
    unfold statement. rewrite <- !app_assoc.
    change (#"import " ++ ?x) with (#"import" ++ #" " ++ x). by apply firstAt_fail.
Qed.

Lemma replace_loop_imports sts : forall fuel pv intro set,
  Forall wfImport sts -> Str.includes #"import" (remainder intro sts) = false ->
  length sts < fuel ->
  replace_loop fuel importRegex importReplacer set pv (renderModule intro sts)
  = (foldl collect set sts, remainder intro sts).
Proof.
  induction sts as [|st sts IH]; intros [|fuel] pv intro set Hsts Hrem Hfuel;
    simpl in Hfuel; try lia.
  - rewrite renderModule_nil, remainder_nil in *. cbn [replace_loop foldl].
    by rewrite (LinkFacts.search_absent importRegex #"import" _ _ _ importRegex_re eq_refl Hrem).
  - inversion_clear Hsts as [|?? Hst Hsts']. rewrite remainder_cons in Hrem.
    assert (Str.includes #"import" intro = false) as Hi.
    { apply (includes_infix _ [] intro (remainder (following st) sts)). done. }
    assert (Str.includes #"import" (remainder (following st) sts) = false) as Hr.
    { apply (includes_infix _ intro _ []). by rewrite app_nil_r. }
    cbn [replace_loop]. rewrite (search_import _ _ _ _ (firstAt_import _ Hi) Hst).
    assert (importReplacer set
              (Mtch (length intro) (statement st) [Some (path st)]
                 (Pos (Some ";"%char) (renderModule (following st) sts)))
            = (collect set st, [])) as ->.
    { unfold importReplacer, collect, group_str, group. cbn [captures matched lookup
        list_lookup default]. by destruct (_ || _). }
    cbn [matched after prev rest index]. destruct (statement_nonempty st) as (a & t & ->).
    rewrite IH by (done || lia).
    rewrite renderModule_cons, take_app_length, remainder_cons. done.
Qed.

(** X9.  A module made of import statements of the form [import x from 'p';]
    and of text that holds neither the word import nor the word export
    loses exactly its import statements; those whose path does not begin
    with a dot or a slash are collected as they are written, in their
    order and once each, and the others are dropped. *)
Theorem imports_stripped set intro sts :
  Forall wfImport sts ->
  Str.includes #"import" (remainder intro sts) = false ->
  Str.includes #"export" (remainder intro sts) = false ->
  stripModuleSyntax set (renderModule intro sts) = (foldl collect set sts, remainder intro sts).
Proof.
  intros Hsts Hi He. unfold stripModuleSyntax, replace_all_fold.
  rewrite replace_loop_imports; [|done|done|pose proof (length_renderModule intro sts); lia].
  cbn [replace_loop].
  rewrite (LinkFacts.search_absent sideEffectImportRegex #"import" _ _ _ eq_refl eq_refl Hi).
  rewrite (LinkFacts.replace_all_absent exportDefaultRegex #"export" _ _ _ eq_refl eq_refl He).
  rewrite (LinkFacts.replace_all_absent exportRegex #"export" _ _ _ eq_refl eq_refl He).
  done.
Qed.

Lemma imports_stripped_witness :
  stripModuleSyntax []
    (renderModule []
       [ImportStmt #"React" "'" #"react" "'" nl;
        ImportStmt #"{Button}" dq #"./Button" dq nl;
        ImportStmt #"React" "'" #"react" "'" (nl ++ #"const App = () => null;")])
  = ([ #"import React from 'react';" ], nl ++ nl ++ nl ++ #"const App = () => null;").
Proof.
  apply (imports_stripped [] []
           [ImportStmt #"React" "'" #"react" "'" nl;
            ImportStmt #"{Button}" dq #"./Button" dq nl;
            ImportStmt #"React" "'" #"react" "'" (nl ++ #"const App = () => null;")]);
    [|by vm_compute..].
  repeat constructor; try (by vm_compute).
Defined.

End ModuleFacts.

(** Texts without delimited blocks, and fences *)

Module ParserFacts.
Import Regex StrFacts RegexFacts EngineFacts Parser Format FormatFacts StripFacts FallbackFacts Shapes.

(** *** Texts without markers *)

(** X10.  A text that holds neither the opening marker nor a fence of three
    backticks yields no artifact. *)
Theorem parse_no_marker text :
  Str.includes FILE_START text = false -> Str.includes FENCE text = false ->
  parseGeneratedContent text = [].
Proof.
  intros Hs Hf. unfold parseGeneratedContent, exec_all. cbn [exec_loop].
  rewrite (LinkFacts.search_absent delimiterRegex FILE_START _ _ _ delimiter_re eq_refl Hs).
  cbn [map fallbackFiles].
  rewrite search_none; [done|]. intros j _. apply match_at_codeBlock_fail.
  by apply includes_false.
Qed.

Lemma parse_no_marker_witness : parseGeneratedContent #"No response generated." = [].
Proof. apply parse_no_marker; by vm_compute. Defined.

Lemma includes_drop p s j : Str.includes p s = false -> Str.includes p (drop j s) = false.
Proof.
  intros H. destruct (Str.includes p (drop j s)) eqn:E; [|done].
  unfold Str.includes in E. destruct (Str.indexOf p (drop j s)) as [i|] eqn:Ei; [|done].
  apply indexOf_Some_lt in Ei as [Hi _]. rewrite drop_drop in Hi.
  by rewrite (includes_false _ _ H) in Hi.
Qed.

Lemma match_at_fileBlock_open pv s :
  Str.includes FILE_END s = false -> match_at fileBlockRegex (Pos pv s) = None.
Proof.
  intros H. unfold match_at. rewrite fileBlock_re.
  change (ignoreCase fileBlockRegex) with false.
  destruct (Str.startsWith FILE_START_TOKEN s) eqn:E; [|by apply rmatch_lit_fail].
  apply startsWith_inv in E as [t ->]. rewrite rmatch_lit_app, rmatch_seq.
  unfold RAny. rewrite rmatch_set_lazy. apply lazy_star_none.
  intros i _. unfold R_end. apply rmatch_lit_fail.
  apply includes_false. apply (includes_drop _ _ (length FILE_START_TOKEN)) in H.
  by rewrite drop_app_length in H.
Qed.

(** X11.  A text in which the opening token or the closing marker does not
    occur has no region to remove: [cleanResponseText] only trims it. *)
Theorem strip_without_region text :
  Str.includes FILE_START_TOKEN text = false \/ Str.includes FILE_END text = false ->
  cleanResponseText text = Str.trim text.
Proof.
  intros H. unfold cleanResponseText. f_equal.
  unfold replace_all, replace_all_with, replace_all_fold. cbn [replace_loop].
  rewrite search_none; [done|]. intros j _. destruct H as [H|H].
  - eapply match_at_lit_fail; [apply fileBlock_re|done|]. by apply includes_false.
  - apply match_at_fileBlock_open. by apply includes_drop.
Qed.

Lemma strip_without_region_witness :
  cleanResponseText (#"  See ***FILE_START: a.txt*** below." ++ nl)
  = Str.trim (#"  See ***FILE_START: a.txt*** below." ++ nl).
Proof. apply strip_without_region. right. by vm_compute. Defined.

(** *** Fence wrappers *)

Lemma lit_match_refl ic p pv t :
  lit_match ic p (Pos pv (p ++ t)) = Some (Pos (lastp pv p) t).
Proof.
  revert pv; induction p as [|c p IH]; intros pv; [done|].
  cbn [app lit_match rest]. replace (char_eq ic c c) with true.
  - unfold advance. by rewrite IH.
  - unfold char_eq. destruct ic; symmetry; apply ceqb_refl.
Qed.

Lemma letter_class a : is_letter a = true -> set_mem true false [CRange "a" "z"] a = true.
Proof. destruct a as [[] [] [] [] [] [] [] []]; by vm_compute. Qed.

Lemma openFence_strip tag X :
  Forall (fun a => is_letter a = true) tag ->
  replace_first openFenceRegex [] (FENCE ++ tag ++ nl ++ X) = X.
Proof.
  intros Htag. unfold replace_first, replace_first_with, exec.
  assert (match_at openFenceRegex (Pos None (FENCE ++ tag ++ nl ++ X))
          = Some (Pos (Some "010"%char) X, [])) as E.
  { unfold match_at. change (re openFenceRegex)
      with (RSeq RBol (RSeq (RLit FENCE) (RSeq (RStar (RSet false [CRange "a" "z"]))
              (RSeq (RLit nl) REmpty)))).
    change (ignoreCase openFenceRegex) with true.
    rewrite rmatch_seq. cbn [rmatch prev]. rewrite lit_match_refl.
    change (repeat _ _ _ 0 None true ?x ?cs ?k)
      with (rmatch true (RStar (RSet false [CRange "a" "z"])) x cs k).
    rewrite rmatch_set_greedy. apply greedy_star_all.
    - eapply Forall_impl; [exact Htag|]. apply letter_class.
    - done.
    - cbv beta. by rewrite (lit_match_refl true nl). }
  rewrite (search_hit _ _ _ _ _ _ E). cbn [index after rest matched captures]. done.
Qed.

Lemma lit_eol_fail p pv s cs :
  length s <> length p ->
  rmatch false (RSeq (RLit p) (RSeq REol REmpty)) (Pos pv s) cs K0 = None.
Proof.
  intros Hl. cbn [rmatch]. destruct (lit_match false p (Pos pv s)) as [y|] eqn:E; [|done].
  apply lit_match_inv in E as (t & -> & ->). cbn [rest].
  destruct t; [|done]. rewrite app_nil_r in Hl. done.
Qed.

Lemma lit_match_two p1 p2 r pv s cs k :
  rmatch false (RSeq (RLit p1) (RSeq (RLit p2) r)) (Pos pv s) cs k
  = rmatch false (RSeq (RLit (p1 ++ p2)) r) (Pos pv s) cs k.
Proof.
  cbn [rmatch]. destruct (Str.startsWith p1 s) eqn:E1.
  - apply startsWith_inv in E1 as [t ->]. rewrite lit_match_app.
    destruct (Str.startsWith p2 t) eqn:E2.
    + apply startsWith_inv in E2 as [t' ->]. rewrite lit_match_app.
      rewrite (app_assoc p1 p2 t'), lit_match_app. by rewrite lastp_app.
    + rewrite (lit_match_fail _ p2) by done. rewrite lit_match_fail; [done|].
      destruct (Str.startsWith (p1 ++ p2) (p1 ++ t)) eqn:E; [|done].
      apply startsWith_inv in E as [t' E]. rewrite <- app_assoc in E.
      apply app_inv_head in E. subst t. by rewrite startsWith_app in E2.
  - rewrite (lit_match_fail _ p1) by done. rewrite lit_match_fail; [done|].
    destruct (Str.startsWith (p1 ++ p2) s) eqn:E; [|done].
    apply startsWith_inv in E as [t' ->]. rewrite <- app_assoc in E1.
    by rewrite startsWith_app in E1.
Qed.

Lemma closeFence_strip code :
  replace_first closeFenceRegex [] (code ++ nl ++ FENCE) = code.
Proof.
  unfold replace_first, replace_first_with, exec.
  assert (forall pv s cs,
    rmatch false (re closeFenceRegex) (Pos pv s) cs K0
    = rmatch false (RSeq (RLit (nl ++ FENCE)) (RSeq REol REmpty)) (Pos pv s) cs K0) as Hre.
  { intros. apply lit_match_two. }
  rewrite search_skip.
  - erewrite search_hit.
    2:{ unfold match_at. rewrite Hre. change (ignoreCase closeFenceRegex) with false.
        rewrite <- (app_nil_r (nl ++ FENCE)) at 2. rewrite rmatch_lit_app. reflexivity. }
    cbn [index after rest]. rewrite Nat.add_0_l, take_app_length. by rewrite !app_nil_r.
  - intros j Hj. unfold match_at. rewrite Hre. apply lit_eol_fail.
    rewrite !length_app, length_drop. simpl. lia.
Qed.

(** X12.  A content wrapped in a fence, an opening line of three backticks and
    a tag of letters and a last line of three backticks, is unwrapped:
    what is between the two lines is kept as it is, whatever it holds. *)
Theorem stripFences_wrapped tag code :
  Forall (fun a => is_letter a = true) tag ->
  stripFences (FENCE ++ tag ++ nl ++ code ++ nl ++ FENCE) = code.
Proof.
  intros Htag. unfold stripFences. rewrite openFence_strip by done. apply closeFence_strip.
Qed.

Lemma stripFences_wrapped_witness :
  stripFences (FENCE ++ #"TSX" ++ nl ++ (#"a" ++ nl ++ FENCE ++ #"b") ++ nl ++ FENCE)
  = #"a" ++ nl ++ FENCE ++ #"b".
Proof. apply stripFences_wrapped. by repeat constructor. Defined.

End ParserFacts.

(** A fenced block without a file name *)

Module UnlabelledFacts.
Import Regex StrFacts RegexFacts EngineFacts Parser Format FormatFacts StripFacts FallbackFacts.
Import Shapes.

Lemma tagChar_class a :
  tagChar a = true ->
  set_mem false false
    [CRange "a" "z"; CRange "A" "Z"; CRange "0" "9"; CChar "_"; CChar "-"] a = true.
Proof. destruct a as [[] [] [] [] [] [] [] []]; by vm_compute. Qed.

Lemma tagChar_not_bq a : tagChar a = true -> a <> bq.
Proof. intros H ->. by vm_compute in H. Qed.

Lemma match_codeBlock_tag pv tag bd X :
  Forall (fun a => tagChar a = true) tag -> firstAt FENCE bd ->
  match_at codeBlockRegex (Pos pv (FENCE ++ tag ++ nl ++ bd ++ FENCE ++ X))
  = Some (Pos (Some bq) X, [Some FENCE; Some tag; Some bd]).
Proof.
  intros Htag Hbd. unfold match_at. rewrite codeBlock_re.
  change (ignoreCase codeBlockRegex) with false.
  change (ngroups codeBlockRegex) with 3.
  rewrite rmatch_seq, rmatch_group.
  assert (exists a t, tag ++ nl ++ bd ++ FENCE ++ X = a :: t /\ a <> bq) as (a & t & Ea & Ha).
  { destruct tag as [|a tag]; [by eexists _, _|].
    inversion_clear Htag as [|?? Ha _]. eexists _, _. split; [done|]. by apply tagChar_not_bq. }
  rewrite Ea, fenceRun_hit by done. rewrite <- Ea.
  rewrite (between_app _ _ FENCE).
  unfold R_tag. rewrite rmatch_seq, rmatch_group. unfold tagClass.
  rewrite rmatch_set_greedy. apply greedy_star_all.
  - eapply Forall_impl; [exact Htag|]. apply tagChar_class.
  - done.
  - rewrite (between_app _ _ tag). unfold R_nl. rewrite rmatch_lit_app.
    rewrite match_cbody; done.
Qed.

Lemma exec_codeBlock_tag pre tag bd post :
  firstAt FENCE pre -> Forall (fun a => tagChar a = true) tag ->
  firstAt FENCE bd -> Str.includes FENCE post = false ->
  exists m,
    exec_all codeBlockRegex (pre ++ FENCE ++ tag ++ nl ++ bd ++ FENCE ++ post) = [m]
    /\ captures m = [Some FENCE; Some tag; Some bd]
    /\ index m = length pre.
Proof.
  intros Hpre Htag Hbd Hpost. unfold exec_all. cbn [exec_loop].
  rewrite search_skip.
  - erewrite search_hit by (by apply match_codeBlock_tag).
    match goal with |- exists m, ?x :: ?t = [m] /\ _ => exists x; assert (t = []) as -> end;
      [|done].
    cbn [matched index after prev rest].
    destruct (between _ _) eqn:Eb.
    { exfalso. revert Eb. apply between_prefix_nonempty; [done|].
      rewrite !length_app. lia. }
    apply exec_loop_none.
    + rewrite !length_app. change (length FENCE) with 3. lia.
    + apply search_none. intros j _.
      apply match_at_codeBlock_fail. by apply includes_false.
  - intros j Hj. apply match_at_codeBlock_fail. by apply firstAt_fail.
Qed.

(** X13.  The fallback on a text with one fenced block whose preceding line is
    no label: the artifact is named [file_1] with the extension [ts], [js]
    or [txt] that the tag gives, its language is the tag, or [text] for an
    empty tag, and its content the trimmed text between the fences. *)
Theorem fallback_unlabelled pre l tag bd post :
  Str.includes FILE_START (pre ++ FENCE ++ tag ++ nl ++ bd ++ FENCE ++ post) = false ->
  firstAt FENCE pre ->
  last (Str.split nl (Str.trim pre)) = Some l ->
  test fileLabelRegex l = false -> test bareNameRegex l = false ->
  Forall (fun a => tagChar a = true) tag ->
  firstAt FENCE bd ->
  Str.includes FENCE post = false ->
  parseGeneratedContent (pre ++ FENCE ++ tag ++ nl ++ bd ++ FENCE ++ post)
  = [mkFile (defaultName 1 (tagLanguage tag)) (tagLanguage tag) (Str.trim bd)].
Proof.
  intros Hprim Hpre Hl Hlab Hbare Htag Hbd Hpost.
  unfold parseGeneratedContent, exec_all at 1. cbn [exec_loop].
  rewrite (LinkFacts.search_absent delimiterRegex FILE_START _ _ _ delimiter_re eq_refl Hprim).
  cbn [map].
  destruct (exec_codeBlock_tag pre tag bd post Hpre Htag Hbd Hpost) as (m & -> & Hc & Hi).
  cbn [fallbackFiles]. f_equal.
  unfold fallbackFile, group_str, group, Str.substring0.
  rewrite Hc, Hi, take_app_length. cbn [lookup list_lookup default]. rewrite Hl.
  unfold test in Hlab, Hbare.
  destruct (exec fileLabelRegex l); [done|]. destruct (exec bareNameRegex l); [done|].
  unfold defaultName, tagLanguage. by destruct tag.
Qed.

Lemma fallback_unlabelled_witness :
  parseGeneratedContent
    ((#"Here is the code" ++ nl) ++ FENCE ++ #"typescript" ++ nl ++ (#"let x = 1;" ++ nl) ++
     FENCE ++ nl)
  = [mkFile #"file_1.ts" #"typescript" #"let x = 1;"].
Proof.
  apply (fallback_unlabelled (#"Here is the code" ++ nl) #"Here is the code" #"typescript"
           (#"let x = 1;" ++ nl) nl); try (by vm_compute).
  by repeat constructor.
Defined.

End UnlabelledFacts.

(** Output statements *)

Module OutputFacts.
Import Regex StrFacts RegexFacts EngineFacts Format FormatFacts StripFacts FallbackFacts Compiler.
Import Shapes.

(** *** Escaping *)

Lemma first_quote (s : str) :
  Forall (fun a => a <> dq) s
  \/ exists u t, s = u ++ dq :: t /\ Forall (fun a => a <> dq) u.
Proof.
  induction s as [|a s IH]; [by left|].
  destruct (decide (a = dq)) as [->|Ha]; [right; by exists [], s|].
  destruct IH as [H|(u & t & -> & Hu)]; [left; by constructor|].
  right. exists (a :: u), t. split; [done|by constructor].
Qed.

Lemma escapeQuotes_plain u : Forall (fun a => a <> dq) u -> escapeQuotes u = u.
Proof.
  induction 1 as [|a u Ha _ IH]; [done|]. unfold escapeQuotes in *. cbn [flat_map].
  replace (Str.ceqb a dq) with false by (symmetry; by apply ceqb_neq). by rewrite IH.
Qed.

Lemma escapeQuotes_app u v : escapeQuotes (u ++ v) = escapeQuotes u ++ escapeQuotes v.
Proof. unfold escapeQuotes. by rewrite flat_map_app. Qed.

Lemma quote_loop (f : unit -> mtch -> unit * str) :
  (forall st m, f st m = (tt, [bs; dq])) ->
  forall fuel s pv, length s < fuel ->
  replace_loop fuel quoteRegex f tt pv s = (tt, escapeQuotes s).
Proof.
  intros Hf. induction fuel as [|fuel IH]; intros s pv Hl; [lia|].
  cbn [replace_loop].
  destruct (first_quote s) as [Hs|(u & t & -> & Hu)].
  - rewrite search_none; [by rewrite escapeQuotes_plain|].
    intros j _. apply (match_at_lit_fail quoteRegex [dq] REmpty); [done|done|].
    destruct (drop j s) as [|a r] eqn:E; [done|].
    apply startsWith_cons_neq. intros <-.
    assert (dq ∈ s) as Hin.
    { apply (list_elem_of_lookup_2 _ j). rewrite <- (Nat.add_0_r j), <- lookup_drop, E. done. }
    rewrite Forall_forall in Hs. by apply (Hs dq Hin).
  - rewrite search_skip.
    + rewrite (search_hit quoteRegex _ _ (dq :: t) (Pos (Some dq) t) []) by reflexivity.
      rewrite Hf. cbn [matched]. rewrite (between_app _ _ [dq] t).
      cbn [after prev rest index]. rewrite IH by (rewrite length_app in Hl; simpl in Hl; lia).
      rewrite Nat.add_0_l, take_app_length.
      rewrite escapeQuotes_app, (escapeQuotes_plain u Hu).
      unfold escapeQuotes at 2. cbn [flat_map]. rewrite ceqb_refl. done.
    + intros j Hj. apply (match_at_lit_fail quoteRegex [dq] REmpty); [done|done|].
      destruct (drop j u) as [|a r] eqn:E.
      { apply (f_equal length) in E. rewrite length_drop in E. simpl in E. lia. }
      apply startsWith_cons_neq. intros <-.
      assert (dq ∈ u) as Hin.
      { apply (list_elem_of_lookup_2 _ j). rewrite <- (Nat.add_0_r j), <- lookup_drop, E. done. }
      rewrite Forall_forall in Hu. by apply (Hu dq Hin).
Qed.

(** X15.  A logged message is written as the argument of one console write,
    between double quotes, with a backslash put before each double quote
    of the message and every other character, a backslash included, as it
    is. *)
Theorem addLog_escapes msg :
  addLog msg = q"console.log(~" ++ escapeQuotes msg ++ q"~);".
Proof.
  unfold addLog, replace_all, replace_all_with, replace_all_fold.
  rewrite quote_loop; [done|done|lia].
Qed.

(** *** Output statements *)

Lemma trimStart_le s : length (Str.trimStart s) <= length s.
Proof. induction s as [|a s IH]; [done|]. simpl. destruct (Str.is_space a); simpl; lia. Qed.

Lemma trimEnd_le s : length (Str.trimEnd s) <= length s.
Proof.
  unfold Str.trimEnd. rewrite length_reverse. etrans; [apply trimStart_le|].
  by rewrite length_reverse.
Qed.

Lemma trimStart_fix s :
  length (Str.trimStart s) = length s -> forall a, head s = Some a -> Str.is_space a = false.
Proof.
  destruct s as [|b s]; [done|]. simpl. intros H a [= <-].
  destruct (Str.is_space b); [|done]. pose proof (trimStart_le s). lia.
Qed.

Lemma trim_fix p :
  Str.trim p = p ->
  (forall a, head p = Some a -> Str.is_space a = false)
  /\ (forall a, last p = Some a -> Str.is_space a = false).
Proof.
  intros H. pose proof (trimStart_le p) as H1. pose proof (trimEnd_le (Str.trimStart p)) as H2.
  unfold Str.trim in H. apply (f_equal length) in H as Hl.
  assert (forall a, head p = Some a -> Str.is_space a = false) as Hh.
  { apply trimStart_fix. lia. }
  split; [done|]. rewrite (trimStart_id p Hh) in H. unfold Str.trimEnd in H.
  intros a Ha. rewrite <- head_reverse in Ha. revert a Ha. apply trimStart_fix.
  rewrite <- (length_reverse (Str.trimStart _)), H. by rewrite length_reverse.
Qed.

Lemma trimStart_spaces w s : spaces w -> Str.trimStart (w ++ s) = Str.trimStart s.
Proof. induction 1 as [|a w Ha _ IH]; [done|]. simpl. by rewrite Ha. Qed.

Lemma trimEnd_spaces w s : spaces w -> Str.trimEnd (s ++ w) = Str.trimEnd s.
Proof.
  intros Hw. unfold Str.trimEnd. rewrite reverse_app, trimStart_spaces; [done|].
  unfold spaces. by rewrite Forall_reverse.
Qed.

Lemma trimStart_all_spaces w : spaces w -> Str.trimStart w = [].
Proof. induction 1 as [|a w Ha _ IH]; [done|]. simpl. by rewrite Ha. Qed.

Lemma trim_spaces w1 s w2 : spaces w1 -> spaces w2 -> Str.trim (w1 ++ s ++ w2) = Str.trim s.
Proof.
  intros H1 H2. unfold Str.trim. rewrite trimStart_spaces by done.
  rewrite FallbackFacts.trimStart_app. destruct (Str.trimStart s) as [|a t] eqn:E.
  - by rewrite trimStart_all_spaces.
  - by rewrite trimEnd_spaces.
Qed.

Lemma trim_pad w1 p w2 :
  spaces w1 -> spaces w2 -> Str.trim p = p -> Str.trim (w1 ++ p ++ w2) = p.
Proof.
  intros H1 H2 Hp. destruct (trim_fix p Hp) as [Hh Hl]. unfold Str.trim.
  rewrite trimStart_spaces by done. destruct p as [|a p].
  - simpl. clear -H2. induction H2 as [|a w Ha _ IH]; [done|]. simpl. by rewrite Ha.
  - rewrite trimStart_id by (intros b [= <-]; by apply Hh).
    rewrite trimEnd_spaces by done. by apply trimEnd_id.
Qed.

Lemma startsWith_SHL_neq a s : a <> "<"%char -> Str.startsWith SHL (a :: s) = false.
Proof. intros H. apply startsWith_cons_neq. congruence. Qed.

Lemma split_SHL_plain cur u :
  Forall (fun a => a <> "<"%char) u -> Str.split_go SHL 0 cur u = [reverse cur ++ u].
Proof.
  revert cur; induction u as [|a u IH]; intros cur Hu.
  - simpl. by rewrite app_nil_r.
  - inversion_clear Hu as [|?? Ha Hu']. cbn [Str.split_go].
    rewrite startsWith_SHL_neq by done. rewrite IH by done.
    by rewrite reverse_cons, <- app_assoc.
Qed.

Lemma split_SHL_cut cur u t :
  Forall (fun a => a <> "<"%char) u ->
  Str.split_go SHL 0 cur (u ++ SHL ++ t) = (reverse cur ++ u) :: Str.split_go SHL 0 [] t.
Proof.
  revert cur; induction u as [|a u IH]; intros cur Hu.
  - cbn [app SHL list_ascii_of_string Str.split_go Str.startsWith length Nat.sub].
    rewrite !ceqb_refl. cbn [andb]. by rewrite app_nil_r.
  - inversion_clear Hu as [|?? Ha Hu']. cbn [app Str.split_go].
    rewrite startsWith_SHL_neq by done. rewrite IH by done.
    by rewrite reverse_cons, <- app_assoc.
Qed.

Lemma split_operands ps : forall w,
  ps <> [] -> spaces w -> Forall (fun a => a <> "<"%char) w -> Forall operand ps ->
  map Str.trim (Str.split SHL (w ++ Str.join #" << " ps)) = ps.
Proof.
  induction ps as [|p ps IH]; intros w Hne Hw Hw' Hps; [done|].
  inversion_clear Hps as [|?? [Hp Hp'] Hps']. unfold Str.split.
  destruct ps as [|p' ps].
  - cbn [Str.join]. rewrite split_SHL_plain by (by apply Forall_app).
    rewrite reverse_nil. cbn [map app]. f_equal.
    replace (w ++ p) with (w ++ p ++ []) by (by rewrite app_nil_r).
    apply trim_pad; [done|constructor|done].
  - change (Str.join #" << " (p :: p' :: ps))
      with (p ++ #" " ++ SHL ++ #" " ++ Str.join #" << " (p' :: ps)).
    replace (w ++ p ++ #" " ++ SHL ++ #" " ++ Str.join #" << " (p' :: ps))
      with ((w ++ p ++ #" ") ++ SHL ++ #" " ++ Str.join #" << " (p' :: ps))
      by (by rewrite <- !app_assoc).
    rewrite split_SHL_cut.
    2:{ apply Forall_app. split; [done|]. apply Forall_app. split; [done|].
        by repeat constructor. }
    rewrite reverse_nil. cbn [map app]. f_equal.
    + apply trim_pad; [done|by repeat constructor|done].
    + apply (IH #" "); [done|by repeat constructor|by repeat constructor|done].
Qed.

Lemma cout_strip X :
  (forall a, head X = Some a -> Str.is_space a = false) ->
  replace_first coutRegex [] (#"cout << " ++ X) = X.
Proof.
  intros HX. unfold replace_first, replace_first_with, exec.
  assert (match_at coutRegex (Pos None (#"cout << " ++ X))
          = Some (Pos (lastp (Some "<"%char) #" ") X, [])) as E.
  { unfold match_at.
    change (re coutRegex)
      with (RSeq RBol (RSeq (RLit #"cout") (RSeq (RStar RSpace) (RSeq (RLit SHL)
              (RSeq (RStar RSpace) REmpty))))).
    change (ignoreCase coutRegex) with false.
    rewrite rmatch_seq. cbn [rmatch prev].
    change (#"cout << " ++ X) with (#"cout" ++ #" " ++ SHL ++ #" " ++ X).
    rewrite lit_match_app.
    change (repeat _ _ _ 0 None true ?x ?cs ?k) with (rmatch false (RStar RSpace) x cs k).
    unfold RSpace. rewrite rmatch_set_greedy. apply greedy_star_all.
    - by repeat constructor.
    - done.
    - cbv beta. rewrite lit_match_app.
      change (repeat _ _ _ 0 None true ?x ?cs ?k) with (rmatch false (RStar RSpace) x cs k).
      unfold RSpace. rewrite rmatch_set_greedy. apply greedy_star_all.
      + by repeat constructor.
      + destruct X as [|a X']; [done|]. rewrite set_mem_space. by apply HX.
      + done. }
  rewrite (search_hit _ _ _ _ _ _ E). cbn [index after rest matched captures]. done.
Qed.

Lemma semicolon_strip Y : replace_first semicolonRegex [] (Y ++ #";") = Y.
Proof.
  unfold replace_first, replace_first_with, exec.
  rewrite search_skip.
  - rewrite (search_hit semicolonRegex _ _ #";" (Pos (Some ";"%char) []) []) by reflexivity.
    cbn [index after rest]. rewrite Nat.add_0_l, take_app_length. by rewrite !app_nil_r.
  - intros j Hj. unfold match_at.
    change (re semicolonRegex) with (RSeq (RLit #";") (RSeq REol REmpty)).
    apply ParserFacts.lit_eol_fail. rewrite length_app, length_drop. simpl. lia.
Qed.

(** X16.  An output statement, [cout] and operands chained by [<<] with single
    spaces and ended by a semicolon, on a line of its own, is rewritten as
    one console write with the same operands in the same order, the
    line-end sentinel [endl] becoming a newline string. *)
Theorem processLine_output line p ps :
  p <> [] -> Forall operand (p :: ps) ->
  Str.trim line = #"cout << " ++ Str.join #" << " (p :: ps) ++ #";" ->
  processLine line = #"console.log(" ++ Str.join #", " (map jsPart (p :: ps)) ++ #");".
Proof.
  intros Hne Hps Hline. unfold processLine. rewrite Hline.
  change (#"cout << " ++ Str.join #" << " (p :: ps) ++ #";")
    with (#"cout" ++ (#" << " ++ Str.join #" << " (p :: ps) ++ #";")) at 1.
  rewrite startsWith_app. rewrite cout_strip.
  2:{ inversion_clear Hps as [|?? [Hp _] _]. destruct (trim_fix p Hp) as [Hh _].
      destruct p as [|a p']; [done|]. destruct ps; intros b [= <-]; by apply Hh. }
  rewrite semicolon_strip.
  pose proof (split_operands (p :: ps) [] ltac:(done) ltac:(constructor) ltac:(constructor) Hps)
    as Hs.
  cbn [app] in Hs. fold SHL. rewrite Hs. done.
Qed.

Lemma processLine_output_witness :
  processLine (#"  " ++ q"cout << ~Total: ~ << n << endl;")
  = q"console.log(~Total: ~, n, ~\n~);".
Proof.
  apply (processLine_output _ (q"~Total: ~") [ #"n"; #"endl" ]); [done| |by vm_compute].
  repeat constructor; by vm_compute.
Defined.

End OutputFacts.

(** File extensions and the view of new files *)

Module ExtFacts.
Import Regex StrFacts RegexFacts Compiler Viewer Shapes.

Lemma endsWith_iff p s : Str.endsWith p s = true <-> exists u, s = u ++ p.
Proof.
  unfold Str.endsWith. rewrite andb_true_iff, Nat.leb_le, eqb_eq. split.
  - intros [Hl E]. exists (take (length s - length p) s).
    transitivity (take (length s - length p) s ++ drop (length s - length p) s);
      [by rewrite take_drop|by f_equal].
  - intros [u ->]. rewrite length_app. split; [lia|].
    replace (length u + length p - length p) with (length u) by lia.
    by rewrite drop_app_length.
Qed.

Lemma lits_eol e es pv t cs (k : pos -> caps -> caps) :
  is_Some (rmatch false (lits e es) (Pos pv t) cs
             (fun y cs' => rmatch false (RSeq REol REmpty) y (k y cs') K0))
  <-> t ∈ e :: es.
Proof.
  revert e; induction es as [|e' es IH]; intros e.
  - unfold lits. cbn [map ralt rmatch]. rewrite list_elem_of_singleton.
    destruct (lit_match false e (Pos pv t)) as [y|] eqn:E.
    + apply lit_match_inv in E as (t' & -> & ->). cbn [rest].
      destruct t' as [|c t'].
      * rewrite app_nil_r. split; [done|by eexists].
      * split; [by intros [? ?]|]. intros H. apply (f_equal length) in H.
        rewrite length_app in H. simpl in H. lia.
    + split; [by intros [? ?]|]. intros ->.
      pose proof (lit_match_app pv e []) as H. rewrite app_nil_r in H. congruence.
  - unfold lits. cbn [map ralt]. change (ralt (RLit e') (map RLit es)) with (lits e' es).
    cbn [rmatch]. rewrite elem_of_cons, <- IH.
    destruct (lit_match false e (Pos pv t)) as [y|] eqn:E.
    + apply lit_match_inv in E as (t' & -> & ->). cbn [rest].
      destruct t' as [|c t'].
      * rewrite app_nil_r. split; [by left|by eexists].
      * split; [by right|]. intros [H|H]; [|done].
        apply (f_equal length) in H. rewrite length_app in H. simpl in H. lia.
    + split; [by right|]. intros [->|H]; [|done].
      pose proof (lit_match_app pv e []) as H. rewrite app_nil_r in H. congruence.
Qed.

Lemma match_at_ext e es pv s :
  is_Some (match_at (extPattern e es) (Pos pv s)) <-> exists x, x ∈ e :: es /\ s = #"." ++ x.
Proof.
  unfold match_at, extPattern. cbn [re ignoreCase ngroups rseq foldr].
  destruct (Str.startsWith #"." s) eqn:E.
  - apply startsWith_inv in E as [t ->]. rewrite rmatch_lit_app.
    rewrite FormatFacts.rmatch_seq, FormatFacts.rmatch_group.
    rewrite (lits_eol e es _ t _ (fun y cs' => <[0 := Some (between (Pos (lastp pv #".") t) y)]> cs')).
    split; [intros H; by exists t|]. by intros (x & Hx & ->%app_inv_head).
  - rewrite rmatch_lit_fail by done. split; [by intros [? ?]|].
    intros (x & _ & ->). by rewrite startsWith_app in E.
Qed.

Lemma search_ext e es : forall s i pv,
  is_Some (search (extPattern e es) i pv s)
  <-> exists u x, x ∈ e :: es /\ s = u ++ #"." ++ x.
Proof.
  induction s as [|a s IH]; intros i pv; cbn [search].
  - destruct (match_at (extPattern e es) (Pos pv [])) as [[y cs]|] eqn:E.
    + split; [|by eexists]. intros _.
      destruct (proj1 (match_at_ext e es pv [])) as (x & Hx & Hs); [by rewrite E|].
      by exists [], x.
    + split; [by intros [? ?]|]. intros (u & x & Hx & Hs).
      destruct u; [|done]. simpl in Hs.
      assert (is_Some (match_at (extPattern e es) (Pos pv []))) as [? ?]; [|congruence].
      apply match_at_ext. by exists x.
  - destruct (match_at (extPattern e es) (Pos pv (a :: s))) as [[y cs]|] eqn:E.
    + split; [|by eexists]. intros _.
      destruct (proj1 (match_at_ext e es pv (a :: s))) as (x & Hx & Hs); [by rewrite E|].
      by exists [], x.
    + rewrite IH. split.
      * intros (u & x & Hx & ->). by exists (a :: u), x.
      * intros (u & x & Hx & Hs). destruct u as [|b u].
        -- assert (is_Some (match_at (extPattern e es) (Pos pv (a :: s)))) as [? ?];
             [|congruence].
           apply match_at_ext. by exists x.
        -- injection Hs as -> ->. by exists u, x.
Qed.

(** The test of such a pattern is a test on the end of the name. *)
Lemma test_ext e es n :
  test (extPattern e es) n = true <-> exists x, x ∈ e :: es /\ Str.endsWith (#"." ++ x) n = true.
Proof.
  unfold test, exec.
  pose proof (search_ext e es n 0 None) as H.
  destruct (search (extPattern e es) 0 None n) as [m|].
  - split; [|done]. intros _. destruct (proj1 H) as (u & x & Hx & ->); [by eexists|].
    exists x. split; [done|]. apply endsWith_iff. by exists u.
  - split; [done|]. intros (x & Hx & [u ->]%endsWith_iff).
    destruct (proj2 H) as [? ?]; [by exists u, x|done].
Qed.

Lemma jsExt_web n : test jsExtRegex n = true -> test webExtRegex n = true.
Proof.
  change jsExtRegex with (extPattern #"js" [ #"jsx"; #"ts"; #"tsx" ]).
  change webExtRegex with (extPattern #"js" [ #"jsx"; #"ts"; #"tsx"; #"css"; #"liquid" ]).
  rewrite !test_ext. intros (x & Hx & H). exists x. split; [|done].
  rewrite !elem_of_cons in Hx. rewrite !elem_of_cons. tauto.
Qed.

Lemma css_web n : Str.endsWith #".css" n = true -> test webExtRegex n = true.
Proof.
  change webExtRegex with (extPattern #"js" [ #"jsx"; #"ts"; #"tsx"; #"css"; #"liquid" ]).
  rewrite test_ext. intros H. exists #"css". split; [|done].
  rewrite !elem_of_cons. tauto.
Qed.

Lemma liquid_web n : Str.endsWith #".liquid" n = true -> test webExtRegex n = true.
Proof.
  change webExtRegex with (extPattern #"js" [ #"jsx"; #"ts"; #"tsx"; #"css"; #"liquid" ]).
  rewrite test_ext. intros H. exists #"liquid". split; [|done].
  rewrite !elem_of_cons. tauto.
Qed.

Lemma existsb_false_filter {A} (p q : A -> bool) l :
  existsb q l = false -> (forall x, p x = true -> q x = true) -> List.filter p l = [].
Proof.
  intros H Hpq. induction l as [|x l IH]; [done|]. simpl in *.
  apply orb_false_iff in H as [Hx Hl]. destruct (p x) eqn:E; [|by apply IH].
  by rewrite (Hpq x E) in Hx.
Qed.

Lemma existsb_false_find {A} (p q : A -> bool) l :
  existsb q l = false -> (forall x, p x = true -> q x = true) -> List.find p l = None.
Proof.
  intros H Hpq. induction l as [|x l IH]; [done|]. simpl in *.
  apply orb_false_iff in H as [Hx Hl]. destruct (p x) eqn:E; [|by apply IH].
  by rewrite (Hpq x E) in Hx.
Qed.

(** X20.  When the viewer opens a non-empty list of artifacts on the code, no
    artifact is styled, run or simulated: the preview it holds is the
    page whose name is [preview.html] in some letter case, or else the
    synthesized empty document, with the console hook. *)
Theorem code_view_preview files previewHtml mainView :
  files <> [] ->
  snd (onFiles files previewHtml mainView) = ViewCode ->
  fst (onFiles files previewHtml mainView)
  = injectHook (match List.find isPreviewHtml files with
                | Some f => content f
                | None => emptyDocument
                end).
Proof.
  intros Hne. unfold onFiles. destruct files as [|f0 fs]; [done|]. clear Hne.
  set (files := f0 :: fs). cbn [fst snd].
  destruct (isWebProject files) eqn:Ew; [done|].
  destruct (isNativeProject files) eqn:En; [done|]. intros _.
  unfold isWebProject, isNativeProject in *.
  assert (List.filter isJs files = []) as Hjs.
  { apply (existsb_false_filter _ _ _ Ew). intros x Hx.
    unfold isJs in Hx. by rewrite (jsExt_web _ Hx), orb_true_r. }
  assert (List.filter isCss files = []) as Hcss.
  { apply (existsb_false_filter _ _ _ Ew). intros x Hx.
    unfold isCss in Hx. by rewrite (css_web _ Hx), orb_true_r. }
  assert (List.find isHtml files = None) as Hhtml.
  { apply (existsb_false_find _ _ _ Ew). intros x Hx.
    unfold isHtml in Hx. apply andb_true_iff in Hx as [Hx _]. by rewrite Hx. }
  assert (List.find isLiquid files = None) as Hliq.
  { apply (existsb_false_find _ _ _ Ew). intros x Hx.
    unfold isLiquid in Hx. by rewrite (liquid_web _ Hx), orb_true_r. }
  assert (List.find isNativeFile files = None) as Hnat.
  { apply (existsb_false_find _ _ _ En). by intros x Hx. }
  unfold assemblePreview, isNative, isReact.
  rewrite Hjs, Hcss, Hhtml, Hliq, Hnat. cbn [existsb map].
  destruct (List.find isPreviewHtml files) as [f|]; reflexivity.
Qed.

Lemma code_view_preview_witness :
  fst (onFiles [mkFile #"README.md" #"md" #"# Notes"] [] ViewPreview) = injectHook emptyDocument.
Proof.
  apply (code_view_preview [mkFile #"README.md" #"md" #"# Notes"] [] ViewPreview); [done|].
  by vm_compute.
Defined.

End ExtFacts.

(** The output of a Python script *)

Module PythonFacts.
Import Regex StrFacts RegexFacts EngineFacts Format FormatFacts Compiler Shapes.

(** *** The extension of a C or C++ file *)

Lemma lit_match_ic_inv ic p : forall pv s y,
  lit_match ic p (Pos pv s) = Some y ->
  exists p' t, s = p' ++ t /\ Forall2 (fun c a => char_eq ic c a = true) p p' /\ rest y = t.
Proof.
  induction p as [|c p IH]; intros pv s y; cbn [lit_match rest].
  - intros [= <-]. by exists [], s.
  - destruct s as [|a s]; [done|]. destruct (char_eq ic c a) eqn:E; [|done].
    intros (p' & t & -> & Hp & Ht)%IH. exists (a :: p'), t. split; [done|].
    split; [by constructor|done].
Qed.

Lemma search_suffix p : forall s i pv m,
  search p i pv s = Some m ->
  exists u v pv', s = u ++ v /\ is_Some (match_at p (Pos pv' v)).
Proof.
  induction s as [|a s IH]; intros i pv m; cbn [search].
  - destruct (match_at p (Pos pv [])) as [[y cs]|] eqn:E; [|done].
    intros _. exists [], [], pv. by rewrite E.
  - destruct (match_at p (Pos pv (a :: s))) as [[y cs]|] eqn:E.
    + intros _. exists [], (a :: s), pv. by rewrite E.
    + intros (u & v & pv' & -> & H)%IH. by exists (a :: u), v, pv'.
Qed.

Lemma Forall2_last {A B} (R : A -> B -> Prop) l k x :
  Forall2 R l k -> last l = Some x -> exists y, last k = Some y /\ R x y.
Proof.
  induction 1 as [|a b l k Hab Hlk IH]; [done|].
  destruct Hlk as [|a' b' l k Hab' Hlk].
  - intros [= <-]. by exists b.
  - intros H. apply (IH H).
Qed.

Lemma lit_eol_ic ic lit pv t cs (k : pos -> caps -> caps) z :
  match lit_match ic lit (Pos pv t) with
  | Some y => rmatch ic (RSeq REol REmpty) y (k y cs) K0
  | None => None
  end = Some z ->
  Forall2 (fun c a => char_eq ic c a = true) lit t.
Proof.
  destruct (lit_match ic lit (Pos pv t)) as [y|] eqn:E; [|done].
  apply lit_match_ic_inv in E as (p' & t' & -> & Hp & Ht). cbn [rmatch]. rewrite Ht.
  destruct t'; [|done]. by rewrite app_nil_r.
Qed.

Lemma rmatch_alt ic r1 r2 x cs k :
  rmatch ic (RAlt r1 r2) x cs k
  = match rmatch ic r1 x cs k with Some z => Some z | None => rmatch ic r2 x cs k end.
Proof. done. Qed.

Lemma lits_eol_ic ic es : forall e pv t cs (k : pos -> caps -> caps) z,
  rmatch ic (lits e es) (Pos pv t) cs
    (fun y cs' => rmatch ic (RSeq REol REmpty) y (k y cs') K0) = Some z ->
  exists x, x ∈ e :: es /\ Forall2 (fun c a => char_eq ic c a = true) x t.
Proof.
  induction es as [|e' es IH]; intros e pv t cs k z.
  - unfold lits. cbn [map ralt]. intros H. exists e. split; [by left|].
    cbn [rmatch] in H. by eapply (lit_eol_ic ic e pv t cs k z).
  - unfold lits. cbn [map ralt].
    change (ralt (RLit e') (map RLit es)) with (lits e' es).
    rewrite rmatch_alt.
    destruct (rmatch ic (RLit e) (Pos pv t) cs
                (fun y cs' => rmatch ic (RSeq REol REmpty) y (k y cs') K0)) as [z1|] eqn:E.
    + intros _. exists e. split; [by left|]. cbn [rmatch] in E.
      by eapply (lit_eol_ic ic e pv t cs k z1).
    + intros H. apply IH in H as (x & Hx & Hxt). exists x. split; [by right|done].
Qed.

Lemma cppExt_last n :
  test cppExtRegex n = true ->
  exists c, last n = Some c /\ (Str.upper c = "P" \/ Str.upper c = "C" \/ Str.upper c = "H")%char.
Proof.
  unfold test, exec. destruct (search cppExtRegex 0 None n) as [m|] eqn:Es; [|done].
  intros _. apply search_suffix in Es as (u & v & pv & -> & [[y cs] Hm]).
  unfold match_at in Hm.
  change (re cppExtRegex)
    with (RSeq (RLit #".") (RSeq (RGroup 0 (lits #"cpp" [ #"c"; #"h"; #"hpp" ]))
            (RSeq REol REmpty))) in Hm.
  change (ignoreCase cppExtRegex) with true in Hm.
  rewrite rmatch_seq in Hm. cbn [rmatch] in Hm.
  destruct (lit_match true #"." (Pos pv v)) as [y1|] eqn:E1; [|done].
  apply lit_match_ic_inv in E1 as (p' & t & -> & Hp & Ht).
  destruct y1 as [pv1 t1]. cbn [rest] in Ht. subst t1.
  apply (lits_eol_ic true _ _ _ _ _
           (fun y0 cs' => <[0 := Some (between (Pos pv1 t) y0)]> cs')) in Hm
    as (x & Hx & Hxt).
  assert (exists lx, last x = Some lx /\ (lx = "p" \/ lx = "c" \/ lx = "h")%char)
    as (lx & Hlx & Hcase).
  { repeat (apply elem_of_cons in Hx as [->|Hx]); [eexists; split; [done|tauto]..|].
    by apply elem_of_nil in Hx. }
  destruct (Forall2_last _ _ _ _ Hxt Hlx) as (c & Hc & Hceq).
  exists c. split.
  - rewrite !last_app, Hc. done.
  - unfold char_eq in Hceq. apply ceqb_eq in Hceq.
    destruct Hcase as [-> | [-> | ->]]; rewrite <- Hceq; tauto.
Qed.

Lemma endsWith_last p s c : 
  Str.endsWith p s = true -> last p = Some c -> last s = Some c.
Proof.
  intros [u ->]%ExtFacts.endsWith_iff Hp. by rewrite last_app, Hp.
Qed.

Lemma py_not_cpp n : Str.endsWith #".py" n = true -> test cppExtRegex n = false.
Proof.
  intros H. destruct (test cppExtRegex n) eqn:E; [|done].
  apply cppExt_last in E as (c & Hc & Hu).
  rewrite (endsWith_last _ _ "y"%char H eq_refl) in Hc. injection Hc as <-.
  by destruct Hu as [?|[?|?]].
Qed.

(** *** One output statement *)

Lemma printRegex_re :
  re printRegex
  = RSeq (RLit #"print") (RSeq (RStar RSpace) (RSeq (RLit #"(") (RSeq (RStar RSpace)
      (RSeq (RGroup 0 (RSet false [CChar "'"; CChar dq])) (RSeq (RGroup 1 (RStarLazy RDot))
        (RSeq (RBackref 0) (RSeq (RStar RSpace) (RSeq (RLit #")") REmpty)))))))).
Proof. reflexivity. Qed.

Lemma match_print pv st X :
  wfPrint st ->
  match_at printRegex
    (Pos pv (#"print(" ++ [quote st] ++ message st ++ [quote st] ++ #")" ++ X))
  = Some (Pos (Some ")"%char) X, [Some [quote st]; Some (message st)]).
Proof.
  intros [Hq Hm _]. unfold match_at. rewrite printRegex_re.
  change (ignoreCase printRegex) with false. change (ngroups printRegex) with 2.
  set (qc := quote st) in *. set (msg := message st) in *.
  change (#"print(" ++ [qc] ++ msg ++ [qc] ++ #")" ++ X)
    with (#"print" ++ "("%char :: qc :: msg ++ [qc] ++ #")" ++ X).
  rewrite rmatch_lit_app, rmatch_seq. unfold RSpace. rewrite rmatch_set_greedy.
  cbn [greedy_star]. change (set_mem false false [CSpace] "(") with false. cbv iota.
  change ("("%char :: qc :: msg ++ [qc] ++ #")" ++ X) with (#"(" ++ qc :: msg ++ [qc] ++ #")" ++ X).
  rewrite rmatch_lit_app, rmatch_seq, rmatch_set_greedy.
  assert (set_mem false false [CSpace] qc = false) as Hsp.
  { destruct Hq as [-> | ->]; done. }
  cbn [greedy_star]. rewrite Hsp.
  rewrite rmatch_seq, rmatch_group. cbn [rmatch rest].
  assert (set_mem false false [CChar "'"; CChar dq] qc = true) as Hset.
  { destruct Hq as [-> | ->]; done. }
  rewrite Hset. unfold advance.
  change (between _ (Pos (Some qc) (msg ++ [qc] ++ #")" ++ X))) with
    (between (Pos (lastp (lastp pv #"print") #"(") ([qc] ++ msg ++ [qc] ++ #")" ++ X))
             (Pos (Some qc) (msg ++ [qc] ++ #")" ++ X))).
  rewrite (between_app _ _ [qc]).
  change (repeat _ _ _ 0 None false ?x ?cs ?k) with (rmatch false (RStarLazy RDot) x cs k).
  rewrite rmatch_dot_lazy.
  apply lazy_star_first.
  - eapply Forall_impl; [exact Hm|]. by intros a [_ ->].
  - intros i Hi. cbn [lookup list_lookup insert list_insert replicate].
    destruct (drop i msg) as [|c r] eqn:Ed.
    { apply (f_equal length) in Ed. rewrite length_drop in Ed. simpl in Ed. lia. }
    assert (c ∈ msg) as Hin.
    { apply (list_elem_of_lookup_2 _ i). rewrite <- (Nat.add_0_r i), <- lookup_drop, Ed. done. }
    rewrite Forall_forall in Hm. destruct (Hm c Hin) as [Hc _].
    cbn [app lit_match rest char_eq].
    replace (Str.ceqb qc c) with false; [done|]. symmetry. apply ceqb_neq. congruence.
  - rewrite between_app. cbn [lookup list_lookup insert list_insert replicate].
    cbn [app lit_match rest char_eq]. rewrite ceqb_refl. unfold advance. cbn [lit_match].
    change (repeat _ _ _ 0 None true ?x ?cs ?k) with (rmatch false (RStar (RSet false [CSpace])) x cs k).
    rewrite rmatch_set_greedy. cbn [greedy_star].
    change (set_mem false false [CSpace] ")") with false. cbv iota.
    cbn [lit_match rest char_eq list_ascii_of_string]. change (Str.ceqb ")" ")") with true.
    cbv iota. reflexivity.
Qed.

Lemma renderScript_cons intro st sts :
  renderScript intro (st :: sts)
  = intro ++ #"print" ++ #"(" ++ [quote st] ++ message st ++ [quote st] ++ #")" ++
    renderScript (rest_of st) sts.
Proof. unfold renderScript, renderPrint. cbn [map concat]. by rewrite <- !app_assoc. Qed.

Lemma renderScript_nil intro : renderScript intro [] = intro.
Proof. unfold renderScript. simpl. by rewrite app_nil_r. Qed.

Lemma length_renderScript intro sts : length sts <= length (renderScript intro sts).
Proof.
  revert intro; induction sts as [|st sts IH]; intros intro; [simpl; lia|].
  rewrite renderScript_cons. specialize (IH (rest_of st)).
  rewrite !length_app. simpl. lia.
Qed.

Lemma search_print i pv intro st sts :
  firstAt #"print" intro -> wfPrint st ->
  exists m,
    search printRegex i pv (renderScript intro (st :: sts)) = Some m
    /\ captures m = [Some [quote st]; Some (message st)]
    /\ matched m <> []
    /\ after m = Pos (Some ")"%char) (renderScript (rest_of st) sts).
Proof.
  intros Hintro Hst. rewrite renderScript_cons, search_skip.
  - eexists. split; [apply search_hit, (match_print _ st); done|].
    cbn [captures matched after]. split; [done|]. split; [|done].
    apply between_prefix_nonempty; [done|]. rewrite !length_app. lia.
  - intros j Hj. eapply match_at_lit_fail; [apply printRegex_re|done|].
    by apply firstAt_fail.
Qed.

Lemma exec_loop_prints sts : forall fuel i pv intro,
  firstAt #"print" intro -> Forall wfPrint sts -> length sts < fuel ->
  map captures (exec_loop fuel printRegex i pv (renderScript intro sts))
  = map (fun st => [Some [quote st]; Some (message st)]) sts.
Proof.
  induction sts as [|st sts IH]; intros [|fuel] i pv intro Hintro Hsts Hf; simpl in Hf; try lia.
  - rewrite renderScript_nil. cbn [exec_loop]. rewrite search_none; [done|].
    intros j _. eapply match_at_lit_fail; [apply printRegex_re|done|].
    by apply firstAt_absent.
  - inversion_clear Hsts as [|?? Hst Hsts'].
    destruct (search_print i pv intro st sts Hintro Hst) as (m & Hs & Hc & Hm & Ha).
    cbn [exec_loop]. rewrite Hs. cbn [map]. rewrite Hc. f_equal.
    destruct (matched m) as [|c mm]; [done|]. rewrite Ha. cbn [prev rest].
    apply IH; [by destruct Hst|done|lia].
Qed.

Lemma map_group ms sts :
  map captures ms = map (fun st => [Some [quote st]; Some (message st)]) sts ->
  map (fun m => addLog (group_str m 1)) ms = map (fun st => addLog (message st)) sts.
Proof.
  revert sts; induction ms as [|m ms IH]; intros [|st sts] H; simpl in *; try done.
  injection H as Hm Hms. f_equal; [|by apply IH].
  unfold group_str, group. by rewrite Hm.
Qed.

(** X17.  A Python script in which each [print] of a quoted message is written
    without white space, whatever stands between the statements, is
    simulated by one console write per statement, in the order of the
    statements and one per line, each with the message of its statement. *)
Theorem simulate_python file intro sts :
  Str.endsWith #".py" (name file) = true ->
  content file = renderScript intro sts ->
  firstAt #"print" intro -> Forall wfPrint sts ->
  simulateNativeLanguage file = Str.join nl (map (fun st => addLog (message st)) sts).
Proof.
  intros Hname Hc Hintro Hsts. unfold simulateNativeLanguage.
  rewrite (py_not_cpp _ Hname), Hname, Hc. f_equal. apply map_group.
  unfold exec_all. apply exec_loop_prints; [done|done|].
  pose proof (length_renderScript intro sts). lia.
Qed.

Lemma simulate_python_witness :
  simulateNativeLanguage
    (mkFile #"main.py" #"py"
       (renderScript (#"x = 1" ++ nl)
          [PyPrint "'" (q"say ~hi~") nl; PyPrint dq #"done" (nl ++ #"# end")]))
  = q"console.log(~say \~hi\~~);" ++ nl ++ q"console.log(~done~);".
Proof.
  apply (simulate_python _ (#"x = 1" ++ nl)
           [PyPrint "'" (q"say ~hi~") nl; PyPrint dq #"done" (nl ++ #"# end")]);
    try (by vm_compute).
  repeat constructor; try (by vm_compute); cbn; by right.
Defined.

End PythonFacts.

(** The fields of an artifact that the preview reads *)

Module FieldFacts.
Import Regex StrFacts RegexFacts Compiler Shapes.

Lemma find_unlabelled (p : GeneratedFile -> bool) l :
  (forall f, p (unlabelled f) = p f) ->
  List.find p (map unlabelled l) = unlabelled <$> List.find p l.
Proof.
  intros Hp. induction l as [|f l IH]; [done|]. cbn [map List.find]. rewrite Hp.
  by destruct (p f).
Qed.

Lemma filter_unlabelled (p : GeneratedFile -> bool) l :
  (forall f, p (unlabelled f) = p f) ->
  List.filter p (map unlabelled l) = map unlabelled (List.filter p l).
Proof.
  intros Hp. induction l as [|f l IH]; [done|]. cbn [map List.filter]. rewrite Hp.
  destruct (p f); cbn [map]; by rewrite IH.
Qed.

Lemma existsb_unlabelled (p : GeneratedFile -> bool) l :
  (forall f, p (unlabelled f) = p f) -> existsb p (map unlabelled l) = existsb p l.
Proof.
  intros Hp. induction l as [|f l IH]; [done|]. cbn [map existsb]. by rewrite Hp, IH.
Qed.

Lemma insertByScore_unlabelled f l :
  insertByScore (unlabelled f) (map unlabelled l) = map unlabelled (insertByScore f l).
Proof.
  induction l as [|g l IH]; [done|]. cbn [map insertByScore unlabelled name].
  destruct (getScore (name f) <=? getScore (name g)); [done|]. cbn [map]. f_equal. apply IH.
Qed.

Lemma sortByScore_unlabelled l :
  sortByScore (map unlabelled l) = map unlabelled (sortByScore l).
Proof.
  induction l as [|f l IH]; [done|]. cbn [map sortByScore foldr].
  change (foldr insertByScore [] (map unlabelled l)) with (sortByScore (map unlabelled l)).
  rewrite IH. apply insertByScore_unlabelled.
Qed.

Lemma processAll_unlabelled l : forall st,
  processAll st (map unlabelled l) = processAll st l.
Proof.
  induction l as [|f l IH]; intros st; [done|]. cbn [map processAll].
  change (processJs st (unlabelled f)) with (processJs st f).
  destruct (processJs st f) as [st1 part]. by rewrite IH.
Qed.

Lemma isNative_unlabelled files : isNative (map unlabelled files) = isNative files.
Proof.
  unfold isNative. rewrite !find_unlabelled, filter_unlabelled by done.
  destruct (List.find isPreviewHtml files), (List.find isHtml files),
    (List.filter isJs files), (List.find isNativeFile files); done.
Qed.

Lemma isReact_unlabelled files : isReact (map unlabelled files) = isReact files.
Proof.
  unfold isReact. rewrite filter_unlabelled by done. by apply existsb_unlabelled.
Qed.

Lemma baseDocument_unlabelled a b c r parts :
  baseDocument (unlabelled <$> a) (unlabelled <$> b) (unlabelled <$> c) r parts
  = baseDocument a b c r parts.
Proof. by destruct a, b, c. Qed.

Lemma cssPart_unlabelled l : map cssPart (map unlabelled l) = map cssPart l.
Proof. rewrite map_map. by apply map_ext. Qed.

Lemma reactAssembly_unlabelled html js :
  reactAssembly html (map unlabelled js) = reactAssembly html js.
Proof.
  unfold reactAssembly, linkScripts.
  rewrite existsb_unlabelled, sortByScore_unlabelled, processAll_unlabelled by done. done.
Qed.

Lemma vanillaAssembly_unlabelled html js :
  vanillaAssembly html (map unlabelled js) = vanillaAssembly html js.
Proof.
  unfold vanillaAssembly. destruct js as [|j js]; [done|].
  cbn [map]. rewrite map_map. done.
Qed.

Lemma assemblePreview_unlabelled files :
  assemblePreview (map unlabelled files) = assemblePreview files.
Proof.
  unfold assemblePreview. rewrite isNative_unlabelled, isReact_unlabelled.
  rewrite !find_unlabelled, !filter_unlabelled by done.
  rewrite baseDocument_unlabelled, cssPart_unlabelled.
  rewrite reactAssembly_unlabelled, vanillaAssembly_unlabelled.
  by destruct (isNative files), (List.find isNativeFile files).
Qed.

Lemma unlabelled_eq files files' :
  map name files = map name files' -> map content files = map content files' ->
  map unlabelled files = map unlabelled files'.
Proof.
  revert files'; induction files as [|f l IH]; intros [|f' l'] Hn Hc; simpl in *; try done.
  injection Hn as Hn Hn'. injection Hc as Hc Hc'. unfold unlabelled at 1 3.
  rewrite Hn, Hc. f_equal. by apply IH.
Qed.

(** X18.  The preview is made of the names and the contents of the artifacts
    alone: the language that the extraction has recorded for an artifact
    is never read. *)
Theorem assemblePreview_ignores_language files files' :
  map name files = map name files' -> map content files = map content files' ->
  assemblePreview files = assemblePreview files'.
Proof.
  intros Hn Hc. rewrite <- (assemblePreview_unlabelled files), <- (assemblePreview_unlabelled files').
  by rewrite (unlabelled_eq files files').
Qed.

Lemma assemblePreview_ignores_language_witness :
  assemblePreview [mkFile #"Makefile" #"makefile" #"all:"; mkFile #"a.js" #"js" #"let x;"]
  = assemblePreview [mkFile #"Makefile" #"text" #"all:"; mkFile #"a.js" #"javascript" #"let x;"].
Proof. by apply assemblePreview_ignores_language. Defined.

(** *** Liquid files without Liquid syntax *)

Lemma includes_longer p x s : Str.includes p s = false -> Str.includes (p ++ x) s = false.
Proof.
  intros H. destruct (Str.includes (p ++ x) s) eqn:E; [|done].
  unfold Str.includes in E. destruct (Str.indexOf (p ++ x) s) as [i|] eqn:Ei; [|done].
  apply indexOf_Some_lt in Ei as [Hi _]. apply startsWith_inv in Hi as [t Ht].
  pose proof (includes_false _ _ H i) as Hf. rewrite Ht, <- app_assoc in Hf.
  by rewrite startsWith_app in Hf.
Qed.

Lemma exec_absent p lit r s :
  re p = RSeq (RLit lit) r -> ignoreCase p = false ->
  Str.includes lit s = false -> exec p s = None.
Proof. intros. by apply (LinkFacts.search_absent p lit r). Qed.

(** X19.  A Liquid file whose content holds neither [{%] nor [{{] is put in the
    body of the scaffold as it is, before an empty script element, and
    adds nothing to the style sheets. *)
Theorem liquid_plain f css :
  Str.includes #"{%" (content f) = false -> Str.includes #"{{" (content f) = false ->
  liquidDocument f css = (liquidOpen ++ content f ++ liquidClose, css).
Proof.
  intros H1 H2. unfold liquidDocument.
  rewrite (LinkFacts.replace_all_absent schemaRegex #"{% schema %}" _ _ _ eq_refl eq_refl
             (includes_longer #"{%" #" schema %}" _ H1)).
  rewrite (exec_absent stylesheetRegex #"{% stylesheet %}" _ _ eq_refl eq_refl
             (includes_longer #"{%" #" stylesheet %}" _ H1)).
  rewrite (exec_absent javascriptRegex #"{% javascript %}" _ _ eq_refl eq_refl
             (includes_longer #"{%" #" javascript %}" _ H1)).
  rewrite (LinkFacts.replace_all_absent sectionImageRegex #"{{" _ _ _ eq_refl eq_refl H2).
  rewrite (LinkFacts.replace_all_absent imageFilterRegex #"{{" _ _ _ eq_refl eq_refl H2).
  rewrite (LinkFacts.replace_all_absent settingRegex #"{{" _ _ _ eq_refl eq_refl H2).
  rewrite (LinkFacts.replace_all_absent expressionRegex #"{{" _ _ _ eq_refl eq_refl H2).
  rewrite (LinkFacts.replace_all_absent logicTagRegex #"{%" _ _ _ eq_refl eq_refl H1).
  by f_equal.
Qed.

Lemma liquid_plain_witness :
  liquidDocument (mkFile #"hero.liquid" #"liquid" #"<h1>Hi</h1>") []
  = (liquidOpen ++ #"<h1>Hi</h1>" ++ liquidClose, []).
Proof. apply (liquid_plain (mkFile #"hero.liquid" #"liquid" #"<h1>Hi</h1>")); by vm_compute. Defined.

End FieldFacts.

(** The history of the application *)

Module HistoryFacts.
Import App.

Lemma entry_Some {A} (a : list A) i x :
  entry a i = Some x -> (0 <= i < Z.of_nat (length a))%Z.
Proof.
  unfold entry. destruct (i <? 0)%Z eqn:E; [done|]. apply Z.ltb_ge in E.
  intros H%lookup_lt_Some. lia.
Qed.

Lemma entry_lookup {A} (a : list A) (n : nat) : entry a (Z.of_nat n) = a !! n.
Proof.
  unfold entry. destruct (Z.of_nat n <? 0)%Z eqn:E; [apply Z.ltb_lt in E; lia|].
  by rewrite Nat2Z.id.
Qed.

Lemma entry_in_range {A} (a : list A) i :
  (0 <= i < Z.of_nat (length a))%Z -> is_Some (entry a i).
Proof.
  intros H. unfold entry. destruct (i <? 0)%Z eqn:E; [apply Z.ltb_lt in E; lia|].
  apply lookup_lt_is_Some. lia.
Qed.

Lemma slice0_take {A} (a : list A) (n : nat) :
  n <= length a -> slice0 (Z.of_nat n) a = take n a.
Proof.
  intros H. unfold slice0. destruct (Z.of_nat n <? 0)%Z eqn:E; [apply Z.ltb_lt in E; lia|].
  f_equal. lia.
Qed.

Lemma pushed r newFiles s :
  let s' := pushToHistory r newFiles s in
  generatedFiles s' = Some newFiles
  /\ (0 <= historyIndex s')%Z
  /\ historyIndex s' = (Z.of_nat (length (history s')) - 1)%Z
  /\ entry (history s') (historyIndex s') = Some newFiles.
Proof.
  cbn. set (h := slice0 (historyIndex r + 1) (history r)).
  rewrite length_app. cbn [length]. split; [done|]. split; [lia|]. split; [done|].
  replace (Z.of_nat (length h + 1) - 1)%Z with (Z.of_nat (length h)) by lia.
  rewrite entry_lookup. by rewrite lookup_app_r, Nat.sub_diag.
Qed.

Lemma shown_pushed r newFiles s : shown (pushToHistory r newFiles s).
Proof.
  destruct (pushed r newFiles s) as (H1 & H2 & H3 & H4).
  split; [lia|]. exists newFiles. split; [done|by right].
Qed.

Lemma shown_genState v s : shown s -> shown (setGenState v s).
Proof. done. Qed.

Lemma shown_explanation v s : shown s -> shown (setExplanation v s).
Proof. done. Qed.

Lemma shown_revision label dflt r o s : shown s -> shown (revisionEnd label dflt r o s).
Proof.
  intros Hs. unfold revisionEnd. destruct o as [message|[text files]]; [done|].
  apply shown_genState. destruct (Parser.cleanResponseText text);
    [|apply shown_explanation]; apply shown_pushed.
Qed.

(** X21.  In every state that the handlers lead to, the history index is -1 or
    the index of an entry of the history, and the files shown are
    defined: they are the entry of the history at the index, unless a
    generation that has been started has emptied them. *)
Theorem history_invariant s :
  reachable s ->
  (-1 <= historyIndex s < Z.of_nat (length (history s)))%Z
  /\ exists files,
       generatedFiles s = Some files
       /\ (files = [] \/ entry (history s) (historyIndex s) = Some files).
Proof.
  change (reachable s -> shown s).
  induction 1 as [|s _ IH|s _ IH|s f _ IH|s m _ IH|s b _ IH|s k b _ IH|s o _ IH
                 |s k _ IH|r s o _ _ _ IH|s k _ IH|r s o _ _ _ IH
                 |s k _ IH|r s i f st en code _ _ _ IH _|s m _ IH].
  - split; [simpl; lia|]. exists []. split; [done|by left].
  - unfold handleUndo. destruct (0 <? historyIndex s)%Z eqn:E; [|done].
    apply Z.ltb_lt in E. destruct IH as [Hr _].
    destruct (entry_in_range (history s) (historyIndex s - 1) ltac:(lia)) as [fs Hfs].
    split; [simpl; lia|]. exists fs. cbn. split; [done|by right].
  - unfold handleRedo.
    destruct (historyIndex s <? Z.of_nat (length (history s)) - 1)%Z eqn:E; [|done].
    apply Z.ltb_lt in E. destruct IH as [Hr _].
    destruct (entry_in_range (history s) (historyIndex s + 1) ltac:(lia)) as [fs Hfs].
    split; [simpl; lia|]. exists fs. cbn. split; [done|by right].
  - apply shown_pushed.
  - done.
  - by destruct b.
  - unfold generateBegin. destruct k; [done|]. destruct IH as [Hr _].
    split; [done|]. exists []. split; [done|by left].
  - unfold generateEnd. destruct o as [message|[[text files] urls]]; [done|].
    split; [simpl; lia|]. exists files. split; [done|by right].
  - by destruct k.
  - by apply shown_revision.
  - by destruct k.
  - by apply shown_revision.
  - by destruct k.
  - apply shown_genState, shown_pushed.
  - done.
Qed.

Lemma history_invariant_witness :
  let s1 := handleUpdateFiles initial [mkFile #"a.js" #"js" #"let a = 1;"] initial in
  let s := generateBegin #"key" false s1 s1 in
  reachable s
  /\ (-1 <= historyIndex s < Z.of_nat (length (history s)))%Z
  /\ exists files,
       generatedFiles s = Some files
       /\ (files = [] \/ entry (history s) (historyIndex s) = Some files).
Proof.
  intros s1 s.
  assert (reachable s) as H by apply reach_generate, reach_update, reach_initial.
  split; [exact H|]. exact (history_invariant s H).
Defined.

Lemma state_eq s m g e u h i t :
  mode s = m -> generatedFiles s = g -> explanation s = e -> groundingUrls s = u ->
  history s = h -> historyIndex s = i -> genState s = t -> State m g e u h i t = s.
Proof. destruct s. simpl. by intros -> -> -> -> -> -> ->. Qed.

(** X22.  Undo and then redo, on a state in which undo is possible and the
    files shown are the history entry at the index, gives the same state
    again. *)
Theorem undo_redo s :
  synced s -> canUndo s = true -> handleRedo (handleUndo s s) (handleUndo s s) = s.
Proof.
  intros (fs & Hg & He) Hu. pose proof (entry_Some _ _ _ He) as Hr.
  unfold canUndo in Hu. unfold handleUndo. rewrite Hu. apply Z.ltb_lt in Hu.
  unfold handleRedo. cbn.
  destruct (historyIndex s - 1 <? Z.of_nat (length (history s)) - 1)%Z eqn:E;
    [|apply Z.ltb_ge in E; lia].
  replace (historyIndex s - 1 + 1)%Z with (historyIndex s) by lia. rewrite He.
  by apply state_eq.
Qed.

Lemma undo_redo_witness :
  let s := State FAST (Some [mkFile #"b.js" #"js" #"let b = 2;"]) [] []
             [[mkFile #"a.js" #"js" #"let a = 1;"]; [mkFile #"b.js" #"js" #"let b = 2;"]] 1 idle in
  handleRedo (handleUndo s s) (handleUndo s s) = s.
Proof. intros s. apply undo_redo; [by eexists|done]. Defined.

(** X23.  Redo and then undo, likewise. *)
Theorem redo_undo s :
  synced s -> canRedo s = true -> handleUndo (handleRedo s s) (handleRedo s s) = s.
Proof.
  intros (fs & Hg & He) Hu. pose proof (entry_Some _ _ _ He) as Hr.
  unfold canRedo in Hu. unfold handleRedo. rewrite Hu. apply Z.ltb_lt in Hu.
  unfold handleUndo. cbn.
  destruct (0 <? historyIndex s + 1)%Z eqn:E; [|apply Z.ltb_ge in E; lia].
  replace (historyIndex s + 1 - 1)%Z with (historyIndex s) by lia. rewrite He.
  by apply state_eq.
Qed.

Lemma redo_undo_witness :
  let s := State FAST (Some [mkFile #"a.js" #"js" #"let a = 1;"]) [] []
             [[mkFile #"a.js" #"js" #"let a = 1;"]; [mkFile #"b.js" #"js" #"let b = 2;"]] 0 idle in
  handleUndo (handleRedo s s) (handleRedo s s) = s.
Proof. intros s. apply redo_undo; [by eexists|done]. Defined.

(** X24.  An update of the files, a manual edit for one, is undone by undo: the
    files shown and the index are as before it. *)
Theorem update_undo s newFiles :
  synced s ->
  let s1 := handleUpdateFiles s newFiles s in
  let s2 := handleUndo s1 s1 in
  generatedFiles s2 = generatedFiles s /\ historyIndex s2 = historyIndex s /\ canRedo s2 = true.
Proof.
  intros (fs & Hg & He). pose proof (entry_Some _ _ _ He) as Hr.
  cbn zeta. unfold handleUpdateFiles, pushToHistory, handleUndo, canRedo. cbn.
  assert (slice0 (historyIndex s + 1) (history s) = take (S (Z.to_nat (historyIndex s))) (history s))
    as Hsl.
  { replace (historyIndex s + 1)%Z with (Z.of_nat (S (Z.to_nat (historyIndex s)))) by lia.
    apply slice0_take. lia. }
  rewrite Hsl, length_app, length_take. cbn [length].
  replace (S (Z.to_nat (historyIndex s)) `min` length (history s))
    with (S (Z.to_nat (historyIndex s))) by lia.
  replace (Z.of_nat (S (Z.to_nat (historyIndex s)) + 1) - 1)%Z with (historyIndex s + 1)%Z by lia.
  destruct (0 <? historyIndex s + 1)%Z eqn:E; [|apply Z.ltb_ge in E; lia]. cbn.
  replace (historyIndex s + 1 - 1)%Z with (historyIndex s) by lia.
  rewrite length_app, length_take. cbn [length].
  split; [|split; [done|apply Z.ltb_lt; lia]].
  rewrite Hg, <- He. unfold entry. destruct (historyIndex s <? 0)%Z; [done|].
  rewrite lookup_app_l by (rewrite length_take; lia).
  apply lookup_take_lt. lia.
Qed.

Lemma update_undo_witness :
  let s := State FAST (Some [mkFile #"a.js" #"js" #"let a = 1;"]) [] []
             [[mkFile #"a.js" #"js" #"let a = 1;"]; [mkFile #"b.js" #"js" #"let b = 2;"]] 0 idle in
  let s1 := handleUpdateFiles s [mkFile #"a.js" #"js" #"let a = 3;"] s in
  let s2 := handleUndo s1 s1 in
  generatedFiles s2 = generatedFiles s /\ historyIndex s2 = historyIndex s /\ canRedo s2 = true.
Proof. intros s. apply update_undo. by eexists. Defined.

(** X25.  An update of the files drops the entries after the current one: the
    history is the entries up to the current index and the new files, they
    are shown, and redo is not possible. *)
Theorem update_drops_redo s newFiles :
  (-1 <= historyIndex s < Z.of_nat (length (history s)))%Z ->
  let s1 := handleUpdateFiles s newFiles s in
  history s1 = take (Z.to_nat (historyIndex s + 1)) (history s) ++ [newFiles]
  /\ generatedFiles s1 = Some newFiles
  /\ canRedo s1 = false
  /\ canUndo s1 = negb (historyIndex s =? -1)%Z.
Proof.
  intros Hr. cbn zeta. unfold handleUpdateFiles, pushToHistory, canRedo, canUndo. cbn.
  assert (slice0 (historyIndex s + 1) (history s) = take (Z.to_nat (historyIndex s + 1)) (history s))
    as Hsl.
  { rewrite <- (Z2Nat.id (historyIndex s + 1)) at 1 by lia. apply slice0_take. lia. }
  rewrite Hsl, length_app, length_take. cbn [length].
  split; [done|]. split; [done|]. split; [apply Z.ltb_ge; lia|].
  destruct (historyIndex s =? -1)%Z eqn:E.
  - apply Z.eqb_eq in E. apply Z.ltb_ge. lia.
  - apply Z.eqb_neq in E. apply Z.ltb_lt. lia.
Qed.

Lemma update_drops_redo_witness :
  let s := State FAST (Some [mkFile #"a.js" #"js" #"let a = 1;"]) [] []
             [[mkFile #"a.js" #"js" #"let a = 1;"]; [mkFile #"b.js" #"js" #"let b = 2;"]] 0 idle in
  let s1 := handleUpdateFiles s [mkFile #"a.js" #"js" #"let a = 3;"] s in
  history s1 = take (Z.to_nat (historyIndex s + 1)) (history s)
               ++ [[mkFile #"a.js" #"js" #"let a = 3;"]]
  /\ generatedFiles s1 = Some [mkFile #"a.js" #"js" #"let a = 3;"]
  /\ canRedo s1 = false
  /\ canUndo s1 = negb (historyIndex s =? -1)%Z.
Proof. intros s. apply update_drops_redo. simpl. lia. Defined.

End HistoryFacts.

(** The service *)

Module ServiceFacts.
Import Regex StrFacts RegexFacts Parser Format FormatFacts StripFacts Service App.

(** *** [||] on a text that may be missing *)

(** A text that is there and not empty stands for itself. *)
Lemma textOr_given t dflt : t <> [] -> textOr (Some t) dflt = t.
Proof. by destruct t. Qed.

Lemma textOr_missing text dflt : text = None \/ text = Some [] -> textOr text dflt = dflt.
Proof. by intros [-> | ->]. Qed.

Lemma messageOr_given m dflt : m <> [] -> messageOr (Some m) dflt = m.
Proof. by destruct m. Qed.

Lemma parsedResponse_given dflt t :
  t <> [] -> parsedResponse dflt (Some t) = (t, parseGeneratedContent t).
Proof. intros H. unfold parsedResponse. by rewrite textOr_given. Qed.

Lemma editPartialCode_given t selectedText :
  Str.trim t <> [] -> editPartialCode (Some t) selectedText = Str.trim t.
Proof. intros H. unfold editPartialCode. simpl. by apply textOr_given. Qed.

Lemma textOr_sample : textOr (Some #"Hello") #"dflt" = #"Hello".
Proof. reflexivity. Qed.

Lemma Forall_neq_check c (s : str) :
  forallb (fun a => negb (Str.ceqb a c)) s = true -> Forall (fun a => a <> c) s.
Proof.
  intros H. apply Forall_forall. intros a Ha%list_elem_of_In.
  rewrite forallb_forall in H. specialize (H a Ha). apply negb_true_iff in H.
  by apply ceqb_neq.
Qed.

(** *** The payload of a data URL *)

Lemma split_go_cut c cur u t :
  Forall (fun a => a <> c) u ->
  Str.split_go [c] 0 cur (u ++ c :: t) = (reverse cur ++ u) :: Str.split_go [c] 0 [] t.
Proof.
  revert cur; induction u as [|a u IH]; intros cur Hu.
  - cbn [app Str.split_go Str.startsWith length Nat.sub].
    rewrite ceqb_refl. cbn [andb]. by rewrite app_nil_r.
  - inversion_clear Hu as [|?? Ha Hu']. cbn [app Str.split_go].
    rewrite startsWith_cons_neq by congruence. rewrite IH by done.
    by rewrite reverse_cons, <- app_assoc.
Qed.

(** X27.  Of a data URL, a header without comma, a comma and a payload without
    comma, the payload is returned; a text without comma gives
    [undefined]. *)
Theorem base64Data_payload :
  (forall header payload,
     Forall (fun a => a <> ","%char) header -> Forall (fun a => a <> ","%char) payload ->
     base64Data (header ++ #"," ++ payload) = Some payload)
  /\ (forall s, Forall (fun a => a <> ","%char) s -> base64Data s = None).
Proof.
  split.
  - intros header payload Hh Hp. unfold base64Data, Str.split.
    change #"," with [","%char]. cbn [app]. rewrite split_go_cut by done.
    rewrite split_go_plain by done. done.
  - intros s Hs. unfold base64Data, Str.split.
    change #"," with [","%char]. by rewrite split_go_plain.
Qed.

Lemma base64Data_payload_witness :
  base64Data (#"data:image/png;base64" ++ #"," ++ #"iVBORw0KGgo=") = Some #"iVBORw0KGgo=".
Proof. apply (proj1 base64Data_payload); apply Forall_neq_check; by vm_compute. Defined.

(** *** A selection that the model leaves as it is *)

(** X28.  When the model answers an edit of a selection with nothing but white
    space, or with no text, the selected text is its own replacement: if
    it is the text between the two offsets, the content of the file is
    unchanged. *)
Theorem blank_answer_keeps_content content text startIndex endIndex :
  match text with Some t => Str.trim t = [] | None => True end ->
  startIndex <= endIndex ->
  splice content
    (editPartialCode text (take (endIndex - startIndex) (drop startIndex content)))
    startIndex endIndex
  = content.
Proof.
  intros Ht Hle. unfold splice.
  assert (editPartialCode text (take (endIndex - startIndex) (drop startIndex content))
          = take (endIndex - startIndex) (drop startIndex content)) as ->.
  { unfold editPartialCode. destruct text as [t|]; [|done]. simpl. by rewrite Ht. }
  rewrite <- (take_drop startIndex content) at 4.
  f_equal. rewrite <- (take_drop (endIndex - startIndex) (drop startIndex content)) at 2.
  f_equal. rewrite drop_drop. f_equal. lia.
Qed.

Lemma blank_answer_keeps_content_witness :
  splice #"let x = 1;" (editPartialCode (Some #"  ") (take (5 - 4) (drop 4 #"let x = 1;"))) 4 5
  = #"let x = 1;".
Proof. apply blank_answer_keeps_content; [by vm_compute|lia]. Defined.

(** *** A response without text *)

(** X26.  When the response of the model has no text, or an empty one, the
    service returns its placeholder text and no file.  A generation then
    shows no file, with the placeholder as explanation and a history of
    one empty entry; an edit and a fix push an empty list of files, which
    replaces the files shown, and put the placeholder on top of the
    explanation. *)
Theorem response_missing r s text urls :
  text = None \/ text = Some [] ->
  let g := generateEnd (Resolved (parsedResponse #"No response generated." text, urls)) s in
  let e := aiEditEnd r (Resolved (parsedResponse #"No changes generated." text)) s in
  let f := aiFixEnd r (Resolved (parsedResponse #"No fixes generated." text)) s in
  (generatedFiles g = Some [] /\ explanation g = #"No response generated."
   /\ history g = [[]] /\ historyIndex g = 0%Z)
  /\ (generatedFiles e = Some []
      /\ history e = slice0 (historyIndex r + 1) (history r) ++ [[]]
      /\ explanation e
         = #"**Update:** No changes generated." ++ nl ++ nl ++ #"---" ++ nl ++ nl ++ explanation s)
  /\ (generatedFiles f = Some []
      /\ history f = slice0 (historyIndex r + 1) (history r) ++ [[]]
      /\ explanation f
         = #"**Auto-Fix Report:** No fixes generated." ++ nl ++ nl ++ #"---" ++ nl ++ nl
           ++ explanation s).
Proof.
  intros Ht.
  assert (forall dflt, textOr text dflt = dflt) as Hd by (by destruct Ht as [-> | ->]).
  cbn zeta. unfold parsedResponse. rewrite !Hd.
  assert (parseGeneratedContent #"No response generated." = []) as -> by by vm_compute.
  assert (parseGeneratedContent #"No changes generated." = []) as -> by by vm_compute.
  assert (parseGeneratedContent #"No fixes generated." = []) as -> by by vm_compute.
  unfold aiEditEnd, aiFixEnd, revisionEnd, generateEnd.
  assert (cleanResponseText #"No response generated." = #"No response generated.") as ->
    by by vm_compute.
  assert (cleanResponseText #"No changes generated." = #"No changes generated.") as ->
    by by vm_compute.
  assert (cleanResponseText #"No fixes generated." = #"No fixes generated.") as ->
    by by vm_compute.
  done.
Qed.

Lemma response_missing_witness :
  let g := generateEnd (Resolved (parsedResponse #"No response generated." None, [])) initial in
  let e := aiEditEnd initial (Resolved (parsedResponse #"No changes generated." None)) initial in
  let f := aiFixEnd initial (Resolved (parsedResponse #"No fixes generated." None)) initial in
  (generatedFiles g = Some [] /\ explanation g = #"No response generated."
   /\ history g = [[]] /\ historyIndex g = 0%Z)
  /\ (generatedFiles e = Some []
      /\ history e = slice0 (historyIndex initial + 1) (history initial) ++ [[]]
      /\ explanation e
         = #"**Update:** No changes generated." ++ nl ++ nl ++ #"---" ++ nl ++ nl
           ++ explanation initial)
  /\ (generatedFiles f = Some []
      /\ history f = slice0 (historyIndex initial + 1) (history initial) ++ [[]]
      /\ explanation f
         = #"**Auto-Fix Report:** No fixes generated." ++ nl ++ nl ++ #"---" ++ nl ++ nl
           ++ explanation initial).
Proof. apply (response_missing initial initial None []). by left. Defined.

(** *** The files sent to the model, read back *)

Lemma foldl_entries files : forall acc,
  foldl (fun fileContext file => fileContext ++ fileEntry file) acc files
  = acc ++ concat (map fileEntry files).
Proof.
  induction files as [|f fs IH]; intros acc; simpl; [by rewrite app_nil_r|].
  by rewrite IH, <- app_assoc.
Qed.

Lemma fileContext_render files :
  fileContext files = render (match files with [] => [] | _ => nl end) (contextBlocks files).
Proof.
  unfold fileContext. rewrite foldl_entries, app_nil_l.
  destruct files as [|f fs]; [done|]. revert f; induction fs as [|g fs IH]; intros f.
  - unfold render, renderBlock, fileEntry.
    cbn [map concat contextBlocks leading filename trailing body prose].
    rewrite !app_nil_r. by rewrite <- !app_assoc.
  - change (contextBlocks (f :: g :: fs))
      with (Block #" " (name f) [] (nl ++ content f ++ nl) (nl ++ nl) :: contextBlocks (g :: fs)).
    rewrite render_cons. cbn [leading filename trailing body prose].
    change (map fileEntry (f :: g :: fs)) with (fileEntry f :: map fileEntry (g :: fs)).
    rewrite concat_cons, (IH g). unfold render, fileEntry. by rewrite <- !app_assoc.
Qed.

(** A marker that holds no line feed does not begin inside a text that
    does not include it, whatever follows a line feed after the text. *)
Lemma startsWith_before_nl tok u X :
  Forall (fun a => a <> "010"%char) tok ->
  Str.startsWith tok (u ++ nl ++ X) = true -> Str.startsWith tok u = true.
Proof.
  revert u; induction tok as [|c tok IH]; intros u Htok H; [done|].
  inversion_clear Htok as [|?? Hc Htok']. destruct u as [|a u].
  - cbn [app nl Str.startsWith] in H. apply andb_true_iff in H as [H _].
    apply ceqb_eq in H. congruence.
  - cbn [app Str.startsWith] in *. apply andb_true_iff in H as [H1 H2].
    rewrite H1. by apply IH.
Qed.

Lemma firstAt_wrapped content :
  Str.includes FILE_END content = false -> firstAt FILE_END (nl ++ content ++ nl).
Proof.
  intros H. unfold firstAt. apply indexOf_intro.
  - by rewrite drop_app_length.
  - intros j Hj. destruct j as [|j]; [done|]. cbn [nl app drop].
    rewrite length_app, length_app in Hj. cbn [nl length] in Hj.
    destruct (Str.startsWith FILE_END (drop j ((content ++ nl) ++ FILE_END))) eqn:E; [|done].
    destruct (decide (j < length content)) as [Hlt|Hge].
    + rewrite <- app_assoc, drop_app_le in E by lia.
      apply startsWith_before_nl in E; [|apply Forall_neq_check; by vm_compute].
      by rewrite (includes_false _ _ H) in E.
    + assert (j = length content) as -> by lia.
      rewrite <- app_assoc, drop_app_length in E. done.
  - rewrite (length_app (nl ++ content ++ nl)). lia.
Qed.

Lemma contextBlocks_wf files :
  Forall (fun f => wfName (name f) /\ Str.includes FILE_END (content f) = false) files ->
  Forall wfBlock (contextBlocks files).
Proof.
  induction 1 as [|f fs [Hn Hc] _ IH]; [constructor|].
  assert (forall p, firstAt FILE_START p ->
            wfBlock (Block #" " (name f) [] (nl ++ content f ++ nl) p)) as Hb.
  { intros p Hp. constructor; cbn; [by repeat constructor|constructor|done| |done].
    by apply firstAt_wrapped. }
  destruct fs as [|g fs]; constructor; try done; apply Hb; by vm_compute.
Qed.

Lemma contextBlocks_artifacts files :
  map artifactOf (contextBlocks files)
  = map (fun f => mkFile (name f) (extension (name f)) (stripFences (Str.trim (content f)))) files.
Proof.
  assert (forall f p, artifactOf (Block #" " (name f) [] (nl ++ content f ++ nl) p)
            = mkFile (name f) (extension (name f)) (stripFences (Str.trim (content f)))) as Ha.
  { intros f p. unfold artifactOf. cbn [filename body]. do 2 f_equal.
    apply OutputFacts.trim_spaces; by repeat constructor. }
  induction files as [|f fs IH]; [done|]. destruct fs as [|g fs].
  - cbn [contextBlocks map]. by rewrite Ha.
  - change (contextBlocks (f :: g :: fs))
      with (Block #" " (name f) [] (nl ++ content f ++ nl) (nl ++ nl) :: contextBlocks (g :: fs)).
    cbn [map] in *. by rewrite Ha, IH.
Qed.



End ServiceFacts.

(** ** The language of a pattern *)

Module LangFacts.
Import Regex StrFacts RegexFacts Lang.

Lemma lit_match_reads ic p : forall x y,
  lit_match ic p x = Some y ->
  exists u, rest x = u ++ rest y /\ Forall2 (fun c a => char_eq ic c a = true) p u.
Proof.
  induction p as [|c p IH]; intros [pv s] y; simpl.
  - intros [= <-]. exists []. by split; [|constructor].
  - destruct s as [|a s]; [done|]. destruct (char_eq ic c a) eqn:E; [|done].
    intros H. destruct (IH _ _ H) as (u & Hu & HF). simpl in Hu.
    exists (a :: u). split; [by rewrite Hu|by constructor].
Qed.

Lemma length_clear gs (cs : caps) : length (clear gs cs) = length cs.
Proof.
  unfold clear. induction gs as [|n gs IH]; [done|]. simpl. by rewrite length_insert.
Qed.

Lemma repeat_sound (L : str -> Prop) m :
  sound L m ->
  forall fuel gs min max greedy,
    sound (fun u => exists us, u = concat us /\ Forall L us) (repeat fuel m gs min max greedy).
Proof.
  intros Hm. induction fuel as [|fuel IH]; intros gs min max greedy x cs k z H; [done|].
  cbn [repeat] in H.
  assert (k x cs = Some z ->
    exists u y cs', rest x = u ++ rest y
      /\ (exists us, u = concat us /\ Forall L us) /\ length cs' = length cs
      /\ k y cs' = Some z) as Hstop.
  { intros Hk. exists [], x, cs. split; [done|]. split; [|done]. by exists []. }
  assert (
    m x (clear gs cs) (fun y cs' =>
      if (min =? 0) && (length (rest x) <=? length (rest y)) then None
      else repeat fuel m gs (pred min) (pred <$> max) greedy y cs' k) = Some z ->
    exists u y cs', rest x = u ++ rest y
      /\ (exists us, u = concat us /\ Forall L us) /\ length cs' = length cs
      /\ k y cs' = Some z) as Hiter.
  { intros Hd. destruct (Hm _ _ _ _ Hd) as (u1 & y1 & cs1 & Hu1 & HL1 & Hc1 & Hd1).
    destruct ((min =? 0) && (length (rest x) <=? length (rest y1))); [done|].
    destruct (IH _ _ _ _ _ _ _ _ Hd1)
      as (u2 & y2 & cs2 & Hu2 & (us & -> & Hus) & Hc2 & Hk2).
    exists (u1 ++ concat us), y2, cs2. split; [by rewrite Hu1, Hu2, app_assoc|].
    split; [exists (u1 :: us); split; [done|by constructor]|].
    split; [|done]. by rewrite Hc2, Hc1, length_clear. }
  destruct max as [[|max']|]; [by apply Hstop| |].
  - destruct (negb (min =? 0)) eqn:Emin; [by apply Hiter|].
    destruct greedy.
    + destruct (m x (clear gs cs) _) eqn:Ed.
      * injection H as ->. by apply Hiter.
      * by apply Hstop.
    + destruct (k x cs) eqn:Ek.
      * injection H as ->. by apply Hstop.
      * by apply Hiter.
  - destruct (negb (min =? 0)) eqn:Emin; [by apply Hiter|].
    destruct greedy.
    + destruct (m x (clear gs cs) _) eqn:Ed.
      * injection H as ->. by apply Hiter.
      * by apply Hstop.
    + destruct (k x cs) eqn:Ek.
      * injection H as ->. by apply Hstop.
      * by apply Hiter.
Qed.

(** What the matcher of a pattern reads is a text of the pattern. *)
Theorem rmatch_sound ic r : sound (accepts ic r) (rmatch ic r).
Proof.
  induction r as [|p| |neg items|r1 IH1 r2 IH2|r1 IH1 r2 IH2|n r IH|r IH min max greedy|n| | |];
    intros x cs k z H; cbn [rmatch accepts] in *.
  - by exists [], x, cs.
  - destruct (lit_match ic p x) as [y|] eqn:E; [|done].
    destruct (lit_match_reads _ _ _ _ E) as (u & Hu & HF). by exists u, y, cs.
  - destruct x as [pv [|a t]]; simpl in *; [done|].
    destruct (Str.is_line_terminator a) eqn:Ea; [done|].
    exists [a], (advance a t), cs. split; [done|]. split; [by exists a|done].
  - destruct x as [pv [|a t]]; simpl in *; [done|].
    destruct (set_mem ic neg items a) eqn:Ea; [|done].
    exists [a], (advance a t), cs. split; [done|]. split; [by exists a|done].
  - destruct (IH1 _ _ _ _ H) as (u1 & y1 & cs1 & Hu1 & HL1 & Hc1 & H1).
    destruct (IH2 _ _ _ _ H1) as (u2 & y2 & cs2 & Hu2 & HL2 & Hc2 & H2).
    exists (u1 ++ u2), y2, cs2. split; [by rewrite Hu1, Hu2, app_assoc|].
    split; [by exists u1, u2|]. split; [congruence|done].
  - destruct (rmatch ic r1 x cs k) eqn:E1.
    + injection H as ->. destruct (IH1 _ _ _ _ E1) as (u & y & cs' & Hu & HL & Hc & Hk).
      exists u, y, cs'. auto.
    + destruct (IH2 _ _ _ _ H) as (u & y & cs' & Hu & HL & Hc & Hk).
      exists u, y, cs'. auto.
  - destruct (IH _ _ _ _ H) as (u & y & cs' & Hu & HL & Hc & Hk).
    exists u, y, (<[n := Some (between x y)]> cs').
    split; [done|]. split; [done|]. split; [by rewrite length_insert|done].
  - by apply (repeat_sound _ _ IH) in H.
  - destruct (cs !! n) as [[v|]|] eqn:E; try (by exists [], x, cs).
    destruct (lit_match ic v x) as [y|] eqn:El; [|done].
    destruct (lit_match_reads _ _ _ _ El) as (u & Hu & HF). by exists u, y, cs.
  - destruct (prev x); [done|]. by exists [], x, cs.
  - exists [], x, cs. split; [done|]. split; [done|]. by destruct (rest x).
  - destruct (xorb _ _); [|done]. by exists [], x, cs.
Qed.

(** The text of a match of a pattern is a text of the pattern. *)
Lemma match_at_accepts p x y cs :
  match_at p x = Some (y, cs) ->
  exists u, rest x = u ++ rest y /\ accepts (ignoreCase p) (re p) u.
Proof.
  intros H. destruct (rmatch_sound _ _ _ _ _ _ H) as (u & y' & cs' & Hu & HL & _ & Hk).
  injection Hk as -> ->. by exists u.
Qed.

End LangFacts.

(** ** Where a match can end *)

Module LinesFacts.
Import Regex StrFacts RegexFacts Lang LangFacts Lines.

Lemma in_all_ascii a : a ∈ all_ascii.
Proof.
  unfold all_ascii. rewrite <- (ascii_nat_embedding a).
  apply list_elem_of_fmap_2, elem_of_seq. pose proof (nat_ascii_bounded a). lia.
Qed.

Lemma some_blank_intro (acc : ascii -> bool) a :
  blank a = true -> acc a = true -> some_blank acc = true.
Proof.
  intros Hb Ha. unfold some_blank. apply existsb_exists. exists a.
  split; [apply list_elem_of_In, in_all_ascii|by rewrite Hb, Ha].
Qed.

Lemma covers_spec Q P : covers Q P = true <-> forall ph, ph ∈ P -> ph ∈ Q.
Proof.
  unfold covers. rewrite forallb_forall. split.
  - intros H ph Hph. apply list_elem_of_In in Hph. by apply H, bool_decide_eq_true in Hph.
  - intros H ph Hph. apply bool_decide_eq_true, H. by apply list_elem_of_In.
Qed.

Local Ltac pick := cbn; rewrite ?elem_of_app, ?elem_of_cons; auto 10.

Section line.
Variables (U : str) (lead : bool) (pad w pad' V : str).
Hypothesis Hlead : lead = false -> U = [].
Hypothesis Hpad : Forall (fun a => blank a = true) pad.
Hypothesis Hpad' : Forall (fun a => blank a = true) pad'.
Hypothesis Hw : w <> [].

Local Abbreviation T := (lined U lead pad w pad' V).
Local Abbreviation o := (length U + (if lead then 1 else 0)).
Local Abbreviation phase_of := (at_phase (length U) lead (length pad) (length w) (length pad')).

Lemma lined_lead : length (if lead then nl else []) = (if lead then 1 else 0).
Proof. by destruct lead. Qed.

Lemma lookup_lead n a : T !! n = Some a -> lead = true -> n = length U -> a = "010"%char.
Proof.
  intros H -> ->. unfold lined in H. rewrite lookup_app_r in H by lia.
  rewrite Nat.sub_diag in H. by injection H.
Qed.

Lemma lookup_pad n a :
  T !! n = Some a -> o <= n < o + length pad -> blank a = true.
Proof.
  intros H Hn. unfold lined in H. pose proof lined_lead as Hl.
  rewrite lookup_app_r in H by lia. rewrite lookup_app_r in H by lia.
  rewrite lookup_app_l in H by lia.
  eapply Forall_lookup_1 in H; [|exact Hpad]. done.
Qed.

Lemma lookup_word n k a :
  T !! n = Some a -> n = o + length pad + k -> k < length w -> w !! k = Some a.
Proof.
  intros H -> Hk. unfold lined in H. pose proof lined_lead as Hl.
  rewrite lookup_app_r in H by lia. rewrite lookup_app_r in H by lia.
  rewrite lookup_app_r in H by lia. rewrite lookup_app_l in H by lia.
  rewrite <- H. f_equal. lia.
Qed.

Lemma lookup_pad' n a :
  T !! n = Some a ->
  o + length pad + length w <= n < o + length pad + length w + length pad' ->
  blank a = true.
Proof.
  intros H Hn. unfold lined in H. pose proof lined_lead as Hl.
  rewrite lookup_app_r in H by lia. rewrite lookup_app_r in H by lia.
  rewrite lookup_app_r in H by lia. rewrite lookup_app_r in H by lia.
  rewrite lookup_app_l in H by lia.
  eapply Forall_lookup_1 in H; [|exact Hpad']. done.
Qed.

Lemma lookup_close n a :
  T !! n = Some a -> n = o + length pad + length w + length pad' -> a = "010"%char.
Proof.
  intros H ->. unfold lined in H. pose proof lined_lead as Hl.
  rewrite lookup_app_r in H by lia. rewrite lookup_app_r in H by lia.
  rewrite lookup_app_r in H by lia. rewrite lookup_app_r in H by lia.
  rewrite lookup_app_r in H by lia.
  replace (_ - _) with 0 in H by lia. by injection H.
Qed.

Lemma next_phase n k :
  n = o + length pad + k -> k < length w -> phase_of (S n) (next w k).
Proof.
  intros -> Hk. unfold next. destruct (S k <? length w) eqn:E.
  - apply Nat.ltb_lt in E. simpl. lia.
  - apply Nat.ltb_ge in E. simpl. lia.
Qed.

Lemma step1_sound (acc : ascii -> bool) n a ph :
  T !! n = Some a -> acc a = true -> phase_of n ph ->
  exists ph', ph' ∈ step1 w acc ph /\ phase_of (S n) ph'.
Proof.
  intros HT Ha Hph. destruct ph as [| |k| |]; simpl in Hph.
  - destruct Hph as [Hl Hn]. destruct (decide (n = length U)) as [->|Hne].
    + pose proof (lookup_lead _ _ HT Hl eq_refl) as ->. exists Pad. simpl. rewrite Ha.
      split; [pick|]. rewrite Hl. lia.
    + exists Before. split; [simpl; pick|]. simpl. split; [done|lia].
  - destruct (decide (n = o + length pad)) as [Hn|Hn].
    + pose proof (lookup_word n 0 a HT ltac:(lia) ltac:(destruct w; simpl; [done|lia])) as Hw0.
      exists (next w 0). split.
      * simpl. rewrite Hw0, Ha. pick.
      * apply next_phase; [lia|]. destruct w; simpl; [done|lia].
    + pose proof (lookup_pad n a HT ltac:(lia)) as Hb.
      exists Pad. split.
      * simpl. rewrite (some_blank_intro acc a Hb Ha). pick.
      * simpl. lia.
  - destruct Hph as [Hk Hn].
    pose proof (lookup_word n k a HT Hn ltac:(lia)) as Hwk.
    exists (next w k). split; [simpl; rewrite Hwk, Ha; pick|].
    apply next_phase; [done|lia].
  - destruct (decide (n = o + length pad + length w + length pad')) as [Hn|Hn].
    + pose proof (lookup_close n a HT Hn) as ->. exists After. split.
      * simpl. rewrite Ha. pick.
      * simpl. lia.
    + pose proof (lookup_pad' n a HT ltac:(lia)) as Hb. exists Tail. split.
      * simpl. rewrite (some_blank_intro acc a Hb Ha). pick.
      * simpl. lia.
  - exists After. split; [simpl; pick|]. simpl. lia.
Qed.

Lemma step_sound (acc : ascii -> bool) P n a ph :
  T !! n = Some a -> acc a = true -> phase_of n ph -> ph ∈ P ->
  exists ph', ph' ∈ step w acc P /\ phase_of (S n) ph'.
Proof.
  intros HT Ha Hph HP. destruct (step1_sound acc n a ph HT Ha Hph) as (ph' & Hin & Hph').
  exists ph'. split; [|done]. unfold step. apply elem_of_remove_dups.
  apply list_elem_of_In, in_flat_map. exists ph. by split; apply list_elem_of_In.
Qed.

Lemma phase_total n : exists ph, ph ∈ everywhere w /\ phase_of n ph.
Proof.
  unfold everywhere.
  destruct (decide (n < o)) as [Hn|Hn].
  { exists Before. split; [pick|]. simpl. destruct lead; [split; [done|lia]|].
    rewrite (Hlead eq_refl) in Hn. simpl in Hn. lia. }
  destruct (decide (n <= o + length pad)) as [Hn1|Hn1].
  { exists Pad. split; [pick|]. simpl. lia. }
  destruct (decide (n < o + length pad + length w)) as [Hn2|Hn2].
  { exists (Word (n - (o + length pad))). split.
    - apply elem_of_app. right. apply list_elem_of_fmap_2, elem_of_seq. lia.
    - simpl. lia. }
  destruct (decide (n <= o + length pad + length w + length pad')) as [Hn3|Hn3].
  { exists Tail. split; [pick|]. simpl. lia. }
  exists After. split; [pick|]. simpl. lia.
Qed.

Lemma lit_sound ic p : forall u X Y P ph,
  Forall2 (fun c a => char_eq ic c a = true) p u ->
  T = X ++ u ++ Y -> phase_of (length X) ph -> ph ∈ P ->
  exists ph', ph' ∈ foldl (fun Q c => step w (char_eq ic c) Q) P p
              /\ phase_of (length X + length u) ph'.
Proof.
  induction p as [|c p IH]; intros u X Y P ph HF HT Hph HP.
  - apply Forall2_nil_inv_l in HF as ->. exists ph. simpl. by rewrite Nat.add_0_r.
  - apply Forall2_cons_inv_l in HF as (a & u' & Ha & HF & ->).
    destruct (step_sound (char_eq ic c) P (length X) a ph) as (ph1 & Hin1 & Hph1);
      [|done|done|done|].
    { rewrite HT. rewrite lookup_app_r by lia. by rewrite Nat.sub_diag. }
    destruct (IH u' (X ++ [a]) Y (step w (char_eq ic c) P) ph1 HF) as (ph2 & Hin2 & Hph2);
      [by rewrite HT, <- app_assoc| |done|].
    { rewrite length_app. simpl. by rewrite Nat.add_1_r. }
    exists ph2. split; [done|]. rewrite length_app in Hph2. simpl in *.
    by replace (length X + S (length u')) with (length X + 1 + length u') by lia.
Qed.

Lemma closure_sound (L : str -> Prop) (f : list phase -> list phase) :
  (forall u X Y P ph, L u -> T = X ++ u ++ Y -> phase_of (length X) ph -> ph ∈ P ->
     exists ph', ph' ∈ f P /\ phase_of (length X + length u) ph') ->
  forall us X Y P ph, Forall L us ->
    T = X ++ concat us ++ Y -> phase_of (length X) ph -> ph ∈ P ->
    exists ph', ph' ∈ closure w f P /\ phase_of (length X + length (concat us)) ph'.
Proof.
  intros Hf us X Y P ph Hus HT Hph HP. unfold closure.
  set (Q := Nat.iter _ _ P).
  destruct (covers Q P && covers Q (f Q)) eqn:E; [|apply phase_total].
  apply andb_true_iff in E as [E1 E2].
  rewrite covers_spec in E1. rewrite covers_spec in E2.
  assert (ph ∈ Q) as HQ by by apply E1. clear HP E1.
  revert X ph Hph HQ HT. induction Hus as [|u us Hu Hus IH]; intros X ph Hph HQ HT.
  - exists ph. simpl. by rewrite Nat.add_0_r.
  - simpl in HT. rewrite <- app_assoc in HT.
    destruct (Hf u X _ Q ph Hu HT Hph HQ) as (ph1 & Hin1 & Hph1).
    destruct (IH (X ++ u) ph1) as (ph2 & Hin2 & Hph2).
    + by rewrite length_app.
    + by apply E2.
    + by rewrite <- app_assoc.
    + exists ph2. split; [done|]. simpl. rewrite !length_app in *.
      by rewrite Nat.add_assoc.
Qed.

(** The phases computed for a pattern hold the phase of the end of each
    of its texts that begins at a position of one of the given phases. *)
Theorem reach_sound ic r : forall u X Y P ph,
  accepts ic r u -> T = X ++ u ++ Y -> phase_of (length X) ph -> ph ∈ P ->
  exists ph', ph' ∈ reach w ic r P /\ phase_of (length X + length u) ph'.
Proof.
  induction r as [|p| |neg items|r1 IH1 r2 IH2|r1 IH1 r2 IH2|n r IH|r IH min max greedy|n| | |];
    intros u X Y P ph Hu HT Hph HP; cbn [accepts reach] in *.
  - subst u. exists ph. simpl. by rewrite Nat.add_0_r.
  - by eapply lit_sound.
  - destruct Hu as (a & -> & Ha).
    destruct (step_sound (fun a => negb (Str.is_line_terminator a)) P (length X) a ph)
      as (ph1 & Hin1 & Hph1); [|by rewrite Ha|done|done|].
    { rewrite HT. rewrite lookup_app_r by lia. by rewrite Nat.sub_diag. }
    exists ph1. split; [done|]. simpl. by rewrite Nat.add_1_r.
  - destruct Hu as (a & -> & Ha).
    destruct (step_sound (set_mem ic neg items) P (length X) a ph)
      as (ph1 & Hin1 & Hph1); [|done|done|done|].
    { rewrite HT. rewrite lookup_app_r by lia. by rewrite Nat.sub_diag. }
    exists ph1. split; [done|]. simpl. by rewrite Nat.add_1_r.
  - destruct Hu as (u1 & u2 & -> & Hu1 & Hu2). rewrite <- app_assoc in HT.
    destruct (IH1 u1 X _ P ph Hu1 HT Hph HP) as (ph1 & Hin1 & Hph1).
    destruct (IH2 u2 (X ++ u1) Y (reach w ic r1 P) ph1 Hu2) as (ph2 & Hin2 & Hph2).
    + by rewrite <- app_assoc.
    + by rewrite length_app.
    + done.
    + exists ph2. split; [done|]. rewrite !length_app in *. by rewrite Nat.add_assoc.
  - destruct Hu as [Hu|Hu].
    + destruct (IH1 u X Y P ph Hu HT Hph HP) as (ph1 & Hin1 & Hph1).
      exists ph1. split; [|done]. apply elem_of_app. by left.
    + destruct (IH2 u X Y P ph Hu HT Hph HP) as (ph1 & Hin1 & Hph1).
      exists ph1. split; [|done]. apply elem_of_app. by right.
  - by eapply IH.
  - destruct Hu as (us & -> & Hus).
    by eapply (closure_sound (accepts ic r) (reach w ic r) IH).
  - apply phase_total.
  - subst u. exists ph. simpl. by rewrite Nat.add_0_r.
  - subst u. exists ph. simpl. by rewrite Nat.add_0_r.
  - subst u. exists ph. simpl. by rewrite Nat.add_0_r.
Qed.

End line.
End LinesFacts.

(** ** Lines that a replacement leaves in place *)

Module SearchFacts.
Import Regex StrFacts RegexFacts EngineFacts Lang LangFacts Lines LinesFacts Replace.

(** The position of the subject [s] after [j] characters. *)
Local Abbreviation at_pos pv s j := (Pos (lastp pv (take j s)) (drop j s)).

Lemma search_inv p : forall s i pv m,
  search p i pv s = Some m ->
  exists j, j <= length s /\ index m = i + j
    /\ match_at p (at_pos pv s j) = Some (after m, captures m)
    /\ matched m = between (at_pos pv s j) (after m)
    /\ forall j', j' < j -> match_at p (at_pos pv s j') = None.
Proof.
  induction s as [|a s IH]; intros i pv m; cbn [search].
  - destruct (match_at p (Pos pv [])) as [[y cs]|] eqn:E; [|done].
    intros [= <-]. exists 0. simpl. rewrite Nat.add_0_r. repeat split; try done; lia.
  - destruct (match_at p (Pos pv (a :: s))) as [[y cs]|] eqn:E.
    + intros [= <-]. exists 0. simpl. rewrite Nat.add_0_r. repeat split; try done; lia.
    + intros H. destruct (IH _ _ _ H) as (j & Hj & Hi & Hm & Hb & Hn).
      exists (S j). simpl. repeat split; [lia|lia|done|done|].
      intros [|j'] Hj'; simpl; [done|]. apply Hn. lia.
Qed.

Lemma search_None_inv p : forall s i pv,
  search p i pv s = None ->
  forall j, j <= length s -> match_at p (at_pos pv s j) = None.
Proof.
  induction s as [|a s IH]; intros i pv; cbn [search].
  - destruct (match_at p (Pos pv [])) as [[y cs]|] eqn:E; [done|].
    intros _ [|j] Hj; simpl in *; [done|lia].
  - destruct (match_at p (Pos pv (a :: s))) as [[y cs]|] eqn:E; [done|].
    intros H [|j] Hj; simpl in *; [done|]. apply (IH _ _ H). lia.
Qed.

Lemma search_intro p s i pv j y cs :
  j <= length s ->
  match_at p (at_pos pv s j) = Some (y, cs) ->
  (forall j', j' < j -> match_at p (at_pos pv s j') = None) ->
  search p i pv s = Some (Mtch (i + j) (between (at_pos pv s j) y) cs y).
Proof.
  intros Hj Hm Hn. rewrite <- (take_drop j s) at 1.
  rewrite search_skip.
  - rewrite length_take. replace (j `min` length s) with j by lia. by apply search_hit.
  - intros j' Hj'. rewrite length_take in Hj'.
    specialize (Hn j' ltac:(lia)).
    rewrite take_take. replace (j' `min` j) with j' by lia.
    rewrite <- drop_app_le by (rewrite length_take; lia). by rewrite take_drop.
Qed.

End SearchFacts.

Module ProtectFacts.
Import Regex StrFacts RegexFacts EngineFacts Lang LangFacts Lines LinesFacts Replace SearchFacts.

Local Abbreviation at_pos pv s j := (Pos (lastp pv (take j s)) (drop j s)).

Lemma length_lined U lead pad w pad' V :
  length (lined U lead pad w pad' V)
  = length U + (if lead then 1 else 0) + length pad + length w + length pad' + 1 + length V.
Proof. unfold lined. rewrite !length_app. destruct lead; simpl; lia. Qed.

Lemma lined_app X U pad w pad' V :
  X ++ lined U true pad w pad' V = lined (X ++ U) true pad w pad' V.
Proof. unfold lined. by rewrite <- app_assoc. Qed.

Lemma between_prefix pv pv' (u t : str) : between (Pos pv (u ++ t)) (Pos pv' t) = u.
Proof. apply between_app. Qed.

Section line.
Variables (p : pattern) (g : mtch -> str) (lead : bool) (pad w pad' V : str).
Hypothesis Hp : untouched p w = true.
Hypothesis Hg : index_free g.
Hypothesis Hpad : Forall (fun a => blank a = true) pad.
Hypothesis Hpad' : Forall (fun a => blank a = true) pad'.
Hypothesis Hw : w <> [].

Local Abbreviation T U := (lined U lead pad w pad' V).
Local Abbreviation o U := (length U + (if lead then 1 else 0)).

Lemma untouched_before : forall ph, ph ∈ reach w (ignoreCase p) (re p) [Before] -> ph = Before.
Proof.
  intros ph Hph. unfold untouched in Hp.
  apply andb_true_iff in Hp as [H _]. apply andb_true_iff in H as [H _].
  rewrite covers_spec in H. apply H in Hph. by apply list_elem_of_singleton in Hph.
Qed.

Lemma untouched_inside : reach w (ignoreCase p) (re p) (inside w) = [].
Proof.
  unfold untouched in Hp.
  apply andb_true_iff in Hp as [H _]. apply andb_true_iff in H as [_ H].
  by destruct (reach w _ _ (inside w)).
Qed.

Lemma untouched_minlen : 0 < minlen (re p).
Proof.
  unfold untouched in Hp. apply andb_true_iff in Hp as [_ H]. by apply Nat.ltb_lt in H.
Qed.

Lemma match_nonempty x y cs :
  match_at p x = Some (y, cs) -> length (rest y) < length (rest x).
Proof. intros H%match_at_length. pose proof untouched_minlen. lia. Qed.

Lemma match_before U n pv y cs :
  (lead = false -> U = []) -> lead = true -> n <= length U ->
  match_at p (Pos pv (drop n (T U))) = Some (y, cs) ->
  exists u, u <> [] /\ drop n (T U) = u ++ rest y /\ n + length u <= length U.
Proof.
  intros HU Hl Hn Hm. destruct (match_at_accepts _ _ _ _ Hm) as (u & Hu & Hacc).
  simpl in Hu. exists u.
  pose proof (match_nonempty _ _ _ Hm) as Hne. simpl in Hne.
  assert (length (T U) >= length U) as HT by (rewrite length_lined; lia).
  split; [intros ->; simpl in Hu; rewrite Hu in Hne; lia|]. split; [done|].
  destruct (reach_sound U lead pad w pad' V HU Hpad Hpad' Hw (ignoreCase p) (re p)
              u (take n (T U)) (rest y) [Before] Before Hacc) as (ph & Hin & Hph).
  - by rewrite <- Hu, take_drop.
  - rewrite length_take. simpl. split; [done|lia].
  - by apply list_elem_of_singleton.
  - apply untouched_before in Hin as ->. simpl in Hph. rewrite length_take in Hph. lia.
Qed.

Lemma match_inside U n pv :
  (lead = false -> U = []) ->
  o U <= n <= o U + length pad + length w + length pad' ->
  match_at p (Pos pv (drop n (T U))) = None.
Proof.
  intros HU Hn. destruct (match_at p _) as [[y cs]|] eqn:Hm; [exfalso|done].
  destruct (match_at_accepts _ _ _ _ Hm) as (u & Hu & Hacc). simpl in Hu.
  assert (length (T U) >= n) as HT by (rewrite length_lined; lia).
  assert (exists ph, ph ∈ inside w
            /\ at_phase (length U) lead (length pad) (length w) (length pad') n ph)
    as (ph & Hin & Hph).
  { unfold inside. destruct (decide (n <= o U + length pad)) as [H1|H1].
    - exists Pad. split; [apply list_elem_of_here|]. simpl. lia.
    - destruct (decide (n < o U + length pad + length w)) as [H2|H2].
      + exists (Word (n - (o U + length pad))). split.
        * apply elem_of_app. right. apply list_elem_of_fmap_2, elem_of_seq. lia.
        * simpl. lia.
      + exists Tail. split; [apply list_elem_of_further, list_elem_of_here|]. simpl. lia. }
  destruct (reach_sound U lead pad w pad' V HU Hpad Hpad' Hw (ignoreCase p) (re p)
              u (take n (T U)) (rest y) (inside w) ph Hacc) as (ph' & Hin' & _).
  - by rewrite <- Hu, take_drop.
  - rewrite length_take. by replace (n `min` length (T U)) with n by lia.
  - done.
  - rewrite untouched_inside in Hin'. by apply elem_of_nil in Hin'.
Qed.

Local Abbreviation f := (fun (_ : unit) (m : mtch) => (tt, g m)).
Local Abbreviation line := (pad ++ w ++ pad' ++ nl).

Lemma lined_split U :
  T U = (U ++ (if lead then nl else []) ++ line) ++ V.
Proof. unfold lined. by rewrite <- !app_assoc. Qed.

Lemma length_frame U :
  length (U ++ (if lead then nl else []) ++ line)
  = o U + length pad + length w + length pad' + 1.
Proof. rewrite !length_app. destruct lead; simpl; lia. Qed.

Lemma lastp_frame pv U : lastp pv (U ++ (if lead then nl else []) ++ line) = Some "010"%char.
Proof. by rewrite !app_assoc, lastp_app. Qed.

(** The positions of [V] in the whole text. *)
Lemma at_pos_after pv U j :
  at_pos pv (T U) (length (U ++ (if lead then nl else []) ++ line) + j)
  = at_pos (Some "010"%char) V j.
Proof.
  rewrite lined_split. rewrite take_app_add', drop_app_add' by done.
  by rewrite lastp_app, lastp_frame.
Qed.

Lemma replace_from_step pv s m :
  search p 0 pv s = Some m -> matched m <> [] ->
  length (rest (after m)) < length s ->
  replace_from p g pv s
  = take (index m) s ++ g m ++ replace_from p g (prev (after m)) (rest (after m)).
Proof.
  intros Hs Hm Hl. unfold replace_from at 1. cbn [replace_loop]. rewrite Hs.
  destruct (matched m) as [|c md] eqn:E; [done|].
  unfold replace_from.
  rewrite (replace_loop_fuel p f (length s) (S (length (rest (after m))))) by lia.
  by destruct (replace_loop _ p f tt _ _) as [[] tl].
Qed.

(** A line that no match of the pattern touches stays where it is: the
    replacement is made before it and after it. *)
Lemma protect_loop : forall fuel U pv,
  length (T U) < fuel -> (lead = false -> U = []) ->
  exists U', (lead = false -> U' = [])
    /\ snd (replace_loop fuel p f tt pv (T U))
       = lined U' lead pad w pad' (replace_from p g (Some "010"%char) V).
Proof.
  induction fuel as [|fuel IH]; intros U pv Hf HU; [lia|].
  cbn [replace_loop]. destruct (search p 0 pv (T U)) as [[im mm cm [pa ra]]|] eqn:Es.
  - destruct (search_inv _ _ _ _ _ Es) as (j & Hj & Hi & Hm & Hb & Hn).
    cbn [index matched captures after] in *. simpl in Hi. subst im.
    pose proof (match_nonempty _ _ _ Hm) as Hne. cbn [rest] in Hne.
    destruct (decide (lead = true /\ j <= length U)) as [[Hl HjU]|Hout].
    + destruct (match_before U j _ _ _ HU Hl HjU Hm) as (u & Hu & Hd & Hju).
      cbn [rest] in Hd.
      assert (mm = u) as -> by (rewrite Hb, Hd; apply between_app).
      destruct u as [|c md]; [done|].
      assert (ra = T (drop (j + length (c :: md)) U)) as Hrest.
      { apply (f_equal (drop (length (c :: md)))) in Hd.
        rewrite drop_drop, drop_app_length in Hd.
        rewrite <- Hd. unfold lined. by rewrite drop_app_le by lia. }
      destruct (IH (drop (j + length (c :: md)) U) pa) as (U'' & HU'' & HR).
      { rewrite <- Hrest. rewrite length_drop in Hne. lia. }
      { intros E. rewrite Hl in E. done. }
      cbn [prev rest]. subst ra.
      destruct (replace_loop fuel p f tt _ _) as [[] tl]. simpl in HR.
      exists (take j U
              ++ g (Mtch j (c :: md) cm (Pos pa (T (drop (j + length (c :: md)) U)))) ++ U'').
      split; [intros E; rewrite Hl in E; done|].
      cbn [snd]. rewrite HR. unfold lined. rewrite take_app_le by lia.
      by rewrite <- !app_assoc.
    + destruct (decide (j < length (U ++ (if lead then nl else []) ++ line))) as [Hin|Hin].
      { rewrite length_frame in Hin. rewrite (match_inside U j) in Hm; [done|done|].
        split; [|lia]. destruct lead; [|rewrite (HU eq_refl); simpl; lia].
        destruct (decide (j <= length U)); [by destruct Hout|lia]. }
      set (X := U ++ (if lead then nl else []) ++ line) in *.
      assert (exists j', j = length X + j') as [j' ->] by (exists (j - length X); lia).
      unfold X in Hm, Hb. rewrite at_pos_after in Hm, Hb. fold X in Hm, Hb.
      assert (j' <= length V) as Hj'.
      { rewrite lined_split, length_app in Hj. fold X in Hj. lia. }
      assert (search p 0 (Some "010"%char) V = Some (Mtch j' mm cm (Pos pa ra))) as EV.
      { rewrite Hb. apply (search_intro p V 0 _ j'); [done|done|].
        intros j'' Hj''. rewrite <- (at_pos_after pv U). fold X. apply Hn. lia. }
      assert (length ra < length V) as HraV.
      { apply match_nonempty in Hm. cbn [rest] in Hm. rewrite length_drop in Hm. lia. }
      assert (mm <> []) as Hmd.
      { rewrite Hb. intros E. apply (f_equal length) in E. unfold between in E.
        rewrite length_take in E. cbn [rest length] in E.
        apply match_nonempty in Hm. cbn [rest] in Hm. lia. }
      rewrite (replace_from_step _ _ _ EV) by done.
      cbn [index matched after prev rest].
      destruct mm as [|c md]; [done|].
      rewrite (replace_loop_fuel p f fuel (S (length ra))).
      2:{ rewrite lined_split, length_app in Hf. lia. }
      2:{ lia. }
      unfold replace_from at 1.
      destruct (replace_loop _ p f tt _ _) as [[] tl].
      exists U. split; [done|]. cbn [snd].
      rewrite lined_split at 1. fold X. rewrite take_app_add' by done.
      rewrite (Hg (length X + j') j' (c :: md) cm (Pos pa ra)).
      unfold lined, X. by rewrite <- !app_assoc.
  - exists U. split; [done|]. cbn [snd].
    assert (replace_from p g (Some "010"%char) V = V) as ->; [|done].
    unfold replace_from. cbn [replace_loop].
    rewrite search_none; [done|]. intros j Hj.
    rewrite <- (at_pos_after pv U). apply (search_None_inv _ _ _ _ Es).
    rewrite lined_split, !length_app. lia.
Qed.

End line.
End ProtectFacts.

Module ProgramFacts.
Import Regex StrFacts RegexFacts EngineFacts FormatFacts Compiler.
Import Lang LangFacts Lines LinesFacts Replace SearchFacts ProtectFacts Program.

Local Abbreviation at_pos pv s j := (Pos (lastp pv (take j s)) (drop j s)).

Lemma put_lined l w below :
  exists U b, (b = false -> U = []) /\ put l w below = lined U b (indent l) w (trail l) below.
Proof.
  unfold put. destruct (above l) as [U|]; [by exists U, true|by exists [], false].
Qed.

(** *** Replacements leave the lines where they are *)

Lemma protect p g w l below pv :
  untouched p w = true -> index_free g -> wfPlace l -> w <> [] ->
  exists l', wfPlace l' /\ indent l' = indent l /\ trail l' = trail l
    /\ replace_from p g pv (put l w below)
       = put l' w (replace_from p g (Some "010"%char) below).
Proof.
  intros Hp Hg [Hi Ht] Hw. unfold put. destruct (above l) as [U|].
  - destruct (protect_loop p g true (indent l) w (trail l) below Hp Hg Hi Ht Hw
                (S (length (lined U true (indent l) w (trail l) below))) U pv)
      as (U' & _ & HR); [lia|done|].
    exists (Place (Some U') (indent l) (trail l)). by split.
  - destruct (protect_loop p g false (indent l) w (trail l) below Hp Hg Hi Ht Hw
                (S (length (lined [] false (indent l) w (trail l) below))) [] pv)
      as (U' & HU' & HR); [lia|done|].
    exists (Place None (indent l) (trail l)). split; [done|]. split; [done|]. split; [done|].
    unfold replace_from. rewrite HR. by rewrite (HU' eq_refl).
Qed.

Lemma replace_all_from p tpl s :
  replace_all p tpl s
  = replace_from p (fun m => substitute tpl (matched m) [] [] (captures m)) None s.
Proof. reflexivity. Qed.

Lemma replace_all_with_from p g s : replace_all_with p g s = replace_from p g None s.
Proof. reflexivity. Qed.

Lemma program_replace p g lm ls lc below :
  untouched p mainWord = true -> untouched p coutHi = true -> untouched p closeWord = true ->
  index_free g -> wfPlace lm -> wfPlace ls -> wfPlace lc ->
  exists lm' ls' lc' below',
    wfPlace lm' /\ wfPlace ls' /\ wfPlace lc'
    /\ replace_from p g None (program lm ls lc below) = program lm' ls' lc' below'.
Proof.
  intros H1 H2 H3 Hg Hm Hs Hc. unfold program.
  destruct (protect p g mainWord lm (put ls coutHi (put lc closeWord below)) None)
    as (lm' & Hm' & _ & _ & E1); [done..|].
  destruct (protect p g coutHi ls (put lc closeWord below) (Some "010"%char))
    as (ls' & Hs' & _ & _ & E2); [done..|].
  destruct (protect p g closeWord lc below (Some "010"%char))
    as (lc' & Hc' & _ & _ & E3); [done..|].
  exists lm', ls', lc', (replace_from p g (Some "010"%char) below).
  by rewrite E1, E2, E3.
Qed.

End ProgramFacts.

(** ** The body of [main] and the line of the statement *)

Module MainFacts.
Import Regex StrFacts RegexFacts EngineFacts FormatFacts Compiler.
Import Lang LangFacts Lines LinesFacts Replace SearchFacts ProtectFacts Program ProgramFacts.

Local Abbreviation at_pos pv s j := (Pos (lastp pv (take j s)) (drop j s)).

Lemma rmatch_rseq_app ic l1 l2 : forall x cs k,
  rmatch ic (rseq (l1 ++ l2)) x cs k
  = rmatch ic (rseq l1) x cs (fun y cs' => rmatch ic (rseq l2) y cs' k).
Proof.
  induction l1 as [|r l1 IH]; intros x cs k; [done|].
  cbn [app rseq foldr]. rewrite !rmatch_seq. apply rmatch_local.
  intros y cs' _. apply IH.
Qed.

Lemma last_occurrence (c : ascii) s :
  c ∈ s -> exists s1 s2, s = s1 ++ c :: s2 /\ Forall (fun a => a <> c) s2.
Proof.
  induction s as [|a s IH]; intros H; [by apply elem_of_nil in H|].
  destruct (decide (c ∈ s)) as [Hs|Hs].
  - destruct (IH Hs) as (s1 & s2 & -> & H2). by exists (a :: s1), s2.
  - apply elem_of_cons in H as [->|H]; [|done].
    exists [], s. split; [done|]. apply Forall_forall. intros x Hx ->. done.
Qed.

(** The greedy star of a class that holds every character stops at the
    last position at which what follows matches. *)
Lemma greedy_star_last (P : ascii -> bool) pv s1 t cs k z :
  (forall a, P a = true) ->
  (forall j, j < length t ->
     k (Pos (lastp pv (s1 ++ take (S j) t)) (drop (S j) t)) cs = None) ->
  k (Pos (lastp pv s1) t) cs = Some z ->
  greedy_star P pv (s1 ++ t) cs k = Some z.
Proof.
  intros HP. revert pv. induction s1 as [|a s1 IH]; intros pv Hn Hk.
  - simpl in *. destruct t as [|a t]; [done|]. cbn [greedy_star]. rewrite HP.
    rewrite greedy_star_none; [done|]. intros j Hj _. apply (Hn j). simpl. lia.
  - cbn [app greedy_star]. rewrite HP. rewrite (IH (Some a)); [done| |done].
    intros j Hj. apply (Hn j Hj).
Qed.

Lemma body_match pv s1 v2 cs :
  Forall (fun a => a <> "}"%char) v2 ->
  rmatch false (rseq mainBody) (Pos pv (s1 ++ #"}" ++ v2)) cs K0
  = Some (Pos (Some "}"%char) v2, <[0 := Some s1]> cs).
Proof.
  intros Hv. cbn [mainBody rseq foldr]. rewrite rmatch_seq, rmatch_group.
  unfold RAny. rewrite rmatch_set_greedy.
  apply greedy_star_last.
  - apply set_mem_any.
  - intros j Hj. apply rmatch_lit_fail.
    change (drop (S j) (#"}" ++ v2)) with (drop j v2).
    destruct (drop j v2) as [|a t] eqn:E; [done|].
    apply (startsWith_cons_neq "}"%char [] a t). intros <-.
    assert (v2 !! j = Some "}"%char) as Hi.
    { rewrite <- (Nat.add_0_r j), <- lookup_drop. by rewrite E. }
    by eapply Forall_lookup_1 in Hi; [|exact Hv].
  - rewrite rmatch_lit_app, rmatch_empty. unfold K0. by rewrite between_app.
Qed.

Lemma rmatch_lit_at p r pv s t cs k :
  s = p ++ t ->
  rmatch false (RSeq (RLit p) r) (Pos pv s) cs k
  = rmatch false r (Pos (lastp pv p) t) cs k.
Proof. intros ->. apply rmatch_lit_app. Qed.

Lemma header_match pv R cs k z :
  k (Pos (Some "{"%char) R) cs = Some z ->
  rmatch false (rseq mainHeader) (Pos pv (mainWord ++ R)) cs k = Some z.
Proof.
  intros Hk. cbn [mainHeader rseq foldr]. unfold RSpace.
  rewrite (rmatch_lit_at #"int" _ _ _ (#" main() {" ++ R)) by reflexivity.
  rewrite rmatch_seq, rmatch_set_plus.
  change (#" main() {" ++ R) with (" "%char :: [] ++ #"main() {" ++ R).
  cbv iota beta. rewrite set_mem_space. change (Str.is_space " ") with true.
  cbv iota.
  apply (greedy_star_all _ _ []); [apply Forall_nil_2|exact eq_refl|].
  cbv beta.
  rewrite (rmatch_lit_at #"main" _ _ _ (#"() {" ++ R)) by reflexivity.
  rewrite rmatch_seq, rmatch_set_greedy.
  apply (greedy_star_all _ _ []); [apply Forall_nil_2|exact eq_refl|].
  cbv beta.
  rewrite (rmatch_lit_at #"()" _ _ _ (#" " ++ #"{" ++ R)) by reflexivity.
  rewrite rmatch_seq, rmatch_set_greedy.
  apply (greedy_star_all _ _ #" ");
    [by repeat constructor|exact eq_refl|].
  cbv beta. rewrite (rmatch_lit_at #"{" _ _ _ R) by reflexivity.
  rewrite rmatch_empty. exact Hk.
Qed.

Lemma main_re : re mainRegex = rseq (mainHeader ++ mainBody).
Proof. reflexivity. Qed.

(** The opening line of [main] is matched when a closing brace follows. *)
Lemma main_line_match pv s1 v2 :
  Forall (fun a => a <> "}"%char) v2 ->
  match_at mainRegex (Pos pv (mainWord ++ s1 ++ #"}" ++ v2))
  = Some (Pos (Some "}"%char) v2, [Some s1]).
Proof.
  intros Hv. unfold match_at. rewrite main_re, rmatch_rseq_app.
  change (ignoreCase mainRegex) with false.
  apply header_match. by rewrite body_match.
Qed.

End MainFacts.

Module ExtractFacts.
Import Regex StrFacts RegexFacts EngineFacts FormatFacts Compiler.
Import Lang LangFacts Lines LinesFacts Replace SearchFacts ProtectFacts Program ProgramFacts.
Import MainFacts.

Local Abbreviation at_pos pv s j := (Pos (lastp pv (take j s)) (drop j s)).

(** A match at the position [j] makes the search succeed, at [j] or
    before it. *)
Lemma search_found p s pv j y cs :
  j <= length s -> match_at p (at_pos pv s j) = Some (y, cs) ->
  exists m j', search p 0 pv s = Some m /\ j' <= j
    /\ match_at p (at_pos pv s j') = Some (after m, captures m).
Proof.
  intros Hj Hm. destruct (search p 0 pv s) as [m|] eqn:E.
  - destruct (search_inv _ _ _ _ _ E) as (j' & Hj' & _ & Hm' & _ & Hn).
    exists m, j'. split; [done|]. split; [|done].
    destruct (decide (j' <= j)) as [|Hgt]; [done|]. rewrite Hn in Hm by lia. done.
  - by rewrite (search_None_inv _ _ _ _ E j Hj) in Hm.
Qed.

Lemma header_stays_before :
  covers [Before] (reach coutHi false (rseq mainHeader) [Before]) = true.
Proof. by vm_compute. Qed.

Lemma closeWord_in l below : "}"%char ∈ put l closeWord below.
Proof.
  unfold put, lined, closeWord. destruct (above l); rewrite !elem_of_app.
  - right. right. right. left. apply list_elem_of_here.
  - right. right. right. left. apply list_elem_of_here.
Qed.

(** The parts of a program: the text [A] before the opening line of
    [main], the text [U] between it and the line of the statement, the
    text [c1] from there to the last closing brace and the text [c2]
    after it. *)
Lemma program_shape lm ls lc below :
  exists A U c1 c2,
    program lm ls lc below
    = A ++ mainWord ++ U ++ nl ++ indent ls ++ coutHi ++ trail ls ++ nl ++ c1 ++ #"}" ++ c2
    /\ Forall (fun a => a <> "}"%char) c2.
Proof.
  destruct (last_occurrence "}"%char _ (closeWord_in lc below)) as (c1 & c2 & HC & Hc2).
  unfold program. rewrite HC.
  exists (match above lm with Some X => X ++ nl | None => [] end ++ indent lm),
    (trail lm ++ match above ls with Some X => nl ++ X | None => [] end), c1, c2.
  split; [|done]. unfold put, lined.
  destruct (above lm), (above ls); by rewrite <- ?app_assoc.
Qed.

(** [mainRegex] finds a match in a program, and its group holds the line
    of the statement after a line feed. *)
Lemma main_extracted lm ls lc below :
  wfPlace ls ->
  exists m U V,
    exec mainRegex (program lm ls lc below) = Some m
    /\ group_str m 0 = lined U true (indent ls) coutHi (trail ls) V.
Proof.
  intros [Hi Ht]. destruct (program_shape lm ls lc below) as (A & U & c1 & c2 & HT & Hc2).
  set (pad := indent ls) in *. set (pad' := trail ls) in *.
  set (T := program lm ls lc below) in *.
  assert (length A <= length T) as HA by (rewrite HT, length_app; lia).
  assert (match_at mainRegex (at_pos None T (length A))
          = Some (Pos (Some "}"%char) c2,
                  [Some (U ++ nl ++ pad ++ coutHi ++ pad' ++ nl ++ c1)])) as Hm.
  { rewrite HT, take_app_length, drop_app_length.
    rewrite <- (main_line_match (lastp None A)
                  (U ++ nl ++ pad ++ coutHi ++ pad' ++ nl ++ c1) c2 Hc2).
    by rewrite <- !app_assoc. }
  destruct (search_found _ _ _ _ _ _ HA Hm) as (m & j & Hs & Hj & Hmj).
  exists m. unfold exec. rewrite Hs. clear Hm Hs.
  unfold match_at in Hmj. rewrite main_re, rmatch_rseq_app in Hmj.
  change (ignoreCase mainRegex) with false in Hmj.
  apply rmatch_sound in Hmj as (u & y & cs' & Hu & Hacc & Hcs & Hb).
  simpl in Hu. change (ngroups mainRegex) with 1 in Hcs. simpl in Hcs.
  assert (T = lined (A ++ mainWord ++ U) true pad coutHi pad' (c1 ++ #"}" ++ c2)) as HL.
  { rewrite HT. unfold lined. by rewrite <- !app_assoc. }
  assert (T = take j T ++ u ++ rest y) as HX by (by rewrite <- Hu, take_drop).
  assert (length (take j T) = j) as Hlj by (rewrite length_take; lia).
  destruct (reach_sound (A ++ mainWord ++ U) true pad coutHi pad' (c1 ++ #"}" ++ c2)
              ltac:(done) Hi Ht ltac:(done) false (rseq mainHeader)
              u (take j T) (rest y) [Before] Before Hacc)
    as (ph & Hph & Hend).
  { by rewrite <- HL. }
  { simpl. split; [done|]. rewrite Hlj, length_app. lia. }
  { apply list_elem_of_here. }
  pose proof header_stays_before as Hc. rewrite covers_spec in Hc.
  apply Hc, list_elem_of_singleton in Hph as ->. simpl in Hend. destruct Hend as [_ He].
  rewrite Hlj in He.
  assert (rest y = drop (j + length u) T) as Hy.
  { rewrite HX at 1. rewrite app_assoc, drop_app_length'; [done|].
    rewrite length_app. lia. }
  rewrite HL in Hy. unfold lined in Hy. rewrite drop_app_le in Hy by done.
  exists (drop (j + length u) (A ++ mainWord ++ U)), c1.
  clear Hu HX. destruct y as [py ry]. cbn [rest] in Hy. subst ry. cbv beta in Hb.
  set (s1 := drop (j + length u) (A ++ mainWord ++ U) ++ nl ++ pad ++ coutHi ++ pad' ++ nl ++ c1).
  assert (drop (j + length u) (A ++ mainWord ++ U) ++ nl ++ pad ++ coutHi ++ pad' ++ nl
           ++ c1 ++ #"}" ++ c2 = s1 ++ #"}" ++ c2) as E
    by (unfold s1; by rewrite <- !app_assoc).
  rewrite E, (body_match py s1 c2 cs' Hc2) in Hb. injection Hb as _ Hcap.
  split; [done|]. unfold group_str, group. rewrite <- Hcap.
  destruct cs' as [|c cs']; [done|]. reflexivity.
Qed.

End ExtractFacts.

Module MainLineFacts.
Import Regex StrFacts RegexFacts EngineFacts Format FormatFacts Compiler.
Import Lang LangFacts Lines LinesFacts Replace SearchFacts ProtectFacts Program ProgramFacts.
Import MainFacts ExtractFacts MainCases.

Lemma index_free_template tpl :
  index_free (fun m => substitute tpl (matched m) [] [] (captures m)).
Proof. by intros i j md cs af. Qed.

Lemma index_free_cinPrompt : index_free (fun m => cinPrompt (group_str m 0)).
Proof. by intros i j md cs af. Qed.

(** Steps 1 to 5 keep the line of the statement of a program. *)
Lemma prefix_keeps_line lm ls lc below :
  wfPlace lm -> wfPlace ls -> wfPlace lc ->
  exists l V, wfPlace l /\ transpilePrefix (program lm ls lc below) = put l coutHi V.
Proof.
  intros Hm Hs Hc. unfold transpilePrefix. rewrite !replace_all_from, replace_all_with_from.
  destruct (program_replace includeRegex _ lm ls lc below
              ltac:(by vm_compute) ltac:(by vm_compute) ltac:(by vm_compute)
              (index_free_template []) Hm Hs Hc)
    as (lm1 & ls1 & lc1 & below1 & Hm1 & Hs1 & Hc1 & ->).
  destruct (program_replace usingRegex _ lm1 ls1 lc1 below1
              ltac:(by vm_compute) ltac:(by vm_compute) ltac:(by vm_compute)
              (index_free_template []) Hm1 Hs1 Hc1)
    as (lm2 & ls2 & lc2 & below2 & Hm2 & Hs2 & Hc2 & ->).
  destruct (program_replace returnRegex _ lm2 ls2 lc2 below2
              ltac:(by vm_compute) ltac:(by vm_compute) ltac:(by vm_compute)
              (index_free_template []) Hm2 Hs2 Hc2)
    as (lm3 & ls3 & lc3 & below3 & Hm3 & Hs3 & Hc3 & ->).
  destruct (main_extracted lm3 ls3 lc3 below3 Hs3) as (m & U & V & -> & ->).
  change (lined U true (indent ls3) coutHi (trail ls3) V)
    with (put (Place (Some U) (indent ls3) (trail ls3)) coutHi V).
  assert (wfPlace (Place (Some U) (indent ls3) (trail ls3))) as H0 by (by destruct Hs3).
  assert (coutHi <> []) as Hw by done.
  repeat match goal with
  | H : wfPlace ?l |- context [replace_from ?p ?g None (put ?l coutHi ?W)] =>
      let l' := fresh "l" in let H' := fresh "H" in
      destruct (protect p g coutHi l W None) as (l' & H' & _ & _ & ->);
        [by vm_compute|first [apply index_free_template|apply index_free_cinPrompt]
        |exact H|exact Hw|];
      clear H
  end.
  by eexists _, _.
Qed.

(** *** The line among the lines of the text *)

Lemma split_after c L V : forall U cur,
  Forall (fun a => a <> c) L ->
  exists l1 l2, Str.split_go [c] 0 cur (U ++ c :: L ++ c :: V) = l1 ++ L :: l2.
Proof.
  induction U as [|a U IH]; intros cur HL.
  - cbn [app Str.split_go Str.startsWith length Nat.sub]. rewrite ceqb_refl. cbn [andb].
    rewrite (ServiceFacts.split_go_cut c [] L V HL).
    by exists [reverse cur], (Str.split_go [c] 0 [] V).
  - cbn [app Str.split_go Str.startsWith length Nat.sub].
    destruct (Str.ceqb c a && true).
    + destruct (IH [] HL) as (l1 & l2 & ->). by exists (reverse cur :: l1), l2.
    + apply (IH _ HL).
Qed.

Lemma blank_not_lf a : blank a = true -> a <> "010"%char.
Proof. unfold blank. intros [_ H%negb_true_iff]%andb_true_iff. by apply ceqb_neq. Qed.

Lemma blanks_no_lf s : blanks s -> Forall (fun a => a <> "010"%char) s.
Proof. intros H. eapply Forall_impl; [exact H|]. intros a. apply blank_not_lf. Qed.

Lemma blanks_spaces s : blanks s -> spaces s.
Proof.
  intros H. eapply Forall_impl; [exact H|]. intros a. unfold blank.
  by intros [Ha _]%andb_true_iff.
Qed.

Lemma line_in_split l V :
  wfPlace l -> (indent l ++ coutHi ++ trail l) ∈ Str.split nl (put l coutHi V).
Proof.
  intros [Hi Ht].
  assert (Forall (fun a => a <> "010"%char) (indent l ++ coutHi ++ trail l)) as HL.
  { rewrite !Forall_app. split; [by apply blanks_no_lf|]. split; [|by apply blanks_no_lf].
    by apply ServiceFacts.Forall_neq_check. }
  unfold put, lined, Str.split. destruct (above l) as [U|].
  - destruct (split_after "010"%char _ V U [] HL) as (l1 & l2 & E).
    change (nl ++ indent l ++ coutHi ++ trail l ++ nl ++ V)
      with ("010"%char :: indent l ++ coutHi ++ trail l ++ nl ++ V).
    replace (indent l ++ coutHi ++ trail l ++ nl ++ V)
      with ((indent l ++ coutHi ++ trail l) ++ "010"%char :: V)
      by (by rewrite <- !app_assoc).
    change nl with ["010"%char]. rewrite E, elem_of_app. right. apply list_elem_of_here.
  - cbn [app].
    replace (indent l ++ coutHi ++ trail l ++ nl ++ V)
      with ((indent l ++ coutHi ++ trail l) ++ "010"%char :: V)
      by (by rewrite <- !app_assoc).
    change nl with ["010"%char]. rewrite (ServiceFacts.split_go_cut _ [] _ V HL).
    apply list_elem_of_here.
Qed.

Lemma line_trim l : wfPlace l -> Str.trim (indent l ++ coutHi ++ trail l) = coutHi.
Proof.
  intros [Hi Ht]. apply OutputFacts.trim_pad; [by apply blanks_spaces..|by vm_compute].
Qed.




End MainLineFacts.

(** ** The size of the document *)

Module GrowthFacts.
Import Regex StrFacts Compiler Shapes InjectFacts Growth.

Lemma substitute_backticks m b a t k :
  substitute (backticks k ++ t) m b a [] = concat (replicate k b) ++ substitute t m b a [].
Proof.
  induction k as [|k IH]; [done|].
  change (backticks (S k)) with ("$"%char :: "`"%char :: backticks k).
  cbn [app replicate concat]. rewrite <- app_assoc, <- IH. reflexivity.
Qed.

Lemma length_copies (b : str) k : length (concat (replicate k b)) = k * length b.
Proof. induction k as [|k IH]; [done|]. cbn [replicate concat]. rewrite length_app, IH. lia. Qed.

(** The script put before [</body>]: each pattern of the script becomes
    a copy of the page before [</body>]. *)
Lemma injectScripts_backticks html n k :
  Str.indexOf #"</body>" html = Some n -> n <= length html ->
  k * n <= length (injectScripts html [backticks k]).
Proof.
  intros Hi Hn. unfold injectScripts, Str.includes, replaceStr. rewrite Hi.
  cbn [Str.join].
  rewrite (substitute_inert_app _ _ _ (length #"<script>") #"<script>") by
    (first [done | by left | by vm_compute]).
  rewrite substitute_backticks.
  rewrite !length_app, length_copies, length_take. nia.
Qed.

Lemma script_copies html k c l :
  N.of_nat <$> Str.indexOf #"</body>" html = Some c -> N.of_nat (length html) = l ->
  (c <= l)%N ->
  (Z.of_nat k * Z.of_N c <= Z.of_nat (length (injectScripts html [backticks k])))%Z.
Proof.
  intros (n & Hi & Hc)%fmap_Some Hl Hcl.
  pose proof (injectScripts_backticks html n k Hi ltac:(lia)) as H. lia.
Qed.

Lemma backticks_chars k : Forall (fun a => a = "$"%char \/ a = "`"%char) (backticks k).
Proof.
  induction k as [|k IH]; [constructor|].
  change (backticks (S k)) with ("$"%char :: "`"%char :: backticks k).
  constructor; [by left|]. constructor; [by right|done].
Qed.

Lemma includes_other_chars c p s :
  Forall (fun a => a <> c) s -> Str.includes (c :: p) s = false.
Proof.
  intros H. unfold Str.includes.
  assert (Str.indexOf (c :: p) s = None) as ->; [|done].
  induction H as [|a s Ha Hs IH]; [done|]. cbn [Str.indexOf].
  rewrite FormatFacts.startsWith_cons_neq by done. by rewrite IH.
Qed.

Lemma growingFiles_route k1 k2 :
  assemblePreview (growingFiles k1 k2)
  = injectScripts
      (injectHook (baseDocument None None None false
                     (map cssPart [mkFile #"style.css" #"css" (backticks k1)])))
      [backticks k2].
Proof.
  unfold assemblePreview.
  assert (isNative (growingFiles k1 k2) = false) as -> by by vm_compute.
  assert (List.find isPreviewHtml (growingFiles k1 k2) = None) as -> by by vm_compute.
  assert (List.find isHtml (growingFiles k1 k2) = None) as -> by by vm_compute.
  assert (List.find isLiquid (growingFiles k1 k2) = None) as -> by by vm_compute.
  assert (isReact (growingFiles k1 k2) = false) as ->; [|reflexivity].
  unfold isReact. change (List.filter isJs (growingFiles k1 k2))
    with [mkFile #"app.js" #"js" (backticks k2)].
  cbn [existsb]. unfold hasReactSignature. cbn [content].
  assert (forall c p, c <> "$"%char -> c <> "`"%char ->
            Str.includes (c :: p) (backticks k2) = false) as H.
  { intros c p H1 H2. apply includes_other_chars.
    eapply Forall_impl; [apply backticks_chars|]. intros a [-> | ->]; congruence. }
  assert (Str.includes #"import React" (backticks k2) = false) as -> by by apply H.
  assert (Str.includes #"react-dom" (backticks k2) = false) as -> by by apply H.
  assert (Str.includes (q"from ~react~") (backticks k2) = false) as -> by by apply H.
  assert (Str.includes #"from 'react'" (backticks k2) = false) as -> by by apply H.
  done.
Qed.

(** C3 (failing input).  For a style sheet of 1000 and a script of 5000
    replacement patterns [$`], 12 000 code units in all, the document
    that [assemblePreview] has to build is longer than 2^31 code units:
    the texts of the artifacts are the replacement strings of
    [String.prototype.replace], in which each [$`] stands for the page
    before the match.  No JavaScript engine has strings of that length
    (the longest have 2^31 - 1 code units), so that [replace] throws a
    RangeError where the model, whose strings have any length, goes on. *)
Theorem document_outgrows_strings :
  map (fun f => length (content f)) (growingFiles 1000 5000) = [2000; 10000]
  /\ (2 ^ 31 < Z.of_nat (length (assemblePreview (growingFiles 1000 5000))))%Z.
Proof.
  split; [by vm_compute|]. rewrite growingFiles_route.
  pose proof (script_copies
    (injectHook (baseDocument None None None false
                   (map cssPart [mkFile #"style.css" #"css" (backticks 1000)])))
    5000 496724%N 496739%N) as H.
  specialize (H ltac:(vm_compute; reflexivity) ltac:(vm_compute; reflexivity) ltac:(lia)).
  change (Z.of_nat 5000) with 5000%Z in H. lia.
Qed.

End GrowthFacts.
